(** * The embedding service of the memory index

    A shallow embedding of [EmbeddingService] (the cache-and-resilience
    layer that turns text chunks into vectors): the content-addressed
    cache table, token-budget batching, the retry loop, the batch-API
    paths and their circuit breaker.

    Conventions.
    - JS numbers that hold counters, line numbers and timestamps are [Z];
      array indices are [nat].
    - JS strings are [string]; one character stands for one code unit, so
      [String.length] is [text.length].
    - An embedding vector is a list of numbers.  The service never computes
      with the entries, it only moves vectors around and looks at their
      length, so the entries are [Z].
    - [async] methods run to completion one after the other; [await] is
      sequencing in the monad [M] below.  A thrown exception keeps the
      state changes made before it, as in JS. *)

From Stdlib Require Import ZArith Lia Ascii.
From stdpp Require Import base option list gmap strings pretty sorting.

#[local] Open Scope Z_scope.

(** ** Strings and the regular expressions of the service *)

Module Js.

(** ASCII lower-casing: what the [/i] flag does for the ASCII patterns
    used here. *)
Definition lower (c : ascii) : ascii :=
  let n := nat_of_ascii c in
  if ((65 <=? n)%nat && (n <=? 90)%nat)%bool then ascii_of_nat (n + 32) else c.

Definition is_digit (c : ascii) : bool :=
  let n := nat_of_ascii c in ((48 <=? n)%nat && (n <=? 57)%nat)%bool.

(** [starts_ci p s]: [s] starts with [p], ignoring ASCII case. *)
Fixpoint starts_ci (p s : string) : bool :=
  match p, s with
  | EmptyString, _ => true
  | String _ _, EmptyString => false
  | String a p', String b s' => Ascii.eqb (lower a) (lower b) && starts_ci p' s'
  end.

(** [/p/i.test(s)] for a literal pattern [p]. *)
Fixpoint test_ci (p s : string) : bool :=
  starts_ci p s ||
  match s with
  | EmptyString => false
  | String _ s' => test_ci p s'
  end.

(** [/5\d\d/.test(s)] *)
Fixpoint test_5dd (s : string) : bool :=
  match s with
  | String a (String b (String c _ as s2) as s1) =>
      (Ascii.eqb a "5" && is_digit b && is_digit c) || test_5dd s1
  | _ => false
  end.

(** JS truthiness of a string: non-empty. *)
Definition truthy (s : string) : bool :=
  match s with EmptyString => false | _ => true end.

End Js.

(** ** Constants *)

Definition EMBEDDING_BATCH_MAX_TOKENS : Z := 8000.
Definition EMBEDDING_APPROX_CHARS_PER_TOKEN : Z := 1.
Definition EMBEDDING_RETRY_MAX_ATTEMPTS : Z := 3.
Definition EMBEDDING_RETRY_BASE_DELAY_MS : Z := 500.
Definition EMBEDDING_RETRY_MAX_DELAY_MS : Z := 8000.
Definition BATCH_FAILURE_LIMIT : Z := 2.

(** ** Data model *)

Definition vector : Type := list Z.

Record MemoryChunk : Type := {
  startLine : Z;
  endLine : Z;
  text : string;
  hash : string
}.

Inductive MemorySource : Type := SrcMemory | SrcSessions.

Definition source_name (s : MemorySource) : string :=
  match s with SrcMemory => "memory" | SrcSessions => "sessions" end.

Record FileEntry : Type := {
  path : string;
  absPath : string;
  mtimeMs : Z;
  size : Z;
  file_hash : string
}.

(** ** Token-budget batching *)

(** [Math.ceil(text.length / EMBEDDING_APPROX_CHARS_PER_TOKEN)]; the
    divisor is [1], the ceiling of an exact quotient is the quotient. *)
Definition ceil_div (a b : Z) : Z := (a + b - 1) / b.

Definition estimateEmbeddingTokens (t : string) : Z :=
  if Js.truthy t
  then ceil_div (Z.of_nat (String.length t)) EMBEDDING_APPROX_CHARS_PER_TOKEN
  else 0.

(** The state of the [for] loop of [buildEmbeddingBatches]: the bins
    closed so far, the open bin and its token count. *)
Record Packing : Type := {
  batches : list (list MemoryChunk);
  current : list MemoryChunk;
  currentTokens : Z
}.

(** One iteration of the loop body. *)
Definition pack_step (st : Packing) (chunk : MemoryChunk) : Packing :=
  let estimate := estimateEmbeddingTokens (text chunk) in
  let wouldExceed :=
    negb (Nat.eqb (length (current st)) 0) &&
    (EMBEDDING_BATCH_MAX_TOKENS <? currentTokens st + estimate) in
  let st1 :=
    if wouldExceed
    then {| batches := batches st ++ [current st]; current := []; currentTokens := 0 |}
    else st in
  if Nat.eqb (length (current st1)) 0 && (EMBEDDING_BATCH_MAX_TOKENS <? estimate)
  then {| batches := batches st1 ++ [[chunk]];
          current := current st1; currentTokens := currentTokens st1 |}
  else {| batches := batches st1;
          current := current st1 ++ [chunk];
          currentTokens := currentTokens st1 + estimate |}.

Definition pack_finish (st : Packing) : list (list MemoryChunk) :=
  if negb (Nat.eqb (length (current st)) 0)
  then batches st ++ [current st]
  else batches st.

Definition buildEmbeddingBatches (chunks : list MemoryChunk) : list (list MemoryChunk) :=
  pack_finish
    (fold_left pack_step chunks {| batches := []; current := []; currentTokens := 0 |}).

Definition bin_tokens (bin : list MemoryChunk) : Z :=
  foldr (fun c acc => estimateEmbeddingTokens (text c) + acc) 0 bin.


(** ** Errors, outcomes and the cache table *)

(** A thrown value.  JS throws and rejects with any value.  Of an object
    (an [Error] as a rule) the service looks at two things: the text it
    takes for its message, [err.message] for an [Error] and [String(err)]
    for any other object, and the [batchAttempts] property that
    [runBatchWithTimeoutRetry] may have set; objects are ordinary,
    extensible ones.  A primitive (a string, a number, a boolean) is
    given by [String(err)]; it has no property of its own and takes none.
    [null] and [undefined] have no properties at all. *)
Inductive JsValue : Type :=
| JsObject (msg : string) (tag : option Z)
| JsPrimitive (str : string)
| JsNull
| JsUndefined.

(** [err instanceof Error ? err.message : String(err)] *)
Definition message (err : JsValue) : string :=
  match err with
  | JsObject msg _ => msg
  | JsPrimitive str => str
  | JsNull => "null"
  | JsUndefined => "undefined"
  end.

Inductive Res (A : Type) : Type :=
| Ok (a : A)
| Throw (e : JsValue).
Arguments Ok {A} a.
Arguments Throw {A} e.

(** What a batch runner resolves to, [Map<string, number[]> | number[][]]:
    a map from custom id to vector, given by its entries in iteration
    order, or a plain array of vectors. *)
Inductive BatchResult : Type :=
| ByCustomId (entries : list (string * vector))
| Vectors (vs : list vector).

(** [Array.isArray(batchResult)] *)
Definition Array_isArray (r : BatchResult) : bool :=
  match r with Vectors _ => true | ByCustomId _ => false end.

(** A row of [embedding_cache].  [rowid] is SQLite's implicit row
    identifier; the unique constraint is on
    [(provider, model, provider_key, hash)]. *)
Record CacheRow : Type := {
  rowid : Z;
  row_provider : string;
  row_model : string;
  provider_key : string;
  row_hash : string;
  embedding : string;
  dims : option Z;
  updated_at : Z
}.

(** A database handle: the table as the connection sees it, and the
    snapshot to which [ROLLBACK] returns while a transaction is open. *)
Record DatabaseSync : Type := {
  table : list CacheRow;
  txn : option (list CacheRow)
}.

Definition same_key (p m k h : string) (r : CacheRow) : Prop :=
  row_provider r = p ∧ row_model r = m ∧ provider_key r = k ∧ row_hash r = h.

#[global] Instance same_key_dec p m k h r : Decision (same_key p m k h r).
Proof. unfold same_key. apply _. Defined.

(** The rowid SQLite gives to a new row: one more than the largest in use. *)
Definition next_rowid (t : list CacheRow) : Z :=
  1 + foldr (fun r acc => Z.max (rowid r) acc) 0 t.

(** [INSERT ... ON CONFLICT(provider, model, provider_key, hash) DO UPDATE
    SET embedding, dims, updated_at]: the [rowid] of [new] is ignored. *)
Definition upsert_row (new : CacheRow) (t : list CacheRow) : list CacheRow :=
  let hit := same_key (row_provider new) (row_model new) (provider_key new) (row_hash new) in
  if decide (Exists hit t)
  then (fun r => if decide (hit r)
                 then {| rowid := rowid r;
                         row_provider := row_provider r; row_model := row_model r;
                         provider_key := provider_key r; row_hash := row_hash r;
                         embedding := embedding new; dims := dims new;
                         updated_at := updated_at new |}
                 else r) <$> t
  else t ++ [ {| rowid := next_rowid t;
                 row_provider := row_provider new; row_model := row_model new;
                 provider_key := provider_key new; row_hash := row_hash new;
                 embedding := embedding new; dims := dims new;
                 updated_at := updated_at new |} ].

(** [SELECT hash, embedding ... WHERE provider = ? AND model = ? AND
    provider_key = ? AND hash IN (...)], rows in storage order. *)
Definition select_by_hashes (p m k : string) (hs : list string) (t : list CacheRow)
  : list CacheRow :=
  filter (fun r => row_provider r = p ∧ row_model r = m ∧ provider_key r = k ∧ row_hash r ∈ hs) t.

(** [ORDER BY updated_at ASC]: an insertion sort by timestamp.  SQLite
    lists rows with equal timestamps by ascending rowid (the order of its
    scan), so among them the lower rowid comes first. *)
Definition sorts_before (r x : CacheRow) : bool :=
  (updated_at r <? updated_at x) ||
  ((updated_at r =? updated_at x) && (rowid r <? rowid x)).

Fixpoint insert_by_updated_at (r : CacheRow) (l : list CacheRow) : list CacheRow :=
  match l with
  | [] => [r]
  | x :: l' => if sorts_before r x then r :: l
               else x :: insert_by_updated_at r l'
  end.

Definition order_by_updated_at (t : list CacheRow) : list CacheRow :=
  foldr insert_by_updated_at [] t.

(** [DELETE ... WHERE rowid IN (SELECT rowid ... ORDER BY updated_at ASC LIMIT n)] *)
Definition oldest_rowids (n : Z) (t : list CacheRow) : list Z :=
  rowid <$> take (Z.to_nat n) (order_by_updated_at t).

Definition delete_oldest (n : Z) (t : list CacheRow) : list CacheRow :=
  filter (fun r => rowid r ∉ oldest_rowids n t) t.

(** ** The service and its collaborators *)

Record Provider : Type := { id : string; model : string }.
Record OpenAiEmbeddingClient : Type := { openai_model : string }.
Record GeminiEmbeddingClient : Type := { gemini_model : string }.
Record CacheConfig : Type := { cache_enabled : bool; maxEntries : option Z }.

Record BatchConfig : Type := {
  enabled : bool;
  wait : bool;
  concurrency : Z;
  pollIntervalMs : Z;
  timeoutMs : Z
}.

Record EmbeddingService : Type := {
  db : DatabaseSync;
  provider : Provider;
  providerKey : string;
  openAi : option OpenAiEmbeddingClient;
  gemini : option GeminiEmbeddingClient;
  cache : CacheConfig;
  batch : BatchConfig;
  agentId : string;
  batchFailureCount : Z;
  batchFailureLastError : option string;
  batchFailureLastProvider : option string
}.

Record EmbeddingBatchStatus : Type := {
  st_enabled : bool;
  st_failures : Z;
  st_limit : Z;
  st_wait : bool;
  st_concurrency : Z;
  st_pollIntervalMs : Z;
  st_timeoutMs : Z;
  st_lastError : option string;
  st_lastProvider : option string
}.

Record OpenAiBatchRequest : Type := {
  oa_custom_id : string;
  oa_method : string;
  oa_url : string;
  oa_body_model : string;
  oa_body_input : string
}.

Record GeminiBatchRequest : Type := {
  gm_custom_id : string;
  gm_text : string;
  gm_taskType : string
}.

Inductive BatchRequest : Type :=
| OpenAiReq (r : OpenAiBatchRequest)
| GeminiReq (r : GeminiBatchRequest).

Definition custom_id (r : BatchRequest) : string :=
  match r with OpenAiReq r => oa_custom_id r | GeminiReq r => gm_custom_id r end.

Definition request_text (r : BatchRequest) : string :=
  match r with OpenAiReq r => oa_body_input r | GeminiReq r => gm_text r end.

(** What the service asks of the outside world, newest first. *)
Inductive Event : Type :=
| EvEmbedQuery (t : string)
| EvEmbedBatch (texts : list string)
| EvRunBatch (requests : list BatchRequest)
| EvSleep (delayMs : Z).

(** The collaborators that live outside this file.  Each provider or
    runner call is answered as a function of the history of earlier
    requests and of its arguments, so any deterministic behaviour in time
    is covered.  The answer of [embedBatch] and [embedQuery] is the outcome
    of the call raced against its deadline by [withTimeout]: a timeout is a
    [Throw] whose message says so.  A runner resolves to a map or to a
    plain array, or rejects with any value.

    [clock hist t] is what [Date.now()] reads once the requests [hist]
    have gone out, [t] being the time at which the running call began:
    time passes while the service waits for an answer.

    [TypeError_set v] and [TypeError_get v] are the messages of the
    [TypeError] that the engine throws, in strict mode, when the property
    [batchAttempts] is assigned on a value [v] that is not an object, and
    when it is read off [null] or [undefined]. *)
Record Env : Type := {
  embedQuery_of : list Event -> string -> Res vector;
  embedBatch : list Event -> list string -> Res (list vector);
  runOpenAiEmbeddingBatches :
    list Event -> OpenAiEmbeddingClient -> string -> list OpenAiBatchRequest ->
    BatchConfig -> Res BatchResult;
  runGeminiEmbeddingBatches :
    list Event -> GeminiEmbeddingClient -> string -> list GeminiBatchRequest ->
    BatchConfig -> Res BatchResult;
  hashText : string -> string;
  parseEmbedding : string -> vector;
  JSON_stringify : vector -> string;
  clock : list Event -> Z -> Z;
  TypeError_set : JsValue -> string;
  TypeError_get : JsValue -> string
}.

Definition OPENAI_BATCH_ENDPOINT : string := "/v1/embeddings".

(** The world an [async] method runs in: the service object (with its
    database), the requests sent out so far, and the wall clock. *)
Record World : Type := {
  self : EmbeddingService;
  events : list Event;
  now : Z
}.

Definition M (A : Type) : Type := World -> Res A * World.

Definition ret {A} (a : A) : M A := fun w => (Ok a, w).
Definition throw {A} (e : JsValue) : M A := fun w => (Throw e, w).

Definition bind {A B} (m : M A) (k : A -> M B) : M B :=
  fun w => match m w with
           | (Ok a, w') => k a w'
           | (Throw e, w') => (Throw e, w')
           end.

(** [try { m } catch (err) { h err }] *)
Definition try_catch {A} (m : M A) (h : JsValue -> M A) : M A :=
  fun w => match m w with
           | (Ok a, w') => (Ok a, w')
           | (Throw e, w') => h e w'
           end.

Notation "'let*' x ':=' m 'in' k" := (bind m (fun x => k))
  (at level 10, x name, m at level 100, k at level 200).
Notation "m ';;' k" := (bind m (fun _ => k))
  (at level 100, k at level 200, right associativity).

Definition get_self : M EmbeddingService := fun w => (Ok (self w), w).

Definition modify_self (f : EmbeddingService -> EmbeddingService) : M unit :=
  fun w => (Ok tt, {| self := f (self w); events := events w; now := now w |}).

Definition emit (e : Event) : M unit :=
  fun w => (Ok tt, {| self := self w; events := e :: events w; now := now w |}).

Definition Date_now (env : Env) : M Z :=
  fun w => (Ok (clock env (events w) (now w)), w).

(** An operation of the engine that returns or throws, and leaves the
    service alone. *)
Definition lift {A} (r : Res A) : M A := fun w => (r, w).

(** [(err as { batchAttempts?: number }).batchAttempts]: an object gives
    its property, a primitive [undefined]; on [null] and [undefined] the
    read throws. *)
Definition get_batchAttempts (env : Env) (err : JsValue) : Res (option Z) :=
  match err with
  | JsObject _ tag => Ok tag
  | JsPrimitive _ => Ok None
  | JsNull | JsUndefined => Throw (JsObject (TypeError_get env err) None)
  end.

(** [(retryErr as { batchAttempts?: number }).batchAttempts = n]: an
    object takes the property; on anything else the assignment throws (the
    file is a module, so the code is strict). *)
Definition set_batchAttempts (env : Env) (err : JsValue) (n : Z) : Res JsValue :=
  match err with
  | JsObject msg _ => Ok (JsObject msg (Some n))
  | JsPrimitive _ | JsNull | JsUndefined => Throw (JsObject (TypeError_set env err) None)
  end.

(** Run an external call: answer it from the history, then record it. *)
Definition ask {A} (answer : list Event -> Res A) (e : Event) : M A :=
  fun w => (answer (events w),
            {| self := self w; events := e :: events w; now := now w |}).

Definition set_db (d : DatabaseSync) (s : EmbeddingService) : EmbeddingService :=
  {| db := d; provider := provider s; providerKey := providerKey s;
     openAi := openAi s; gemini := gemini s; cache := cache s; batch := batch s;
     agentId := agentId s; batchFailureCount := batchFailureCount s;
     batchFailureLastError := batchFailureLastError s;
     batchFailureLastProvider := batchFailureLastProvider s |}.

Definition set_table (t : list CacheRow) (d : DatabaseSync) : DatabaseSync :=
  {| table := t; txn := txn d |}.

Definition set_failure (count : Z) (err prov : option string) (s : EmbeddingService)
  : EmbeddingService :=
  {| db := db s; provider := provider s; providerKey := providerKey s;
     openAi := openAi s; gemini := gemini s; cache := cache s; batch := batch s;
     agentId := agentId s; batchFailureCount := count;
     batchFailureLastError := err;
     batchFailureLastProvider := prov |}.

Definition set_batch_enabled (b : bool) (s : EmbeddingService) : EmbeddingService :=
  {| db := db s; provider := provider s; providerKey := providerKey s;
     openAi := openAi s; gemini := gemini s; cache := cache s;
     batch := {| enabled := b; wait := wait (batch s);
                 concurrency := concurrency (batch s);
                 pollIntervalMs := pollIntervalMs (batch s);
                 timeoutMs := timeoutMs (batch s) |};
     agentId := agentId s; batchFailureCount := batchFailureCount s;
     batchFailureLastError := batchFailureLastError s;
     batchFailureLastProvider := batchFailureLastProvider s |}.

(** ** Cache lookup and write-back *)

(** The first loop of [loadEmbeddingCache]: drop empty hashes and
    repetitions, keeping first occurrences in order. *)
Fixpoint unique_hashes (hashes : list string) (seen : gset string) (unique : list string)
  : list string :=
  match hashes with
  | [] => unique
  | h :: rest =>
      if negb (Js.truthy h) then unique_hashes rest seen unique
      else if decide (h ∈ seen) then unique_hashes rest seen unique
      else unique_hashes rest ({[h]} ∪ seen) (unique ++ [h])
  end.

Definition LOAD_BATCH_SIZE : nat := 400.

(** The second loop: one [SELECT] per slice of 400 hashes, every row found
    is [out.set(row.hash, parseEmbedding(row.embedding))].  [fuel] bounds
    the number of slices; [length unique] is enough since [start] grows by
    400 each time round. *)
Fixpoint load_slices (env : Env) (s : EmbeddingService) (unique : list string)
    (fuel start : nat) (out : gmap string vector) : gmap string vector :=
  match fuel with
  | O => out
  | S fuel' =>
      if (start <? length unique)%nat then
        let slice := take LOAD_BATCH_SIZE (drop start unique) in
        let rows := select_by_hashes (id (provider s)) (model (provider s)) (providerKey s)
                      slice (table (db s)) in
        let out' := foldl (fun o row => <[row_hash row := parseEmbedding env (embedding row)]> o)
                      out rows in
        load_slices env s unique fuel' (start + LOAD_BATCH_SIZE) out'
      else out
  end.

Definition loadEmbeddingCache (env : Env) (s : EmbeddingService) (hashes : list string)
  : gmap string vector :=
  if negb (cache_enabled (cache s)) then ∅
  else if Nat.eqb (length hashes) 0 then ∅
  else
    let unique := unique_hashes hashes ∅ [] in
    if Nat.eqb (length unique) 0 then ∅
    else load_slices env s unique (length unique) 0 ∅.

Record CacheEntry : Type := { entry_hash : string; entry_embedding : vector }.

Definition upsertEmbeddingCache (env : Env) (entries : list CacheEntry) : M unit :=
  let* s := get_self in
  if negb (cache_enabled (cache s)) then ret tt
  else if Nat.eqb (length entries) 0 then ret tt
  else
    let* now := Date_now env in
    modify_self (fun s =>
      set_db (set_table
        (foldl (fun t entry =>
                  upsert_row {| rowid := 0;
                                row_provider := id (provider s);
                                row_model := model (provider s);
                                provider_key := providerKey s;
                                row_hash := entry_hash entry;
                                embedding := JSON_stringify env (entry_embedding entry);
                                dims := Some (Z.of_nat (length (entry_embedding entry)));
                                updated_at := now |} t)
               (table (db s)) entries)
        (db s)) s).

(** ** Splitting a file's chunks into cache hits and misses *)

Record Missing : Type := { index : nat; chunk : MemoryChunk }.

(** [a[i] = v] on a JS array: in range it overwrites; past the end the
    array grows.  The service only ever writes in range (see
    [scan_chunks_index_lt] below); the gap of the other case is filled
    with empty vectors here. *)
Definition array_set (a : list vector) (i : nat) (v : vector) : list vector :=
  if (i <? length a)%nat then <[i := v]> a
  else a ++ replicate (i - length a) [] ++ [v].

(** [chunk?.hash ? cached.get(chunk.hash) : undefined] *)
Definition cache_hit (cached : gmap string vector) (c : MemoryChunk) : option vector :=
  if Js.truthy (hash c) then cached !! hash c else None.

(** [hit && hit.length > 0] *)
Definition usable_hit (hit : option vector) : bool :=
  match hit with
  | Some v => (0 <? length v)%nat
  | None => false
  end.

(** The loop [for (let i = 0; i < chunks.length; i += 1)], written out
    alike in the three embedding paths; [rest] are the chunks from index
    [i] on. *)
Fixpoint scan_chunks (cached : gmap string vector) (rest : list MemoryChunk) (i : nat)
    (embeddings : list vector) (missing : list Missing) : list vector * list Missing :=
  match rest with
  | [] => (embeddings, missing)
  | c :: rest' =>
      let hit := cache_hit cached c in
      if usable_hit hit
      then scan_chunks cached rest' (S i) (array_set embeddings i (default [] hit)) missing
      else scan_chunks cached rest' (S i) embeddings
             (missing ++ [ {| index := i; chunk := c |} ])
  end.

(** ** Retry with backoff *)

Definition isRetryableEmbeddingError (msg : string) : bool :=
  Js.test_ci "rate_limit" msg || Js.test_ci "rate limit" msg ||
  Js.test_ci "too many requests" msg || Js.test_ci "429" msg ||
  Js.test_ci "resource has been exhausted" msg || Js.test_5dd msg ||
  Js.test_ci "cloudflare" msg.

(** The [while (true)] loop of [embedBatchWithRetry].  Each turn either
    returns, throws, or goes round with [attempt + 1]; [fuel] is the
    number of turns allowed.  [EvSleep delayMs] records the wait before a
    retry by its base delay (the jitter of at most 20% and the cap at
    [EMBEDDING_RETRY_MAX_DELAY_MS] do not affect the state). *)
Fixpoint retry_loop (env : Env) (texts : list string) (fuel : nat) (attempt delayMs : Z)
  : M (list vector) :=
  match fuel with
  | O => throw (JsObject "retry loop: out of fuel" None)
  | S fuel' =>
      try_catch
        (ask (fun hist => embedBatch env hist texts) (EvEmbedBatch texts))
        (fun err =>
           if negb (isRetryableEmbeddingError (message err))
              || (EMBEDDING_RETRY_MAX_ATTEMPTS <=? attempt)
           then throw err
           else
             emit (EvSleep delayMs) ;;
             retry_loop env texts fuel' (attempt + 1) (delayMs * 2))
  end.

Definition RETRY_FUEL : nat := S (Z.to_nat EMBEDDING_RETRY_MAX_ATTEMPTS).

Definition embedBatchWithRetry (env : Env) (texts : list string) : M (list vector) :=
  if Nat.eqb (length texts) 0 then ret []
  else retry_loop env texts RETRY_FUEL 0 EMBEDDING_RETRY_BASE_DELAY_MS.

(** ** The inline path *)

(** State of the loop over bins: result array, rows to cache, cursor. *)
Record Filling : Type := {
  fill_embeddings : list vector;
  fill_toCache : list CacheEntry;
  fill_cursor : nat
}.

(** The inner loop [for (let i = 0; i < batch.length; i += 1)]. *)
Fixpoint fill_batch (missing : list Missing) (batchEmbeddings : list vector)
    (cursor : nat) (n : nat) (i : nat)
    (embeddings : list vector) (toCache : list CacheEntry)
  : list vector * list CacheEntry :=
  match n with
  | O => (embeddings, toCache)
  | S n' =>
      let embedding := default [] (batchEmbeddings !! i) in
      match missing !! (cursor + i)%nat with
      | Some item =>
          fill_batch missing batchEmbeddings cursor n' (S i)
            (array_set embeddings (index item) embedding)
            (toCache ++ [ {| entry_hash := hash (chunk item); entry_embedding := embedding |} ])
      | None =>
          fill_batch missing batchEmbeddings cursor n' (S i) embeddings toCache
      end
  end.

(** The loop [for (const batch of batches)]. *)
Fixpoint embed_bins (env : Env) (missing : list Missing) (bins : list (list MemoryChunk))
    (st : Filling) : M Filling :=
  match bins with
  | [] => ret st
  | bin :: bins' =>
      let* batchEmbeddings := embedBatchWithRetry env (text <$> bin) in
      let '(embeddings, toCache) :=
        fill_batch missing batchEmbeddings (fill_cursor st) (length bin) 0
          (fill_embeddings st) (fill_toCache st) in
      embed_bins env missing bins'
        {| fill_embeddings := embeddings; fill_toCache := toCache;
           fill_cursor := (fill_cursor st + length bin)%nat |}
  end.

Definition embedChunksInBatches (env : Env) (chunks : list MemoryChunk) : M (list vector) :=
  if Nat.eqb (length chunks) 0 then ret []
  else
    let* s := get_self in
    let cached := loadEmbeddingCache env s (hash <$> chunks) in
    let '(embeddings, missing) :=
      scan_chunks cached chunks 0 (replicate (length chunks) []) [] in
    if Nat.eqb (length missing) 0 then ret embeddings
    else
      let missingChunks := chunk <$> missing in
      let bins := buildEmbeddingBatches missingChunks in
      let* st := embed_bins env missing bins
                   {| fill_embeddings := embeddings; fill_toCache := []; fill_cursor := 0 |} in
      upsertEmbeddingCache env (fill_toCache st) ;;
      ret (fill_embeddings st).

(** ** The circuit breaker of the batch API *)

(** [withBatchFailureLock] chains the critical sections of concurrent
    callers one after the other; in a sequential run it just runs [fn]. *)
Definition withBatchFailureLock {A} (fn : M A) : M A := fn.

Definition resetBatchFailureCount : M unit :=
  withBatchFailureLock (modify_self (set_failure 0 None None)).

Record BatchFailure : Type := {
  fail_provider : string;
  fail_message : string;
  fail_attempts : option Z;
  forceDisable : bool
}.

Record BatchFailureResult : Type := { disabled : bool; count : Z }.

Definition recordBatchFailure (params : BatchFailure) : M BatchFailureResult :=
  withBatchFailureLock (
    let* s := get_self in
    if negb (enabled (batch s))
    then ret {| disabled := true; count := batchFailureCount s |}
    else
      let increment :=
        if forceDisable params then BATCH_FAILURE_LIMIT
        else Z.max 1 (default 1 (fail_attempts params)) in
      modify_self (fun s => set_failure (batchFailureCount s + increment)
                              (Some (fail_message params))
                              (Some (fail_provider params)) s) ;;
      let* s1 := get_self in
      let disabled := forceDisable params || (BATCH_FAILURE_LIMIT <=? batchFailureCount s1) in
      (if disabled then modify_self (set_batch_enabled false) else ret tt) ;;
      let* s2 := get_self in
      ret {| disabled := disabled; count := batchFailureCount s2 |}).

Definition isBatchTimeoutError (msg : string) : bool :=
  Js.test_ci "timed out" msg || Js.test_ci "timeout" msg.

Definition runBatchWithTimeoutRetry {T} (env : Env) (providerName : string) (run : M T)
  : M T :=
  try_catch run
    (fun err =>
       if isBatchTimeoutError (message err)
       then try_catch run
              (fun retryErr =>
                 let* tagged := lift (set_batchAttempts env retryErr 2) in
                 throw tagged)
       else throw err).

(** [T] is the runner's result type and the fallback resolves to an
    array, so that [T | number[][]] is [BatchResult] again: what comes
    back does not say where it came from. *)
Definition runBatchWithFallback (env : Env) (providerName : string) (run : M BatchResult)
    (fallback : M (list vector)) : M BatchResult :=
  let* s := get_self in
  if negb (enabled (batch s))
  then let* r := fallback in ret (Vectors r)
  else
    try_catch
      (let* result := runBatchWithTimeoutRetry env providerName run in
       resetBatchFailureCount ;;
       ret result)
      (fun err =>
         let msg := message err in
         let* tag := lift (get_batchAttempts env err) in
         let attempts := default 1 tag in
         let force := Js.test_ci "asyncBatchEmbedContent not available" msg in
         let* failure :=
           recordBatchFailure {| fail_provider := providerName; fail_message := msg;
                                 fail_attempts := Some attempts; forceDisable := force |} in
         let* r := fallback in ret (Vectors r)).

(** ** The batch-API paths *)

Record Mapped : Type := { mapped_index : nat; mapped_hash : string }.

Definition customIdOf (env : Env) (source : MemorySource) (entry : FileEntry) (item : Missing)
  : string :=
  hashText env
    (source_name source +:+ ":" +:+ path entry +:+ ":" +:+
     pretty (startLine (chunk item)) +:+ ":" +:+ pretty (endLine (chunk item)) +:+ ":" +:+
     hash (chunk item) +:+ ":" +:+ pretty (index item)).

(** The loop [for (const item of missing)] that builds the requests and
    the map from custom id to position. *)
Fixpoint build_requests {R} (env : Env) (mk : string -> MemoryChunk -> R)
    (source : MemorySource) (entry : FileEntry) (missing : list Missing)
    (requests : list R) (mapping : gmap string Mapped) : list R * gmap string Mapped :=
  match missing with
  | [] => (requests, mapping)
  | item :: rest =>
      let customId := customIdOf env source entry item in
      build_requests env mk source entry rest
        (requests ++ [mk customId (chunk item)])
        (<[customId := {| mapped_index := index item; mapped_hash := hash (chunk item) |}]> mapping)
  end.

(** The loop [for (const [customId, embedding] of byCustomId.entries())]. *)
Fixpoint reconcile (mapping : gmap string Mapped) (entries : list (string * vector))
    (embeddings : list vector) (toCache : list CacheEntry) : list vector * list CacheEntry :=
  match entries with
  | [] => (embeddings, toCache)
  | (customId, embedding) :: rest =>
      match mapping !! customId with
      | None => reconcile mapping rest embeddings toCache
      | Some mapped =>
          reconcile mapping rest
            (array_set embeddings (mapped_index mapped) embedding)
            (toCache ++ [ {| entry_hash := mapped_hash mapped; entry_embedding := embedding |} ])
      end
  end.

(** [embedChunksWithOpenAiBatch] and [embedChunksWithGeminiBatch] are the
    same text but for the request they build ([mk]) and the runner they
    call; this is their common body, after the client has been found. *)
Definition embedChunksWithBatchApi {R} (env : Env) (providerName : string)
    (mk : string -> MemoryChunk -> R) (view : R -> BatchRequest)
    (runner : list Event -> list R -> BatchConfig -> Res BatchResult)
    (chunks : list MemoryChunk) (entry : FileEntry) (source : MemorySource)
  : M (list vector) :=
  if Nat.eqb (length chunks) 0 then ret []
  else
    let* s := get_self in
    let cached := loadEmbeddingCache env s (hash <$> chunks) in
    let '(embeddings, missing) :=
      scan_chunks cached chunks 0 (replicate (length chunks) []) [] in
    if Nat.eqb (length missing) 0 then ret embeddings
    else
      let '(requests, mapping) := build_requests env mk source entry missing [] ∅ in
      let* batchResult :=
        runBatchWithFallback env providerName
          (let* s' := get_self in
           ask (fun hist => runner hist requests (batch s')) (EvRunBatch (view <$> requests)))
          (embedChunksInBatches env chunks) in
      match batchResult with
      | Vectors array => ret array
      | ByCustomId byCustomId =>
          let '(embeddings', toCache) := reconcile mapping byCustomId embeddings [] in
          upsertEmbeddingCache env toCache ;;
          ret embeddings'
      end.

(** The request pushed for a missing chunk, by provider.  [openAi] is set
    where the first is built, so [this.openAi?.model ?? this.provider.model]
    is the client's model. *)
Definition openAiRequest (client : OpenAiEmbeddingClient) (customId : string)
    (c : MemoryChunk) : OpenAiBatchRequest :=
  {| oa_custom_id := customId; oa_method := "POST";
     oa_url := OPENAI_BATCH_ENDPOINT;
     oa_body_model := openai_model client;
     oa_body_input := text c |}.

Definition geminiRequest (customId : string) (c : MemoryChunk) : GeminiBatchRequest :=
  {| gm_custom_id := customId; gm_text := text c;
     gm_taskType := "RETRIEVAL_DOCUMENT" |}.

Definition embedChunksWithOpenAiBatch (env : Env) (chunks : list MemoryChunk)
    (entry : FileEntry) (source : MemorySource) : M (list vector) :=
  let* s := get_self in
  match openAi s with
  | None => embedChunksInBatches env chunks
  | Some client =>
      embedChunksWithBatchApi env "openai" (openAiRequest client) OpenAiReq
        (fun hist requests cfg =>
           runOpenAiEmbeddingBatches env hist client (agentId s) requests cfg)
        chunks entry source
  end.

Definition embedChunksWithGeminiBatch (env : Env) (chunks : list MemoryChunk)
    (entry : FileEntry) (source : MemorySource) : M (list vector) :=
  let* s := get_self in
  match gemini s with
  | None => embedChunksInBatches env chunks
  | Some client =>
      embedChunksWithBatchApi env "gemini" geminiRequest GeminiReq
        (fun hist requests cfg =>
           runGeminiEmbeddingBatches env hist client (agentId s) requests cfg)
        chunks entry source
  end.

Definition embedChunksWithBatch (env : Env) (chunks : list MemoryChunk)
    (entry : FileEntry) (source : MemorySource) : M (list vector) :=
  let* s := get_self in
  if String.eqb (id (provider s)) "openai" && bool_decide (is_Some (openAi s))
  then embedChunksWithOpenAiBatch env chunks entry source
  else if String.eqb (id (provider s)) "gemini" && bool_decide (is_Some (gemini s))
  then embedChunksWithGeminiBatch env chunks entry source
  else embedChunksInBatches env chunks.

(** ** The public face of the service *)

Definition embedChunksForFile (env : Env) (chunks : list MemoryChunk)
    (entry : FileEntry) (source : MemorySource) : M (list vector) :=
  let* s := get_self in
  if enabled (batch s)
  then embedChunksWithBatch env chunks entry source
  else embedChunksInBatches env chunks.

Definition embedQuery (env : Env) (t : string) : M vector :=
  ask (fun hist => embedQuery_of env hist t) (EvEmbedQuery t).

Definition getBatchStatus (s : EmbeddingService) : EmbeddingBatchStatus :=
  {| st_enabled := enabled (batch s);
     st_failures := batchFailureCount s;
     st_limit := BATCH_FAILURE_LIMIT;
     st_wait := wait (batch s);
     st_concurrency := concurrency (batch s);
     st_pollIntervalMs := pollIntervalMs (batch s);
     st_timeoutMs := timeoutMs (batch s);
     st_lastError := batchFailureLastError s;
     st_lastProvider := batchFailureLastProvider s |}.

Definition getCacheEntryCount (s : EmbeddingService) : Z :=
  if negb (cache_enabled (cache s)) then 0
  else Z.of_nat (length (table (db s))).

Definition isBatchEnabled (s : EmbeddingService) : bool := enabled (batch s).

Definition getIndexConcurrency (s : EmbeddingService) (defaultConcurrency : Z) : Z :=
  if enabled (batch s) then concurrency (batch s) else defaultConcurrency.

(** [maxEntries] is a whole number when set. *)
Definition pruneEmbeddingCacheIfNeeded : M unit :=
  let* s := get_self in
  if negb (cache_enabled (cache s)) then ret tt
  else
    match maxEntries (cache s) with
    | None => ret tt
    | Some max =>
        if (max =? 0) || (max <=? 0) then ret tt
        else
          let count := Z.of_nat (length (table (db s))) in
          if count <=? max then ret tt
          else
            let excess := count - max in
            modify_self (fun s =>
              set_db (set_table (delete_oldest excess (table (db s))) (db s)) s)
    end.

(** ** Seeding the cache from another database *)

Definition sql_error (msg : string) : JsValue := JsObject msg None.

Definition exec_begin (d : DatabaseSync) : Res DatabaseSync :=
  match txn d with
  | Some _ => Throw (sql_error "cannot start a transaction within a transaction")
  | None => Ok {| table := table d; txn := Some (table d) |}
  end.

Definition exec_commit (d : DatabaseSync) : Res DatabaseSync :=
  match txn d with
  | Some _ => Ok {| table := table d; txn := None |}
  | None => Throw (sql_error "cannot commit - no transaction is active")
  end.

Definition exec_rollback (d : DatabaseSync) : Res DatabaseSync :=
  match txn d with
  | Some snapshot => Ok {| table := snapshot; txn := None |}
  | None => Throw (sql_error "cannot rollback - no transaction is active")
  end.

(** One statement on [this.db].  [fault] is the storage failure, if any,
    that hits this statement; a statement that fails changes nothing. *)
Definition sql (fault : option JsValue) (stmt : DatabaseSync -> Res DatabaseSync) : M unit :=
  fun w =>
    match fault with
    | Some e => (Throw e, w)
    | None =>
        match stmt (db (self w)) with
        | Ok d => (Ok tt, {| self := set_db d (self w); events := events w; now := now w |})
        | Throw e => (Throw e, w)
        end
    end.

(** The loop [for (const row of rows) insert.run(...)]; [k] numbers the
    statements of the call. *)
Fixpoint seed_rows (faults : nat -> option JsValue) (k : nat) (rows : list CacheRow) : M unit :=
  match rows with
  | [] => ret tt
  | row :: rest =>
      sql (faults k) (fun d => Ok (set_table (upsert_row row (table d)) d)) ;;
      seed_rows faults (S k) rest
  end.

(** [faults k] says whether the [k]-th statement of the call fails: 0 is
    the [SELECT] on [sourceDb], 1 the [prepare] of the insert, 2 [BEGIN],
    then one [insert.run] per row, then [COMMIT].  [ROLLBACK] only fails
    when there is no transaction to roll back. *)
Definition seedEmbeddingCache (faults : nat -> option JsValue) (sourceDb : DatabaseSync)
  : M unit :=
  let* s := get_self in
  if negb (cache_enabled (cache s)) then ret tt
  else
    try_catch
      (sql (faults 0%nat) Ok ;;
       let rows := table sourceDb in
       if Nat.eqb (length rows) 0 then ret tt
       else
         sql (faults 1%nat) Ok ;;
         sql (faults 2%nat) exec_begin ;;
         seed_rows faults 3 rows ;;
         sql (faults (3 + length rows)%nat) exec_commit)
      (fun err =>
         try_catch (sql None exec_rollback) (fun _ => ret tt) ;;
         throw err).

(** ** Calls on a service, for statements about its whole life *)

Inductive Call : Type :=
| CallEmbedQuery (t : string)
| CallEmbedChunksForFile (chunks : list MemoryChunk) (entry : FileEntry) (source : MemorySource)
| CallEmbedChunksInBatches (chunks : list MemoryChunk)
| CallPrune
| CallSeed (faults : nat -> option JsValue) (sourceDb : DatabaseSync)
| CallRecordBatchFailure (params : BatchFailure)
| CallResetBatchFailureCount
| CallTick (t : Z).

Definition perform (env : Env) (c : Call) (w : World) : World :=
  match c with
  | CallEmbedQuery t => snd (embedQuery env t w)
  | CallEmbedChunksForFile chunks entry source =>
      snd (embedChunksForFile env chunks entry source w)
  | CallEmbedChunksInBatches chunks => snd (embedChunksInBatches env chunks w)
  | CallPrune => snd (pruneEmbeddingCacheIfNeeded w)
  | CallSeed faults sourceDb => snd (seedEmbeddingCache faults sourceDb w)
  | CallRecordBatchFailure params => snd (recordBatchFailure params w)
  | CallResetBatchFailureCount => snd (resetBatchFailureCount w)
  | CallTick t => {| self := self w; events := events w; now := t |}
  end.

Definition perform_all (env : Env) (cs : list Call) (w : World) : World :=
  foldl (fun w c => perform env c w) w cs.

(** Requests sent to a batch runner, and to the embedding provider. *)
Definition is_run_batch (e : Event) : bool :=
  match e with EvRunBatch _ => true | _ => false end.

Definition is_embed_batch (e : Event) : bool :=
  match e with EvEmbedBatch _ => true | _ => false end.

Definition batch_submissions (w : World) : nat := length (List.filter is_run_batch (events w)).
Definition provider_calls (w : World) : nat := length (List.filter is_embed_batch (events w)).

(** * Vocabulary of the statements

    Predicates and abbreviations used to state the properties below; none
    of them is part of the service. *)

(** A bin respects the budget, or holds a single chunk that is too large
    on its own. *)
Definition bin_ok (bin : list MemoryChunk) : Prop :=
  bin_tokens bin <= EMBEDDING_BATCH_MAX_TOKENS ∨
  ∃ c, bin = [c] ∧ EMBEDDING_BATCH_MAX_TOKENS < estimateEmbeddingTokens (text c).

(** What holds of the loop state after the chunks [seen] have gone by. *)
Record packing_inv (seen : list MemoryChunk) (st : Packing) : Prop := {
  inv_concat : concat (batches st) ++ current st = seen;
  inv_tokens : currentTokens st = bin_tokens (current st);
  inv_budget : bin_tokens (current st) <= EMBEDDING_BATCH_MAX_TOKENS;
  inv_closed : Forall (fun bin => bin ≠ [] ∧ bin_ok bin) (batches st)
}.

(** [preserves P m]: running [m] from a world in [P] ends in [P], whether
    it returns or throws. *)
Definition preserves {A} (P : World → Prop) (m : M A) : Prop :=
  ∀ w, P w → P (snd (m w)).

(** By how much a failure raises the counter. *)
Definition failure_increment (params : BatchFailure) : Z :=
  if forceDisable params then BATCH_FAILURE_LIMIT
  else Z.max 1 (default 1 (fail_attempts params)).

(** The batch API is off and [k] submissions have been made. *)
Definition batch_off (k : nat) (w : World) : Prop :=
  enabled (batch (self w)) = false ∧ batch_submissions w = k.

(** The fallback's outcome, as [runBatchWithFallback] hands it on. *)
Definition as_fallback (x : Res (list vector) * World) : Res BatchResult * World :=
  match x with
  | (Ok r, w) => (Ok (Vectors r), w)
  | (Throw e, w) => (Throw e, w)
  end.

(** [null] or [undefined]. *)
Definition nullish (err : JsValue) : bool :=
  match err with
  | JsNull | JsUndefined => true
  | JsObject _ _ | JsPrimitive _ => false
  end.

(** The [batchAttempts] property that a thrown value shows when read. *)
Definition tag_of (err : JsValue) : option Z :=
  match err with
  | JsObject _ tag => tag
  | JsPrimitive _ | JsNull | JsUndefined => None
  end.

(** What [runBatchWithFallback] reports to the breaker for an error. *)
Definition failure_of (providerName : string) (err : JsValue) : BatchFailure :=
  {| fail_provider := providerName;
     fail_message := message err;
     fail_attempts := Some (default 1 (tag_of err));
     forceDisable := Js.test_ci "asyncBatchEmbedContent not available" (message err) |}.

(** What the [catch] block of the retry in [runBatchWithTimeoutRetry]
    throws for the error of the second run: that error, tagged with two
    attempts, if it is an object; the [TypeError] of the assignment if it
    is not. *)
Definition retry_error (env : Env) (retryErr : JsValue) : JsValue :=
  match retryErr with
  | JsObject msg _ => JsObject msg (Some 2)
  | JsPrimitive _ | JsNull | JsUndefined => JsObject (TypeError_set env retryErr) None
  end.

(** The world after one more request has gone out. *)
Definition add_event (e : Event) (w : World) : World :=
  {| self := self w; events := e :: events w; now := now w |}.

(** Row [a] was written no later than row [b]. *)
Definition older (a b : CacheRow) : Prop := updated_at a <= updated_at b.

(** The world with another database state. *)
Definition with_db (d : DatabaseSync) (w : World) : World :=
  {| self := set_db d (self w); events := events w; now := now w |}.

(** The columns of the unique constraint. *)
Definition row_key (r : CacheRow) : string * string * string * string :=
  (row_provider r, row_model r, provider_key r, row_hash r).

(** The table [t] has the cache entry of [r]: a row with its key, its
    embedding, its dimensions and its timestamp. *)
Definition holds (t : list CacheRow) (r : CacheRow) : Prop :=
  ∃ r', r' ∈ t ∧ row_key r' = row_key r ∧ embedding r' = embedding r ∧
        dims r' = dims r ∧ updated_at r' = updated_at r.

(** The number of the last statement of a call that meets no fault. *)
Definition last_statement (sourceDb : DatabaseSync) : nat :=
  if Nat.eqb (length (table sourceDb)) 0 then 0 else 3 + length (table sourceDb).

(** The [catch] block: [ROLLBACK] (its own failure ignored), then rethrow. *)
Definition seed_handler (err : JsValue) : M unit :=
  try_catch (sql None exec_rollback) (fun _ => ret tt) ;; throw err.

(** The [try] block. *)
Definition seed_body (faults : nat → option JsValue) (rows : list CacheRow) : M unit :=
  sql (faults 0%nat) Ok ;;
  if Nat.eqb (length rows) 0 then ret tt
  else
    sql (faults 1%nat) Ok ;;
    sql (faults 2%nat) exec_begin ;;
    seed_rows faults 3 rows ;;
    sql (faults (3 + length rows)%nat) exec_commit.

(** What the table holds for a hash under the service's provider, model
    and provider key: the vector parsed from the matching row (the last
    one in storage order, should there be several). *)
Definition cached_vector (env : Env) (s : EmbeddingService) (h : string) : option vector :=
  if cache_enabled (cache s)
  then (fun r => parseEmbedding env (embedding r)) <$>
       last (filter (same_key (id (provider s)) (model (provider s)) (providerKey s) h)
               (table (db s)))
  else None.

(** The cache entry a chunk can be served from, if any. *)
Definition lookup_hit (env : Env) (s : EmbeddingService) (c : MemoryChunk) : option vector :=
  if Js.truthy (hash c) then cached_vector env s (hash c) else None.

(** The same, whether the cache is on or not. *)
Definition stored (env : Env) (s : EmbeddingService) (h : string) : option vector :=
  (fun r => parseEmbedding env (embedding r)) <$>
  last (filter (same_key (id (provider s)) (model (provider s)) (providerKey s) h)
          (table (db s))).

(** The chunks of [rest] (at indices [i], [i+1], ...) that the cache does
    not serve. *)
Fixpoint misses_from (cached : gmap string vector) (rest : list MemoryChunk) (i : nat)
  : list Missing :=
  match rest with
  | [] => []
  | c :: rest' =>
      if usable_hit (cache_hit cached c) then misses_from cached rest' (S i)
      else {| index := i; chunk := c |} :: misses_from cached rest' (S i)
  end.

(** A write: result index, cache key, vector. *)
Definition put_write (acc : list vector * list CacheEntry) (wr : nat * string * vector)
  : list vector * list CacheEntry :=
  (array_set acc.1 wr.1.1 wr.2,
   acc.2 ++ [ {| entry_hash := wr.1.2; entry_embedding := wr.2 |} ]).

(** All the writes of a list, in order. *)
Definition put_writes (ws : list (nat * string * vector))
    (acc : list vector * list CacheEntry) : list vector * list CacheEntry :=
  foldl put_write acc ws.

(** The split of a file's chunks, as each path computes it first. *)
Definition scan_file (env : Env) (s : EmbeddingService) (chunks : list MemoryChunk)
  : list vector * list Missing :=
  scan_chunks (loadEmbeddingCache env s (hash <$> chunks)) chunks 0
    (replicate (length chunks) []) [].

(** The provider maps every text to its vector [embed]. *)
Definition provider_answers (env : Env) (embed : string → vector) : Prop :=
  ∀ hist texts, embedBatch env hist texts = Ok (embed <$> texts).

(** The vector owed to a chunk: the cache entry when the chunk can be
    served from it, what the provider computes otherwise. *)
Definition embedding_for (env : Env) (s : EmbeddingService) (embed : string → vector)
    (c : MemoryChunk) : vector :=
  if usable_hit (lookup_hit env s c) then default [] (lookup_hit env s c)
  else embed (text c).

(** The write that a missing chunk is owed. *)
Definition miss_write (embed : string → vector) (m : Missing) : nat * string * vector :=
  (index m, hash (chunk m), embed (text (chunk m))).

(** The entries of a map that answers every request, under the request's
    custom id, with the vector of its text: each key once, in any order,
    entries under other ids allowed. *)
Definition answers_all {R} (view : R → BatchRequest) (embed : string → vector)
    (requests : list R) (entries : list (string * vector)) : Prop :=
  NoDup entries.*1 ∧
  ∀ r, r ∈ requests → (custom_id (view r), embed (request_text (view r))) ∈ entries.

(** Given requests with distinct custom ids, a batch runner either
    fails, with an error other than [null] and [undefined], or resolves
    to a map that answers every request. *)
Definition runner_answers {R} (view : R → BatchRequest) (embed : string → vector)
    (runner : list Event → list R → BatchConfig → Res BatchResult) : Prop :=
  ∀ hist requests cfg,
    NoDup ((fun r => custom_id (view r)) <$> requests) →
    (∃ e, runner hist requests cfg = Throw e ∧ nullish e = false) ∨
    (∃ entries, runner hist requests cfg = Ok (ByCustomId entries) ∧
                answers_all view embed requests entries).

(** Both runners do. *)
Definition runners_answer (env : Env) (embed : string → vector) : Prop :=
  (∀ client agent,
     runner_answers OpenAiReq embed
       (fun hist requests cfg =>
          runOpenAiEmbeddingBatches env hist client agent requests cfg)) ∧
  (∀ client agent,
     runner_answers GeminiReq embed
       (fun hist requests cfg =>
          runGeminiEmbeddingBatches env hist client agent requests cfg)).

(** Every chunk of a file with its index. *)
Fixpoint items_from (rest : list MemoryChunk) (i : nat) : list Missing :=
  match rest with
  | [] => []
  | c :: rest' => {| index := i; chunk := c |} :: items_from rest' (S i)
  end.

(** No two chunks of the file get the same custom id. *)
Definition custom_ids_distinct (env : Env) (source : MemorySource) (entry : FileEntry)
    (chunks : list MemoryChunk) : Prop :=
  NoDup (customIdOf env source entry <$> items_from chunks 0).

(** Two services that read the same cache. *)
Definition same_cache (s1 s2 : EmbeddingService) : Prop :=
  db s1 = db s2 ∧ provider s1 = provider s2 ∧ providerKey s1 = providerKey s2 ∧
  cache s1 = cache s2.

(** The request built for a missing chunk, and what the map from custom
    ids remembers of it. *)
Definition request_of {R} (env : Env) (mk : string → MemoryChunk → R)
    (source : MemorySource) (entry : FileEntry) (m : Missing) : R :=
  mk (customIdOf env source entry m) (chunk m).

Definition remember (env : Env) (source : MemorySource) (entry : FileEntry)
    (mapping : gmap string Mapped) (m : Missing) : gmap string Mapped :=
  <[customIdOf env source entry m :=
      {| mapped_index := index m; mapped_hash := hash (chunk m) |}]> mapping.

(** The [run] closure handed to [runBatchWithFallback]. *)
Definition submit {R} (view : R → BatchRequest)
    (runner : list Event → list R → BatchConfig → Res BatchResult)
    (requests : list R) : M BatchResult :=
  let* s' := get_self in
  ask (fun hist => runner hist requests (batch s')) (EvRunBatch (view <$> requests)).

(** The chunk has a hash, and the cache holds a non-empty vector for it. *)
Definition served (env : Env) (s : EmbeddingService) (c : MemoryChunk) : Prop :=
  Js.truthy (hash c) = true ∧ ∃ v, cached_vector env s (hash c) = Some v ∧ v ≠ [].

(** The provider is up: it answers every call, with whatever vectors. *)
Definition provider_up (env : Env) : Prop :=
  ∀ hist texts, ∃ vs, embedBatch env hist texts = Ok vs.

(** The texts sent to the provider, in the order they were sent. *)
Definition sent_texts (evs : list Event) : list string :=
  foldr (fun e acc => acc ++ match e with EvEmbedBatch ts => ts | _ => [] end) [] evs.

(** From [w] on, the first thing that happened was the submission of the
    batch [requests]. *)
Definition submitted_first (w : World) (requests : list BatchRequest) (x : World) : Prop :=
  ∃ later, events x = later ++ EvRunBatch requests :: events w.




(** ** Sample data, for running the model *)

Module Sample.

Definition err (msg : string) : JsValue := JsObject msg None.

(** The wording of V8 for an assignment to, and a read from, a value
    that is not an object. *)
Definition kind_of (v : JsValue) : string :=
  match v with
  | JsNull => "null"
  | JsUndefined => "undefined"
  | JsObject _ _ => "object"
  | JsPrimitive _ => "string"
  end.

Definition cannot_set (v : JsValue) : string :=
  match v with
  | JsPrimitive str =>
      "Cannot create property 'batchAttempts' on string '" +:+ str +:+ "'"
  | _ => "Cannot set properties of " +:+ kind_of v +:+ " (setting 'batchAttempts')"
  end.

Definition cannot_get (v : JsValue) : string :=
  "Cannot read properties of " +:+ kind_of v +:+ " (reading 'batchAttempts')".

(** A provider that maps a text to a two-entry vector (its length, then
    1), runners that answer every request the same way, and a codec
    that writes each entry in decimal followed by a semicolon. *)
Definition embed (t : string) : vector := [Z.of_nat (String.length t); 1].

Fixpoint stringify (v : vector) : string :=
  match v with
  | [] => ""
  | x :: v' => pretty x +:+ ";" +:+ stringify v'
  end.

Fixpoint parse_go (s : string) (sign acc : Z) : vector :=
  match s with
  | EmptyString => []
  | String c s' =>
      if Ascii.eqb c ";" then (sign * acc) :: parse_go s' 1 0
      else if Ascii.eqb c "-" then parse_go s' (-1) acc
      else parse_go s' sign (10 * acc + Z.of_nat (nat_of_ascii c - 48))
  end.

Definition parse (s : string) : vector := parse_go s 1 0.

Definition env : Env := {|
  embedQuery_of := fun _ t => Ok (embed t);
  embedBatch := fun _ texts => Ok (embed <$> texts);
  runOpenAiEmbeddingBatches := fun _ _ _ requests _ =>
    Ok (ByCustomId ((fun r => (oa_custom_id r, embed (oa_body_input r))) <$> requests));
  runGeminiEmbeddingBatches := fun _ _ _ requests _ =>
    Ok (ByCustomId ((fun r => (gm_custom_id r, embed (gm_text r))) <$> requests));
  hashText := fun s => s;
  parseEmbedding := parse;
  JSON_stringify := stringify;
  clock := fun _ t => t;
  TypeError_set := cannot_set;
  TypeError_get := cannot_get
|}.

(** The same, with a provider that is rate limited whatever is asked. *)
Definition env_rate_limited : Env := {|
  embedQuery_of := embedQuery_of env;
  embedBatch := fun _ _ => Throw (err "429 too many requests");
  runOpenAiEmbeddingBatches := runOpenAiEmbeddingBatches env;
  runGeminiEmbeddingBatches := runGeminiEmbeddingBatches env;
  hashText := hashText env;
  parseEmbedding := parseEmbedding env;
  JSON_stringify := JSON_stringify env;
  clock := clock env;
  TypeError_set := TypeError_set env;
  TypeError_get := TypeError_get env
|}.


(** A provider that returns an empty vector for every text. *)
Definition env_empty_vectors : Env := {|
  embedQuery_of := embedQuery_of env;
  embedBatch := fun _ texts => Ok ((fun _ => []) <$> texts);
  runOpenAiEmbeddingBatches := runOpenAiEmbeddingBatches env;
  runGeminiEmbeddingBatches := runGeminiEmbeddingBatches env;
  hashText := hashText env;
  parseEmbedding := parseEmbedding env;
  JSON_stringify := JSON_stringify env;
  clock := clock env;
  TypeError_set := TypeError_set env;
  TypeError_get := TypeError_get env
|}.

(** Batch runners and provider both refuse, the provider for good. *)
Definition env_all_down : Env := {|
  embedQuery_of := embedQuery_of env;
  embedBatch := fun _ _ => Throw (err "401 unauthorized");
  runOpenAiEmbeddingBatches := fun _ _ _ _ _ => Throw (err "openai batch failed");
  runGeminiEmbeddingBatches := fun _ _ _ _ _ => Throw (err "gemini batch failed");
  hashText := hashText env;
  parseEmbedding := parseEmbedding env;
  JSON_stringify := JSON_stringify env;
  clock := clock env;
  TypeError_set := TypeError_set env;
  TypeError_get := TypeError_get env
|}.

Definition row (n : Z) (h e : string) (t : Z) : CacheRow :=
  {| rowid := n; row_provider := "openai"; row_model := "text-embedding-3-small";
     provider_key := "key"; row_hash := h; embedding := e; dims := Some 2;
     updated_at := t |}.

Definition service (cacheOn batchOn : bool) (failures : Z) (rows : list CacheRow)
  : EmbeddingService :=
  {| db := {| table := rows; txn := None |};
     provider := {| id := "openai"; model := "text-embedding-3-small" |};
     providerKey := "key";
     openAi := Some {| openai_model := "text-embedding-3-small" |};
     gemini := Some {| gemini_model := "gemini-embedding-001" |};
     cache := {| cache_enabled := cacheOn; maxEntries := Some 2 |};
     batch := {| enabled := batchOn; wait := true; concurrency := 2;
                 pollIntervalMs := 2000; timeoutMs := 3600000 |};
     agentId := "main";
     batchFailureCount := failures;
     batchFailureLastError := None;
     batchFailureLastProvider := None |}.

Definition world (cacheOn batchOn : bool) (failures : Z) (rows : list CacheRow) : World :=
  {| self := service cacheOn batchOn failures rows; events := []; now := 1700000000000 |}.

Definition chunk_of (t h : string) : MemoryChunk :=
  {| startLine := 1; endLine := 4; text := t; hash := h |}.

Definition file : FileEntry :=
  {| path := "memory/notes.md"; absPath := "/home/u/memory/notes.md";
     mtimeMs := 0; size := 120; file_hash := "f00d" |}.

Definition forced : BatchFailure :=
  {| fail_provider := "gemini";
     fail_message := "asyncBatchEmbedContent not available";
     fail_attempts := Some 1; forceDisable := true |}.

Definition once : BatchFailure :=
  {| fail_provider := "openai"; fail_message := "batch failed";
     fail_attempts := Some 1; forceDisable := false |}.

Definition no_faults : nat -> option JsValue := fun _ => None.

Definition fault_at (k : nat) : nat -> option JsValue :=
  fun i => if Nat.eqb i k then Some (err "disk I/O error") else None.

End Sample.

(** * More of the service: timeouts and construction *)

Definition EMBEDDING_QUERY_TIMEOUT_REMOTE_MS : Z := 60000.
Definition EMBEDDING_QUERY_TIMEOUT_LOCAL_MS : Z := 5 * 60000.
Definition EMBEDDING_BATCH_TIMEOUT_REMOTE_MS : Z := 2 * 60000.
Definition EMBEDDING_BATCH_TIMEOUT_LOCAL_MS : Z := 10 * 60000.

Inductive TimeoutKind : Type := KindQuery | KindBatch.

Definition resolveEmbeddingTimeout (s : EmbeddingService) (kind : TimeoutKind) : Z :=
  let isLocal := String.eqb (id (provider s)) "local" in
  match kind with
  | KindQuery =>
      if isLocal then EMBEDDING_QUERY_TIMEOUT_LOCAL_MS else EMBEDDING_QUERY_TIMEOUT_REMOTE_MS
  | KindBatch =>
      if isLocal then EMBEDDING_BATCH_TIMEOUT_LOCAL_MS else EMBEDDING_BATCH_TIMEOUT_REMOTE_MS
  end.

(** [Math.round(timeoutMs / 1000)] for a whole number of milliseconds:
    halves round up. *)
Definition round_seconds (timeoutMs : Z) : Z := (timeoutMs + 500) / 1000.

(** The message of the error with which [withTimeout] rejects when the
    deadline passes before the provider answers, as [embedQuery] and
    [embedBatchWithRetry] word it. *)
Definition timeout_message (kind : TimeoutKind) (timeoutMs : Z) : string :=
  "memory embeddings " +:+
  match kind with KindQuery => "query" | KindBatch => "batch" end +:+
  " timed out after " +:+ pretty (round_seconds timeoutMs) +:+ "s".

(** The constructor's argument. *)
Record EmbeddingServiceConfig : Type := {
  cfg_provider : Provider;
  cfg_providerKey : string;
  cfg_openAi : option OpenAiEmbeddingClient;
  cfg_gemini : option GeminiEmbeddingClient;
  cfg_cache : CacheConfig;
  cfg_batch : BatchConfig;
  cfg_agentId : string
}.

(** [new EmbeddingService(db, config)] *)
Definition new_EmbeddingService (d : DatabaseSync) (config : EmbeddingServiceConfig)
  : EmbeddingService :=
  {| db := d;
     provider := cfg_provider config;
     providerKey := cfg_providerKey config;
     openAi := cfg_openAi config;
     gemini := cfg_gemini config;
     cache := cfg_cache config;
     batch := cfg_batch config;
     agentId := cfg_agentId config;
     batchFailureCount := 0;
     batchFailureLastError := None;
     batchFailureLastProvider := None |}.

(** * More vocabulary *)

(** ASCII lower-casing of a string. *)
Fixpoint to_lower (s : string) : string :=
  match s with
  | EmptyString => EmptyString
  | String c s' => String (Js.lower c) (to_lower s')
  end.

(** [s] contains [p], ignoring ASCII case. *)
Definition contains_ci (p s : string) : Prop :=
  ∃ pre mid post, s = pre +:+ mid +:+ post ∧ to_lower mid = to_lower p.

(** [s] contains a [5] followed by two decimal digits. *)
Definition contains_5dd (s : string) : Prop :=
  ∃ pre b c post,
    s = pre +:+ String "5" (String b (String c post)) ∧
    Js.is_digit b = true ∧ Js.is_digit c = true.

(** The world after [k] failed attempts of [embedBatchWithRetry] on
    [texts], each followed by its wait; [delayMs] is the base delay of
    the first of them. *)
Fixpoint after_retries (texts : list string) (k : nat) (delayMs : Z) (w : World) : World :=
  match k with
  | O => w
  | S k' =>
      after_retries texts k' (delayMs * 2)
        (add_event (EvSleep delayMs) (add_event (EvEmbedBatch texts) w))
  end.

(** The base delays of the waits made so far, oldest first. *)
Definition waits (evs : list Event) : list Z :=
  foldr (fun e acc => acc ++ match e with EvSleep d => [d] | _ => [] end) [] evs.

(** No bin has room for the first chunk of the bin after it. *)
Definition no_room (bins : list (list MemoryChunk)) : Prop :=
  ∀ i b1 b2 c,
    bins !! i = Some b1 → bins !! S i = Some b2 → head b2 = Some c →
    EMBEDDING_BATCH_MAX_TOKENS < bin_tokens b1 + estimateEmbeddingTokens (text c).

(** What the packing loop keeps, besides [packing_inv]: the bins so far
    have no room to spare, and the open bin is empty only at the start or
    right after a bin that is over the budget. *)
Record greedy_inv (st : Packing) : Prop := {
  ginv_tokens : currentTokens st = bin_tokens (current st);
  ginv_bins : no_room (pack_finish st);
  ginv_closed : current st = [] →
                ∀ b, last (batches st) = Some b → EMBEDDING_BATCH_MAX_TOKENS < bin_tokens b
}.

(** A service just constructed, in a world with some history and clock. *)
Definition fresh (d : DatabaseSync) (config : EmbeddingServiceConfig)
    (evs : list Event) (t : Z) : World :=
  {| self := new_EmbeddingService d config; events := evs; now := t |}.

(** The state of the circuit breaker makes sense: the counter is not
    negative, it is below the limit while the batch API is on, and the
    last error and its provider are remembered exactly when the counter
    is not zero. *)
Definition breaker_ok (s : EmbeddingService) : Prop :=
  0 <= batchFailureCount s ∧
  (enabled (batch s) = true → batchFailureCount s < BATCH_FAILURE_LIMIT) ∧
  (batchFailureCount s = 0 →
   batchFailureLastError s = None ∧ batchFailureLastProvider s = None) ∧
  (0 < batchFailureCount s →
   is_Some (batchFailureLastError s) ∧ is_Some (batchFailureLastProvider s)).

(** A table as SQLite keeps it: no two rows share a [rowid], and no two
    share the columns of the unique constraint. *)
Definition table_ok (t : list CacheRow) : Prop :=
  NoDup (rowid <$> t) ∧ NoDup (row_key <$> t).

(** The same of a connection, and of what its open transaction would
    roll back to. *)
Definition db_ok (d : DatabaseSync) : Prop :=
  table_ok (table d) ∧ ∀ snapshot, txn d = Some snapshot → table_ok snapshot.

(** The row that [upsertEmbeddingCache] writes for an entry. *)
Definition cache_row (env : Env) (s : EmbeddingService) (t : Z) (entry : CacheEntry)
  : CacheRow :=
  {| rowid := 0;
     row_provider := id (provider s);
     row_model := model (provider s);
     provider_key := providerKey s;
     row_hash := entry_hash entry;
     embedding := JSON_stringify env (entry_embedding entry);
     dims := Some (Z.of_nat (length (entry_embedding entry)));
     updated_at := t |}.

(** Row [r'] carries the payload of row [r]. *)
Definition agrees (r r' : CacheRow) : Prop :=
  embedding r' = embedding r ∧ dims r' = dims r ∧ updated_at r' = updated_at r.

(** The table has rows under the key of [r], and they all carry its
    payload. *)
Definition settled (t : list CacheRow) (r : CacheRow) : Prop :=
  let rows := filter (same_key (row_provider r) (row_model r) (provider_key r) (row_hash r)) t in
  rows ≠ [] ∧ Forall (agrees r) rows.

(** Which way [embedChunksForFile] goes. *)
Inductive Route : Type :=
| RouteInline
| RouteOpenAi (client : OpenAiEmbeddingClient)
| RouteGemini (client : GeminiEmbeddingClient).

Definition route (s : EmbeddingService) : Route :=
  if negb (enabled (batch s)) then RouteInline
  else
    match String.eqb (id (provider s)) "openai", openAi s with
    | true, Some client => RouteOpenAi client
    | _, _ =>
        match String.eqb (id (provider s)) "gemini", gemini s with
        | true, Some client => RouteGemini client
        | _, _ => RouteInline
        end
    end.

(** The service has no batch API to go to: its provider is neither
    [openai] with an OpenAI client nor [gemini] with a Gemini client. *)
Definition no_batch_api (s : EmbeddingService) : Prop :=
  (id (provider s) ≠ "openai" ∨ openAi s = None) ∧
  (id (provider s) ≠ "gemini" ∨ gemini s = None).

(** The vector the cache has for a chunk. *)
Definition from_cache (env : Env) (s : EmbeddingService) (c : MemoryChunk) : vector :=
  default [] (cached_vector env s (hash c)).

(** The cache entry owed to a missing chunk when the provider computes
    [embed]. *)
Definition miss_entry (embed : string → vector) (m : Missing) : CacheEntry :=
  {| entry_hash := hash (chunk m); entry_embedding := embed (text (chunk m)) |}.

(** The table after the entries of the missing chunks of a file have been
    written at time [t]. *)
Definition written (env : Env) (embed : string → vector) (chunks : list MemoryChunk)
    (s : EmbeddingService) (t : Z) : list CacheRow :=
  if cache_enabled (cache s)
  then foldl (fun tb entry => upsert_row (cache_row env s t entry) tb) (table (db s))
         (miss_entry embed <$> (scan_file env s chunks).2)
  else table (db s).

(** What a table [tb] holds under hash [h] for the service's provider,
    model and provider key; [stored env s h] is this for the service's own
    table. *)
Definition stored_in (env : Env) (s : EmbeddingService) (tb : list CacheRow) (h : string)
  : option vector :=
  (fun r => parseEmbedding env (embedding r)) <$>
  last (filter (same_key (id (provider s)) (model (provider s)) (providerKey s) h) tb).

(** The table after the entries [es] have been written at time [t]. *)
Definition written_entries (env : Env) (s : EmbeddingService) (t : Z) (es : list CacheEntry)
  : list CacheRow :=
  if cache_enabled (cache s)
  then foldl (fun tb entry => upsert_row (cache_row env s t entry) tb) (table (db s)) es
  else table (db s).

(** Chunks of the file with the same hash get the same vector. *)
Definition hash_decides (embed : string → vector) (chunks : list MemoryChunk) : Prop :=
  ∀ c1 c2, c1 ∈ chunks → c2 ∈ chunks → hash c1 = hash c2 →
           embed (text c1) = embed (text c2).

(** The request builders of both batch paths keep the custom id and the
    text they are given. *)
Definition faithful_requests {R} (mk : string → MemoryChunk → R) (view : R → BatchRequest)
  : Prop :=
  (∀ cid c, custom_id (view (mk cid c)) = cid) ∧
  (∀ cid c, request_text (view (mk cid c)) = text c).

(** The string has no colon in it. *)
Fixpoint no_colon (s : string) : Prop :=
  match s with
  | EmptyString => True
  | String c s' => c ≠ ":"%char ∧ no_colon s'
  end.

(** What [customIdOf] hashes: the fields before the index, and the
    index. *)
Definition custom_id_prefix (source : MemorySource) (entry : FileEntry) (item : Missing)
  : string :=
  source_name source +:+ ":" +:+ path entry +:+ ":" +:+
  pretty (startLine (chunk item)) +:+ ":" +:+ pretty (endLine (chunk item)) +:+ ":" +:+
  hash (chunk item).

(** The write owed to the [k]-th missing chunk when the provider answered
    [vs]: a missing answer stands for the empty vector. *)
Definition answer_write (vs : list vector) (k : nat) (m : Missing) : nat * string * vector :=
  (index m, hash (chunk m), default [] (vs !! k)).

(** ** More sample data *)

Module Scenario.

(** A provider that is rate limited on its first two calls and answers
    from the third on. *)
Definition env_flaky : Env := {|
  embedQuery_of := embedQuery_of Sample.env;
  embedBatch := fun hist texts =>
    if (length (List.filter is_embed_batch hist) <? 2)%nat
    then Throw (Sample.err "429 too many requests")
    else Ok (Sample.embed <$> texts);
  runOpenAiEmbeddingBatches := runOpenAiEmbeddingBatches Sample.env;
  runGeminiEmbeddingBatches := runGeminiEmbeddingBatches Sample.env;
  hashText := hashText Sample.env;
  parseEmbedding := parseEmbedding Sample.env;
  JSON_stringify := JSON_stringify Sample.env;
  clock := clock Sample.env;
  TypeError_set := TypeError_set Sample.env;
  TypeError_get := TypeError_get Sample.env
|}.

(** A provider whose calls all run into the deadline of [withTimeout]. *)
Definition env_slow : Env := {|
  embedQuery_of := embedQuery_of Sample.env;
  embedBatch := fun _ _ =>
    Throw (Sample.err (timeout_message KindBatch EMBEDDING_BATCH_TIMEOUT_REMOTE_MS));
  runOpenAiEmbeddingBatches := runOpenAiEmbeddingBatches Sample.env;
  runGeminiEmbeddingBatches := runGeminiEmbeddingBatches Sample.env;
  hashText := hashText Sample.env;
  parseEmbedding := parseEmbedding Sample.env;
  JSON_stringify := JSON_stringify Sample.env;
  clock := clock Sample.env;
  TypeError_set := TypeError_set Sample.env;
  TypeError_get := TypeError_get Sample.env
|}.

(** A text of [n] characters. *)
Fixpoint long (n : nat) : string :=
  match n with
  | O => EmptyString
  | S n' => String "x" (long n')
  end.

(** A provider that answers its first call and refuses the others for
    good. *)
Definition env_once : Env := {|
  embedQuery_of := embedQuery_of Sample.env;
  embedBatch := fun hist texts =>
    if (length (List.filter is_embed_batch hist) <? 1)%nat
    then Ok (Sample.embed <$> texts)
    else Throw (Sample.err "401 unauthorized");
  runOpenAiEmbeddingBatches := runOpenAiEmbeddingBatches Sample.env;
  runGeminiEmbeddingBatches := runGeminiEmbeddingBatches Sample.env;
  hashText := hashText Sample.env;
  parseEmbedding := parseEmbedding Sample.env;
  JSON_stringify := JSON_stringify Sample.env;
  clock := clock Sample.env;
  TypeError_set := TypeError_set Sample.env;
  TypeError_get := TypeError_get Sample.env
|}.

(** A service on a local provider, with the batch API switched on in its
    configuration. *)
Definition local_service : EmbeddingService :=
  {| db := {| table := []; txn := None |};
     provider := {| id := "local"; model := "embeddinggemma" |};
     providerKey := "key";
     openAi := None;
     gemini := None;
     cache := {| cache_enabled := true; maxEntries := None |};
     batch := {| enabled := true; wait := true; concurrency := 2;
                 pollIntervalMs := 2000; timeoutMs := 3600000 |};
     agentId := "main";
     batchFailureCount := 0;
     batchFailureLastError := None;
     batchFailureLastProvider := None |}.

(** A provider that returns one vector, whatever it is asked. *)
Definition env_short : Env := {|
  embedQuery_of := embedQuery_of Sample.env;
  embedBatch := fun _ _ => Ok [[7; 7]];
  runOpenAiEmbeddingBatches := runOpenAiEmbeddingBatches Sample.env;
  runGeminiEmbeddingBatches := runGeminiEmbeddingBatches Sample.env;
  hashText := hashText Sample.env;
  parseEmbedding := parseEmbedding Sample.env;
  JSON_stringify := JSON_stringify Sample.env;
  clock := clock Sample.env;
  TypeError_set := TypeError_set Sample.env;
  TypeError_get := TypeError_get Sample.env
|}.

(** Batch runners that answer with a map whose entries come in the
    reverse order of the requests. *)
Definition env_reversed : Env := {|
  embedQuery_of := embedQuery_of Sample.env;
  embedBatch := embedBatch Sample.env;
  runOpenAiEmbeddingBatches := fun _ _ _ requests _ =>
    Ok (ByCustomId
          (reverse ((fun r => (oa_custom_id r, Sample.embed (oa_body_input r))) <$> requests)));
  runGeminiEmbeddingBatches := fun _ _ _ requests _ =>
    Ok (ByCustomId
          (reverse ((fun r => (gm_custom_id r, Sample.embed (gm_text r))) <$> requests)));
  hashText := hashText Sample.env;
  parseEmbedding := parseEmbedding Sample.env;
  JSON_stringify := JSON_stringify Sample.env;
  clock := fun hist t => t + Z.of_nat (length hist);
  TypeError_set := TypeError_set Sample.env;
  TypeError_get := TypeError_get Sample.env
|}.

(** Batch runners that resolve to a plain array: one vector per request,
    in the order of the requests. *)
Definition env_array : Env := {|
  embedQuery_of := embedQuery_of Sample.env;
  embedBatch := embedBatch Sample.env;
  runOpenAiEmbeddingBatches := fun _ _ _ requests _ =>
    Ok (Vectors ((fun r => Sample.embed (oa_body_input r)) <$> requests));
  runGeminiEmbeddingBatches := fun _ _ _ requests _ =>
    Ok (Vectors ((fun r => Sample.embed (gm_text r)) <$> requests));
  hashText := hashText Sample.env;
  parseEmbedding := parseEmbedding Sample.env;
  JSON_stringify := JSON_stringify Sample.env;
  clock := clock Sample.env;
  TypeError_set := TypeError_set Sample.env;
  TypeError_get := TypeError_get Sample.env
|}.

(** Batch runners whose promise is rejected with [null]. *)
Definition env_null : Env := {|
  embedQuery_of := embedQuery_of Sample.env;
  embedBatch := embedBatch Sample.env;
  runOpenAiEmbeddingBatches := fun _ _ _ _ _ => Throw JsNull;
  runGeminiEmbeddingBatches := fun _ _ _ _ _ => Throw JsNull;
  hashText := hashText Sample.env;
  parseEmbedding := parseEmbedding Sample.env;
  JSON_stringify := JSON_stringify Sample.env;
  clock := clock Sample.env;
  TypeError_set := TypeError_set Sample.env;
  TypeError_get := TypeError_get Sample.env
|}.

(** Batch runners that time out at the first attempt and are rejected
    with a string, not an [Error], at the second. *)
Definition env_string : Env := {|
  embedQuery_of := embedQuery_of Sample.env;
  embedBatch := embedBatch Sample.env;
  runOpenAiEmbeddingBatches := fun hist _ _ _ _ =>
    if (length (List.filter is_run_batch hist) <? 1)%nat
    then Throw (Sample.err "openai batch timed out")
    else Throw (JsPrimitive "boom");
  runGeminiEmbeddingBatches := fun hist _ _ _ _ =>
    if (length (List.filter is_run_batch hist) <? 1)%nat
    then Throw (Sample.err "gemini batch timed out")
    else Throw (JsPrimitive "boom");
  hashText := hashText Sample.env;
  parseEmbedding := parseEmbedding Sample.env;
  JSON_stringify := JSON_stringify Sample.env;
  clock := clock Sample.env;
  TypeError_set := TypeError_set Sample.env;
  TypeError_get := TypeError_get Sample.env
|}.

(** The configuration of the sample service. *)
Definition config : EmbeddingServiceConfig :=
  {| cfg_provider := {| id := "openai"; model := "text-embedding-3-small" |};
     cfg_providerKey := "key";
     cfg_openAi := Some {| openai_model := "text-embedding-3-small" |};
     cfg_gemini := None;
     cfg_cache := {| cache_enabled := true; maxEntries := Some 2 |};
     cfg_batch := {| enabled := true; wait := true; concurrency := 2;
                     pollIntervalMs := 2000; timeoutMs := 3600000 |};
     cfg_agentId := "main" |}.

End Scenario.

(** * Token-budget batching *)

Lemma estimateEmbeddingTokens_length t :
  estimateEmbeddingTokens t = Z.of_nat (String.length t).
Proof.
  unfold estimateEmbeddingTokens, ceil_div, EMBEDDING_APPROX_CHARS_PER_TOKEN.
  destruct t as [|a t]; [reflexivity|].
  cbn [Js.truthy]. rewrite Z.div_1_r. lia.
Qed.

Lemma estimateEmbeddingTokens_nonneg t : 0 <= estimateEmbeddingTokens t.
Proof. rewrite estimateEmbeddingTokens_length. lia. Qed.

Lemma bin_tokens_cons c bin :
  bin_tokens (c :: bin) = estimateEmbeddingTokens (text c) + bin_tokens bin.
Proof. reflexivity. Qed.

Lemma bin_tokens_nonneg bin : 0 <= bin_tokens bin.
Proof.
  induction bin as [|c bin IH]; [done|].
  rewrite bin_tokens_cons.
  pose proof (estimateEmbeddingTokens_nonneg (text c)). lia.
Qed.

Lemma bin_tokens_app b1 b2 : bin_tokens (b1 ++ b2) = bin_tokens b1 + bin_tokens b2.
Proof.
  induction b1 as [|c b1 IH]; [done|].
  rewrite <- app_comm_cons, !bin_tokens_cons, IH. lia.
Qed.

Lemma bin_tokens_elem bin c : c ∈ bin → estimateEmbeddingTokens (text c) <= bin_tokens bin.
Proof.
  induction 1 as [c bin|c d bin _ IH]; rewrite bin_tokens_cons.
  - pose proof (bin_tokens_nonneg bin). lia.
  - pose proof (estimateEmbeddingTokens_nonneg (text d)). lia.
Qed.

Lemma length_zero_iff_nil {A} (l : list A) : Nat.eqb (length l) 0 = true ↔ l = [].
Proof. destruct l; cbn; split; intros; congruence. Qed.

Lemma pack_step_inv seen st c :
  packing_inv seen st → packing_inv (seen ++ [c]) (pack_step st c).
Proof.
  intros [Hcat Htok Hbud Hcl]. unfold pack_step.
  set (estimate := estimateEmbeddingTokens (text c)).
  assert (Hest : 0 <= estimate) by apply estimateEmbeddingTokens_nonneg.
  assert (Hone : bin_tokens [c] = estimate).
  { rewrite bin_tokens_cons. fold estimate. cbn. lia. }
  assert (Hmax : 0 <= EMBEDDING_BATCH_MAX_TOKENS) by (unfold EMBEDDING_BATCH_MAX_TOKENS; lia).
  destruct (Nat.eqb (length (current st)) 0) eqn:Hempty; cbn [negb andb].
  - (* the open bin is empty *)
    rewrite Hempty. cbn [andb]. apply length_zero_iff_nil in Hempty.
    rewrite Hempty in Hcat, Htok. rewrite app_nil_r in Hcat.
    destruct (Z.ltb_spec EMBEDDING_BATCH_MAX_TOKENS estimate) as [Hbig|Hsmall].
    + split; cbn [batches current currentTokens].
      * by rewrite Hempty, concat_app, app_nil_r, Hcat.
      * by rewrite Hempty.
      * by rewrite Hempty.
      * apply Forall_app; split; [done|]. constructor; [|constructor].
        split; [done|]. right. by exists c.
    + split; cbn [batches current currentTokens].
      * by rewrite Hempty, Hcat.
      * rewrite Hempty, Htok. cbn [app]. rewrite Hone. cbn. lia.
      * rewrite Hempty. cbn [app]. rewrite Hone. lia.
      * done.
  - (* the open bin has chunks *)
    assert (Hne : current st ≠ []).
    { intros Hnil. apply length_zero_iff_nil in Hnil. congruence. }
    destruct (Z.ltb_spec EMBEDDING_BATCH_MAX_TOKENS (currentTokens st + estimate)) as [Hover|Hfits].
    + cbn [current batches currentTokens length Nat.eqb andb].
      assert (Hclosed' : Forall (fun bin => bin ≠ [] ∧ bin_ok bin) (batches st ++ [current st])).
      { apply Forall_app; split; [done|]. constructor; [|constructor].
        split; [done|]. by left. }
      destruct (Z.ltb_spec EMBEDDING_BATCH_MAX_TOKENS estimate) as [Hbig|Hsmall].
      * split; cbn [batches current currentTokens].
        -- rewrite !concat_app. cbn. rewrite !app_nil_r, <- Hcat.
           by rewrite <- !app_assoc.
        -- done.
        -- done.
        -- apply Forall_app; split; [done|]. constructor; [|constructor].
           split; [done|]. right. by exists c.
      * split; cbn [batches current currentTokens].
        -- rewrite concat_app. cbn. rewrite app_nil_r, <- Hcat.
           by rewrite <- !app_assoc.
        -- cbn [app]. rewrite Hone. lia.
        -- cbn [app]. rewrite Hone. lia.
        -- done.
    + rewrite Hempty. cbn [andb].
      split; cbn [batches current currentTokens].
      * rewrite <- Hcat. by rewrite <- !app_assoc.
      * rewrite bin_tokens_app, Hone. lia.
      * rewrite bin_tokens_app, Hone. lia.
      * done.
Qed.

Lemma pack_fold_inv chunks seen st :
  packing_inv seen st → packing_inv (seen ++ chunks) (fold_left pack_step chunks st).
Proof.
  revert seen st. induction chunks as [|c chunks IH]; intros seen st Hinv; cbn.
  - by rewrite app_nil_r.
  - replace (seen ++ c :: chunks) with ((seen ++ [c]) ++ chunks) by by rewrite <- app_assoc.
    apply IH. by apply pack_step_inv.
Qed.

Lemma pack_finish_spec seen st :
  packing_inv seen st →
  concat (pack_finish st) = seen ∧ Forall (fun bin => bin ≠ [] ∧ bin_ok bin) (pack_finish st).
Proof.
  intros [Hcat Htok Hbud Hcl]. unfold pack_finish.
  destruct (current st) as [|c0 cur] eqn:Hcur; cbn.
  - rewrite app_nil_r in Hcat. done.
  - split.
    + rewrite concat_app. cbn. by rewrite app_nil_r.
    + apply Forall_app; split; [done|]. constructor; [|constructor].
      split; [done|]. by left.
Qed.

Lemma buildEmbeddingBatches_spec chunks :
  concat (buildEmbeddingBatches chunks) = chunks ∧
  Forall (fun bin => bin ≠ [] ∧ bin_ok bin) (buildEmbeddingBatches chunks).
Proof.
  unfold buildEmbeddingBatches.
  apply (pack_finish_spec chunks).
  apply (pack_fold_inv chunks []).
  split; cbn; done.
Qed.

(** C4. [buildEmbeddingBatches] cuts the input into consecutive bins:
    their concatenation is the input, in order; every bin's summed token
    estimate is at most [EMBEDDING_BATCH_MAX_TOKENS] (8000), unless the bin
    is a single chunk whose own estimate exceeds it; and a chunk whose own
    estimate exceeds the maximum is alone in its bin. *)
Theorem buildEmbeddingBatches_packing (chunks : list MemoryChunk) :
  EMBEDDING_BATCH_MAX_TOKENS = 8000 ∧
  concat (buildEmbeddingBatches chunks) = chunks ∧
  (∀ bin, bin ∈ buildEmbeddingBatches chunks →
     bin_tokens bin <= EMBEDDING_BATCH_MAX_TOKENS ∨
     ∃ c, bin = [c] ∧ EMBEDDING_BATCH_MAX_TOKENS < estimateEmbeddingTokens (text c)) ∧
  (∀ bin c, bin ∈ buildEmbeddingBatches chunks → c ∈ bin →
     EMBEDDING_BATCH_MAX_TOKENS < estimateEmbeddingTokens (text c) → bin = [c]).
Proof.
  destruct (buildEmbeddingBatches_spec chunks) as [Hcat Hall].
  rewrite Forall_forall in Hall.
  split; [reflexivity|]. split; [exact Hcat|]. split.
  - intros bin Hin. apply (Hall bin Hin).
  - intros bin c Hin Hc Hbig.
    destruct (Hall bin Hin) as [_ [Hle|(c' & -> & _)]].
    + pose proof (bin_tokens_elem bin c Hc). lia.
    + apply list_elem_of_singleton in Hc. by subst.
Qed.

(** * The monad, and what an operation leaves alone *)

Lemma bind_ok {A B} (m : M A) (k : A -> M B) w a w' :
  m w = (Ok a, w') → bind m k w = k a w'.
Proof. unfold bind. by intros ->. Qed.

Lemma bind_throw {A B} (m : M A) (k : A -> M B) w e w' :
  m w = (Throw e, w') → bind m k w = (Throw e, w').
Proof. unfold bind. by intros ->. Qed.

Lemma bind_inv_ok {A B} (m : M A) (k : A -> M B) w b w' :
  bind m k w = (Ok b, w') → ∃ a w1, m w = (Ok a, w1) ∧ k a w1 = (Ok b, w').
Proof.
  unfold bind. destruct (m w) as [[a|e] w1]; [eauto|congruence].
Qed.

Lemma bind_inv_throw {A B} (m : M A) (k : A -> M B) w e w' :
  bind m k w = (Throw e, w') →
  m w = (Throw e, w') ∨ ∃ a w1, m w = (Ok a, w1) ∧ k a w1 = (Throw e, w').
Proof.
  unfold bind. destruct (m w) as [[a|e1] w1]; [eauto|]. intros [= -> ->]. by left.
Qed.

Section Preserves.
Context (P : World → Prop).

Lemma preserves_ret {A} (a : A) : preserves P (ret a).
Proof. by intros w. Qed.

Lemma preserves_throw {A} e : preserves P (@throw A e).
Proof. by intros w. Qed.

Lemma preserves_bind {A B} (m : M A) (k : A → M B) :
  preserves P m → (∀ a, preserves P (k a)) → preserves P (bind m k).
Proof.
  intros Hm Hk w Hw. unfold bind. specialize (Hm w Hw).
  destruct (m w) as [[a|e] w1]; cbn in *; [by apply Hk|done].
Qed.

Lemma preserves_try_catch {A} (m : M A) (h : JsValue → M A) :
  preserves P m → (∀ e, preserves P (h e)) → preserves P (try_catch m h).
Proof.
  intros Hm Hh w Hw. unfold try_catch. specialize (Hm w Hw).
  destruct (m w) as [[a|e] w1]; cbn in *; [done|by apply Hh].
Qed.

Lemma preserves_lift {A} (r : Res A) : preserves P (lift r).
Proof. by intros w. Qed.

Lemma preserves_get_self : preserves P get_self.
Proof. by intros w. Qed.

Lemma preserves_Date_now env : preserves P (Date_now env).
Proof. by intros w. Qed.

Lemma preserves_if {A} (b : bool) (m1 m2 : M A) :
  preserves P m1 → preserves P m2 → preserves P (if b then m1 else m2).
Proof. by destruct b. Qed.

(** ** Operations that touch only the database and the provider *)

Hypothesis P_db : ∀ w d,
  P w → P {| self := set_db d (self w); events := events w; now := now w |}.
Hypothesis P_event : ∀ w e,
  is_run_batch e = false →
  P w → P {| self := self w; events := e :: events w; now := now w |}.

Lemma preserves_upsertEmbeddingCache env entries :
  preserves P (upsertEmbeddingCache env entries).
Proof.
  unfold upsertEmbeddingCache.
  apply preserves_bind; [apply preserves_get_self|intros s].
  repeat (apply preserves_if; [apply preserves_ret|]).
  apply preserves_bind; [apply preserves_Date_now|intros t].
  intros w Hw. by apply P_db.
Qed.

Lemma preserves_retry_loop env texts fuel attempt delayMs :
  preserves P (retry_loop env texts fuel attempt delayMs).
Proof.
  revert attempt delayMs. induction fuel as [|fuel IH]; intros attempt delayMs.
  - apply preserves_throw.
  - cbn [retry_loop]. apply preserves_try_catch.
    + intros w Hw. by apply P_event.
    + intros err. apply preserves_if; [apply preserves_throw|].
      apply preserves_bind; [|intros _; apply IH].
      intros w Hw. by apply P_event.
Qed.

Lemma preserves_embedBatchWithRetry env texts :
  preserves P (embedBatchWithRetry env texts).
Proof.
  unfold embedBatchWithRetry.
  apply preserves_if; [apply preserves_ret|apply preserves_retry_loop].
Qed.

Lemma preserves_embed_bins env missing bins st :
  preserves P (embed_bins env missing bins st).
Proof.
  revert st. induction bins as [|bin bins IH]; intros st; cbn [embed_bins].
  - apply preserves_ret.
  - apply preserves_bind; [apply preserves_embedBatchWithRetry|intros vs].
    destruct (fill_batch _ _ _ _ _ _ _). apply IH.
Qed.

Lemma preserves_embedChunksInBatches env chunks :
  preserves P (embedChunksInBatches env chunks).
Proof.
  unfold embedChunksInBatches.
  apply preserves_if; [apply preserves_ret|].
  apply preserves_bind; [apply preserves_get_self|intros s].
  destruct (scan_chunks _ _ _ _ _) as [embeddings missing].
  apply preserves_if; [apply preserves_ret|].
  apply preserves_bind; [apply preserves_embed_bins|intros st].
  apply preserves_bind; [apply preserves_upsertEmbeddingCache|intros _].
  apply preserves_ret.
Qed.

Lemma preserves_embedQuery env t : preserves P (embedQuery env t).
Proof. intros w Hw. by apply P_event. Qed.

Lemma preserves_prune : preserves P pruneEmbeddingCacheIfNeeded.
Proof.
  unfold pruneEmbeddingCacheIfNeeded.
  apply preserves_bind; [apply preserves_get_self|intros s].
  apply preserves_if; [apply preserves_ret|].
  destruct (maxEntries (cache s)) as [max|]; [|apply preserves_ret].
  repeat (apply preserves_if; [apply preserves_ret|]).
  intros w Hw. by apply P_db.
Qed.

Lemma preserves_sql fault stmt : preserves P (sql fault stmt).
Proof.
  intros w Hw. unfold sql. destruct fault; [done|].
  destruct (stmt _); [by apply P_db|done].
Qed.

Lemma preserves_seed_rows faults k rows : preserves P (seed_rows faults k rows).
Proof.
  revert k. induction rows as [|row rows IH]; intros k; cbn [seed_rows].
  - apply preserves_ret.
  - apply preserves_bind; [apply preserves_sql|intros _; apply IH].
Qed.

Lemma preserves_seedEmbeddingCache faults sourceDb :
  preserves P (seedEmbeddingCache faults sourceDb).
Proof.
  unfold seedEmbeddingCache.
  apply preserves_bind; [apply preserves_get_self|intros s].
  apply preserves_if; [apply preserves_ret|].
  apply preserves_try_catch.
  - apply preserves_bind; [apply preserves_sql|intros _].
    apply preserves_if; [apply preserves_ret|].
    apply preserves_bind; [apply preserves_sql|intros _].
    apply preserves_bind; [apply preserves_sql|intros _].
    apply preserves_bind; [apply preserves_seed_rows|intros _].
    apply preserves_sql.
  - intros err. apply preserves_bind; [|intros _; apply preserves_throw].
    apply preserves_try_catch; [apply preserves_sql|intros _; apply preserves_ret].
Qed.

(** ** Operations of the circuit breaker *)

Hypothesis P_failure : ∀ w c e p,
  P w → P {| self := set_failure c e p (self w); events := events w; now := now w |}.
Hypothesis P_disable : ∀ w,
  P w → P {| self := set_batch_enabled false (self w); events := events w; now := now w |}.

Lemma preserves_resetBatchFailureCount : preserves P resetBatchFailureCount.
Proof. intros w Hw. by apply P_failure. Qed.

Lemma preserves_recordBatchFailure params : preserves P (recordBatchFailure params).
Proof.
  unfold recordBatchFailure, withBatchFailureLock.
  apply preserves_bind; [apply preserves_get_self|intros s].
  apply preserves_if; [apply preserves_ret|].
  apply preserves_bind; [intros w Hw; by apply P_failure|intros _].
  apply preserves_bind; [apply preserves_get_self|intros s1].
  apply preserves_bind.
  - apply preserves_if; [|apply preserves_ret]. intros w Hw. by apply P_disable.
  - intros _. apply preserves_bind; [apply preserves_get_self|intros s2].
    apply preserves_ret.
Qed.

End Preserves.

(** * The circuit breaker *)

Lemma recordBatchFailure_disabled params w :
  enabled (batch (self w)) = false →
  recordBatchFailure params w
  = (Ok {| disabled := true; count := batchFailureCount (self w) |}, w).
Proof.
  intros Hoff. unfold recordBatchFailure, withBatchFailureLock, bind, get_self.
  by rewrite Hoff.
Qed.

Lemma recordBatchFailure_enabled params w :
  enabled (batch (self w)) = true →
  let total := batchFailureCount (self w) + failure_increment params in
  let off := forceDisable params || (BATCH_FAILURE_LIMIT <=? total) in
  let recorded :=
    set_failure total (Some (fail_message params)) (Some (fail_provider params)) (self w) in
  recordBatchFailure params w
  = (Ok {| disabled := off; count := total |},
     {| self := if off then set_batch_enabled false recorded else recorded;
        events := events w; now := now w |}).
Proof.
  intros Hon. unfold recordBatchFailure, withBatchFailureLock, bind, get_self, modify_self.
  rewrite Hon. cbn -[Z.leb Z.add Z.max]. fold (failure_increment params).
  by destruct (forceDisable params || _).
Qed.

Lemma failure_increment_pos params : 1 <= failure_increment params.
Proof.
  unfold failure_increment, BATCH_FAILURE_LIMIT. destruct (forceDisable params); lia.
Qed.

(** C2, as the code has it.  With [forceDisable] set and the batch API
    still on, [recordBatchFailure] adds the limit to the failure counter
    (it does not set it to the limit), and switches the batch API off;
    [getBatchStatus] then reports [enabled = false] and, the counter never
    being negative, [failures] at least [limit].  If the batch API was
    off already the call changes nothing. *)
Theorem recordBatchFailure_forceDisable (params : BatchFailure) (w : World) :
  forceDisable params = true →
  0 <= batchFailureCount (self w) →
  let w' := snd (recordBatchFailure params w) in
  st_enabled (getBatchStatus (self w')) = false ∧
  (enabled (batch (self w)) = true →
     batchFailureCount (self w') = batchFailureCount (self w) + BATCH_FAILURE_LIMIT ∧
     st_limit (getBatchStatus (self w')) <= st_failures (getBatchStatus (self w')) ∧
     fst (recordBatchFailure params w)
     = Ok {| disabled := true;
             count := batchFailureCount (self w) + BATCH_FAILURE_LIMIT |}) ∧
  (enabled (batch (self w)) = false → w' = w).
Proof.
  intros Hforce Hnonneg.
  destruct (enabled (batch (self w))) eqn:Hon.
  - rewrite (recordBatchFailure_enabled params w Hon).
    unfold failure_increment. rewrite Hforce. cbn -[Z.add].
    repeat split; try done. unfold BATCH_FAILURE_LIMIT. lia.
  - rewrite (recordBatchFailure_disabled params w Hon). cbn.
    repeat split; done.
Qed.

Lemma recordBatchFailure_forceDisable_witness :
  let w := Sample.world true true 1 [] in
  let w' := snd (recordBatchFailure Sample.forced w) in
  st_enabled (getBatchStatus (self w')) = false ∧
  batchFailureCount (self w') = 3 ∧
  st_limit (getBatchStatus (self w')) <= st_failures (getBatchStatus (self w')).
Proof.
  pose proof (recordBatchFailure_forceDisable Sample.forced (Sample.world true true 1 []))
    as H.
  destruct H as (Hoff & Hon & _); [reflexivity|vm_compute; discriminate|].
  destruct Hon as (Hcount & Hlimit & _); [reflexivity|].
  split; [exact Hoff|]. split; [exact Hcount|exact Hlimit].
Defined.

(** The claim as written fails after one ordinary failure: the counter
    ends at 3, not at the limit 2. *)
Lemma recordBatchFailure_forceDisable_overshoots :
  let w := snd (recordBatchFailure Sample.once (Sample.world true true 0 [])) in
  enabled (batch (self w)) = true ∧
  batchFailureCount (self w) = 1 ∧
  forceDisable Sample.forced = true ∧
  batchFailureCount (self (snd (recordBatchFailure Sample.forced w))) = 3 ∧
  batchFailureCount (self (snd (recordBatchFailure Sample.forced w))) ≠ BATCH_FAILURE_LIMIT.
Proof. vm_compute. repeat split; discriminate. Qed.

(** ** Once off, always off *)

Lemma batch_off_db k w d :
  batch_off k w → batch_off k {| self := set_db d (self w); events := events w; now := now w |}.
Proof. by intros [??]. Qed.

Lemma batch_off_event k w e :
  is_run_batch e = false →
  batch_off k w → batch_off k {| self := self w; events := e :: events w; now := now w |}.
Proof.
  intros He [Hoff Hk]. split; [done|].
  unfold batch_submissions in *. cbn. by rewrite He.
Qed.

Lemma batch_off_failure k w c e p :
  batch_off k w →
  batch_off k {| self := set_failure c e p (self w); events := events w; now := now w |}.
Proof. by intros [??]. Qed.

Lemma batch_off_disable k w :
  batch_off k w →
  batch_off k {| self := set_batch_enabled false (self w); events := events w; now := now w |}.
Proof. by intros [??]. Qed.

Lemma embedChunksForFile_disabled env chunks entry source w :
  enabled (batch (self w)) = false →
  embedChunksForFile env chunks entry source w = embedChunksInBatches env chunks w.
Proof.
  intros Hoff. unfold embedChunksForFile, bind, get_self. by rewrite Hoff.
Qed.

Lemma perform_batch_off env k c w : batch_off k w → batch_off k (perform env c w).
Proof.
  intros Hw. destruct c; cbn [perform].
  - by apply preserves_embedQuery; [apply batch_off_event|].
  - rewrite embedChunksForFile_disabled by apply Hw.
    by apply preserves_embedChunksInBatches; [apply batch_off_db|apply batch_off_event|].
  - by apply preserves_embedChunksInBatches; [apply batch_off_db|apply batch_off_event|].
  - by apply preserves_prune; [apply batch_off_db|].
  - by apply preserves_seedEmbeddingCache; [apply batch_off_db|].
  - by apply preserves_recordBatchFailure; [apply batch_off_failure|apply batch_off_disable|].
  - by apply preserves_resetBatchFailureCount; [apply batch_off_failure|].
  - done.
Qed.

Lemma perform_all_batch_off env k cs w :
  batch_off k w → batch_off k (perform_all env cs w).
Proof.
  revert w. induction cs as [|c cs IH]; intros w Hw; [done|].
  apply IH. by apply perform_batch_off.
Qed.

(** C5. The batch-enabled flag only ever goes from on to off.
    [recordBatchFailure] leaves it off as soon as the recorded failures
    reach [BATCH_FAILURE_LIMIT] (2) or the failure forces it; and from a
    service whose flag is off, whatever calls follow, the flag stays off,
    [embedChunksForFile] is the inline path [embedChunksInBatches], and no
    batch is ever submitted again. *)
Theorem batch_disabled_is_permanent (env : Env) :
  BATCH_FAILURE_LIMIT = 2 ∧
  (∀ params w,
     let w' := snd (recordBatchFailure params w) in
     forceDisable params = true ∨
     (enabled (batch (self w)) = true ∧
      BATCH_FAILURE_LIMIT <= batchFailureCount (self w')) →
     enabled (batch (self w')) = false) ∧
  (∀ (calls : list Call) (w : World),
     enabled (batch (self w)) = false →
     let w' := perform_all env calls w in
     enabled (batch (self w')) = false ∧
     batch_submissions w' = batch_submissions w ∧
     ∀ chunks entry source,
       embedChunksForFile env chunks entry source w'
       = embedChunksInBatches env chunks w' ∧
       batch_submissions (snd (embedChunksForFile env chunks entry source w'))
       = batch_submissions w).
Proof.
  split; [reflexivity|]. split.
  - intros params w w' Hreach. subst w'.
    destruct (enabled (batch (self w))) eqn:Hon.
    + rewrite (recordBatchFailure_enabled params w Hon) in *.
      cbn -[Z.leb Z.add] in *.
      destruct Hreach as [->|[_ Hlimit]]; [done|].
      destruct (forceDisable params); [done|].
      cbn -[Z.leb Z.add] in *.
      destruct (Z.leb_spec BATCH_FAILURE_LIMIT
                  (batchFailureCount (self w) + failure_increment params)) as [Hle|Hlt].
      * done.
      * cbn in Hlimit. lia.
    + by rewrite (recordBatchFailure_disabled params w Hon).
  - intros calls w Hoff w'.
    assert (Hw' : batch_off (batch_submissions w) w').
    { by apply perform_all_batch_off. }
    destruct Hw' as [Hoff' Hk]. split; [done|]. split; [done|].
    intros chunks entry source. split; [by apply embedChunksForFile_disabled|].
    pose proof (perform_batch_off env (batch_submissions w)
                  (CallEmbedChunksForFile chunks entry source) w' (conj Hoff' Hk)) as [_ H].
    exact H.
Qed.

Lemma batch_disabled_is_permanent_witness :
  let w0 := Sample.world true true 1 [] in
  let w1 := snd (recordBatchFailure Sample.once w0) in
  let calls :=
    [CallEmbedChunksForFile [Sample.chunk_of "alpha" "h1"] Sample.file SrcMemory;
     CallResetBatchFailureCount;
     CallEmbedChunksForFile [Sample.chunk_of "beta" "h2"] Sample.file SrcSessions] in
  enabled (batch (self w1)) = false ∧
  enabled (batch (self (perform_all Sample.env calls w1))) = false ∧
  batch_submissions (perform_all Sample.env calls w1) = 0%nat.
Proof.
  destruct (batch_disabled_is_permanent Sample.env) as (_ & Hrec & Hlife).
  split.
  - apply (Hrec Sample.once (Sample.world true true 1 [])).
    right. split; [reflexivity|]. vm_compute. discriminate.
  - destruct (Hlife
      [CallEmbedChunksForFile [Sample.chunk_of "alpha" "h1"] Sample.file SrcMemory;
       CallResetBatchFailureCount;
       CallEmbedChunksForFile [Sample.chunk_of "beta" "h2"] Sample.file SrcSessions]
      (snd (recordBatchFailure Sample.once (Sample.world true true 1 []))))
      as (Hoff & Hsub & _); [reflexivity|].
    split; [exact Hoff|exact Hsub].
Defined.

(** * Batch failures fall back to the inline path *)

Lemma bind_fallback (fallback : M (list vector)) w :
  bind fallback (fun r => ret (Vectors r)) w = as_fallback (fallback w).
Proof. unfold bind, as_fallback, ret. by destruct (fallback w) as [[r|e] w']. Qed.

Lemma runBatchWithFallback_disabled env name run fallback w :
  enabled (batch (self w)) = false →
  runBatchWithFallback env name run fallback w = as_fallback (fallback w).
Proof.
  intros Hoff. unfold runBatchWithFallback.
  unfold bind at 1. unfold get_self. rewrite Hoff. cbn [negb]. apply bind_fallback.
Qed.

Lemma recordBatchFailure_returns params w :
  ∃ r, recordBatchFailure params w = (Ok r, snd (recordBatchFailure params w)).
Proof.
  destruct (enabled (batch (self w))) eqn:Hon.
  - rewrite (recordBatchFailure_enabled params w Hon). eauto.
  - rewrite (recordBatchFailure_disabled params w Hon). eauto.
Qed.

(** Reading [batchAttempts] off a thrown value. *)
Lemma get_batchAttempts_ok env err :
  nullish err = false → get_batchAttempts env err = Ok (tag_of err).
Proof. by destruct err. Qed.

Lemma get_batchAttempts_nullish env err :
  nullish err = true →
  get_batchAttempts env err = Throw (JsObject (TypeError_get env err) None).
Proof. by destruct err. Qed.

Lemma retry_error_object env err : nullish (retry_error env err) = false.
Proof. by destruct err. Qed.

Lemma runBatchWithFallback_failure env name run fallback w err w1 :
  enabled (batch (self w)) = true →
  runBatchWithTimeoutRetry env name run w = (Throw err, w1) →
  nullish err = false →
  runBatchWithFallback env name run fallback w
  = as_fallback (fallback (snd (recordBatchFailure (failure_of name err) w1))).
Proof.
  intros Hon Hrun Hobj. unfold runBatchWithFallback.
  unfold bind at 1. unfold get_self. rewrite Hon. cbn [negb].
  unfold try_catch at 1. rewrite (bind_throw _ _ _ _ _ Hrun).
  unfold bind at 1. unfold lift. rewrite (get_batchAttempts_ok env err Hobj).
  fold (failure_of name err).
  destruct (recordBatchFailure_returns (failure_of name err) w1) as [r Hr].
  rewrite (bind_ok _ _ _ _ _ Hr). apply bind_fallback.
Qed.

(** On [null] and [undefined] the [catch] block itself throws, before
    anything is recorded and before the fallback is called. *)
Lemma runBatchWithFallback_nullish env name run fallback w err w1 :
  enabled (batch (self w)) = true →
  runBatchWithTimeoutRetry env name run w = (Throw err, w1) →
  nullish err = true →
  runBatchWithFallback env name run fallback w
  = (Throw (JsObject (TypeError_get env err) None), w1).
Proof.
  intros Hon Hrun Hnull. unfold runBatchWithFallback.
  unfold bind at 1. unfold get_self. rewrite Hon. cbn [negb].
  unfold try_catch at 1. rewrite (bind_throw _ _ _ _ _ Hrun).
  unfold bind at 1. unfold lift. by rewrite (get_batchAttempts_nullish env err Hnull).
Qed.

Lemma runBatchWithFallback_success env name run fallback w result w1 :
  enabled (batch (self w)) = true →
  runBatchWithTimeoutRetry env name run w = (Ok result, w1) →
  runBatchWithFallback env name run fallback w
  = (Ok result,
     {| self := set_failure 0 None None (self w1); events := events w1; now := now w1 |}).
Proof.
  intros Hon Hrun. unfold runBatchWithFallback.
  unfold bind at 1. unfold get_self. rewrite Hon. cbn [negb].
  unfold try_catch at 1. by rewrite (bind_ok _ _ _ _ _ Hrun).
Qed.

Lemma runBatchWithTimeoutRetry_once {T} env name (run : M T) w e1 w1 :
  run w = (Throw e1, w1) →
  isBatchTimeoutError (message e1) = false →
  runBatchWithTimeoutRetry env name run w = (Throw e1, w1).
Proof.
  intros H1 Ht. unfold runBatchWithTimeoutRetry, try_catch. by rewrite H1, Ht.
Qed.

Lemma runBatchWithTimeoutRetry_timeout_twice {T} env name (run : M T) w e1 w1 e2 w2 :
  run w = (Throw e1, w1) →
  isBatchTimeoutError (message e1) = true →
  run w1 = (Throw e2, w2) →
  runBatchWithTimeoutRetry env name run w = (Throw (retry_error env e2), w2).
Proof.
  intros H1 Ht H2. unfold runBatchWithTimeoutRetry, try_catch.
  rewrite H1, Ht, H2. by destruct e2.
Qed.





Lemma upsertEmbeddingCache_returns env entries w :
  upsertEmbeddingCache env entries w = (Ok tt, snd (upsertEmbeddingCache env entries w)).
Proof.
  unfold upsertEmbeddingCache, bind, get_self, Date_now, modify_self, ret.
  destruct (negb _); [done|]. by destruct (Nat.eqb _ _).
Qed.



(** * The retry loop *)

Lemma provider_calls_embed texts w :
  provider_calls (add_event (EvEmbedBatch texts) w) = S (provider_calls w).
Proof. reflexivity. Qed.

Lemma provider_calls_sleep d w :
  provider_calls (add_event (EvSleep d) w) = provider_calls w.
Proof. reflexivity. Qed.

(** One turn of the loop, by the provider's answer. *)
Lemma retry_loop_ok env texts fuel attempt delayMs w vs :
  embedBatch env (events w) texts = Ok vs →
  retry_loop env texts (S fuel) attempt delayMs w
  = (Ok vs, add_event (EvEmbedBatch texts) w).
Proof. intros H. cbn [retry_loop]. unfold try_catch, ask. by rewrite H. Qed.

Lemma retry_loop_give_up env texts fuel attempt delayMs w err :
  embedBatch env (events w) texts = Throw err →
  isRetryableEmbeddingError (message err) = false ∨ EMBEDDING_RETRY_MAX_ATTEMPTS <= attempt →
  retry_loop env texts (S fuel) attempt delayMs w
  = (Throw err, add_event (EvEmbedBatch texts) w).
Proof.
  intros H Hstop. cbn [retry_loop]. unfold try_catch, ask. rewrite H.
  destruct Hstop as [->|Hmax]; [done|].
  destruct (Z.leb_spec EMBEDDING_RETRY_MAX_ATTEMPTS attempt); [|lia].
  by rewrite orb_true_r.
Qed.

Lemma retry_loop_again env texts fuel attempt delayMs w err :
  embedBatch env (events w) texts = Throw err →
  isRetryableEmbeddingError (message err) = true →
  attempt < EMBEDDING_RETRY_MAX_ATTEMPTS →
  retry_loop env texts (S fuel) attempt delayMs w
  = retry_loop env texts fuel (attempt + 1) (delayMs * 2)
      (add_event (EvSleep delayMs) (add_event (EvEmbedBatch texts) w)).
Proof.
  intros H Hretry Hlt. cbn [retry_loop]. unfold try_catch, ask. rewrite H, Hretry.
  destruct (Z.leb_spec EMBEDDING_RETRY_MAX_ATTEMPTS attempt); [lia|].
  reflexivity.
Qed.

(** The loop never runs out of turns: with [attempt] retries behind it,
    [4 - attempt] turns are enough, and more change nothing. *)
Lemma retry_loop_fuel env texts fuel extra attempt delayMs w :
  Z.max 0 (EMBEDDING_RETRY_MAX_ATTEMPTS - attempt) < Z.of_nat fuel →
  retry_loop env texts (fuel + extra) attempt delayMs w
  = retry_loop env texts fuel attempt delayMs w.
Proof.
  revert attempt delayMs w. induction fuel as [|fuel IH]; intros attempt delayMs w Hfuel.
  - lia.
  - change (S fuel + extra)%nat with (S (fuel + extra)).
    destruct (embedBatch env (events w) texts) as [vs|err] eqn:Hanswer.
    + by rewrite !(retry_loop_ok _ _ _ _ _ _ _ Hanswer).
    + destruct (isRetryableEmbeddingError (message err)) eqn:Hretry.
      * destruct (Z.le_gt_cases EMBEDDING_RETRY_MAX_ATTEMPTS attempt) as [Hmax|Hlt].
        -- by rewrite !(retry_loop_give_up _ _ _ _ _ _ _ Hanswer (or_intror Hmax)).
        -- rewrite !(retry_loop_again _ _ _ _ _ _ _ Hanswer Hretry) by lia.
           apply IH; lia.
      * by rewrite !(retry_loop_give_up _ _ _ _ _ _ _ Hanswer (or_introl Hretry)).
Qed.

Lemma retry_loop_calls env texts fuel attempt delayMs w :
  (provider_calls (snd (retry_loop env texts fuel attempt delayMs w))
   <= provider_calls w + fuel)%nat.
Proof.
  revert attempt delayMs w. induction fuel as [|fuel IH]; intros attempt delayMs w.
  - cbn. lia.
  - destruct (embedBatch env (events w) texts) as [vs|err] eqn:Hanswer.
    + rewrite (retry_loop_ok _ _ _ _ _ _ _ Hanswer). cbn [snd].
      rewrite provider_calls_embed. lia.
    + destruct (isRetryableEmbeddingError (message err)) eqn:Hretry.
      * destruct (Z.le_gt_cases EMBEDDING_RETRY_MAX_ATTEMPTS attempt) as [Hmax|Hlt].
        -- rewrite (retry_loop_give_up _ _ _ _ _ _ _ Hanswer (or_intror Hmax)). cbn [snd].
           rewrite provider_calls_embed. lia.
        -- rewrite (retry_loop_again _ _ _ _ _ _ _ Hanswer Hretry) by lia.
           etrans; [apply IH|].
           rewrite provider_calls_sleep, provider_calls_embed. lia.
      * rewrite (retry_loop_give_up _ _ _ _ _ _ _ Hanswer (or_introl Hretry)). cbn [snd].
        rewrite provider_calls_embed. lia.
Qed.

Lemma embedBatchWithRetry_nonempty env texts w :
  texts ≠ [] →
  embedBatchWithRetry env texts w
  = retry_loop env texts RETRY_FUEL 0 EMBEDDING_RETRY_BASE_DELAY_MS w.
Proof. intros Hne. unfold embedBatchWithRetry. by destruct texts. Qed.

(** C3, as the code runs.  For a non-empty batch of texts, under the
    constants 3, 500 ms and 8000 ms:
    - the provider is invoked at most 4 times (one call and up to
      [EMBEDDING_RETRY_MAX_ATTEMPTS] = 3 retries);
    - an error that is not retryable is rethrown after the first call,
      with no wait and no retry;
    - when every invocation fails with a retryable error the provider is
      invoked exactly 4 times, with waits of base 500, 1000 and 2000 ms in
      between, and the fourth error is rethrown. *)
Theorem embedBatchWithRetry_invocations (env : Env) (texts : list string) (w : World) :
  texts ≠ [] →
  (EMBEDDING_RETRY_MAX_ATTEMPTS = 3 ∧ EMBEDDING_RETRY_BASE_DELAY_MS = 500 ∧
   EMBEDDING_RETRY_MAX_DELAY_MS = 8000) ∧
  (provider_calls (snd (embedBatchWithRetry env texts w)) <= provider_calls w + 4)%nat ∧
  (∀ err,
     embedBatch env (events w) texts = Throw err →
     isRetryableEmbeddingError (message err) = false →
     embedBatchWithRetry env texts w = (Throw err, add_event (EvEmbedBatch texts) w)) ∧
  ((∀ hist, ∃ err, embedBatch env hist texts = Throw err ∧
                   isRetryableEmbeddingError (message err) = true) →
   ∃ err,
     isRetryableEmbeddingError (message err) = true ∧
     embedBatchWithRetry env texts w
     = (Throw err,
        {| self := self w;
           events := [EvEmbedBatch texts; EvSleep 2000;
                      EvEmbedBatch texts; EvSleep 1000;
                      EvEmbedBatch texts; EvSleep 500;
                      EvEmbedBatch texts] ++ events w;
           now := now w |}) ∧
     provider_calls (snd (embedBatchWithRetry env texts w)) = (provider_calls w + 4)%nat).
Proof.
  intros Hne. rewrite (embedBatchWithRetry_nonempty env texts w Hne).
  split; [done|]. split; [apply retry_loop_calls|]. split.
  - intros err Hanswer Hfatal.
    apply (retry_loop_give_up _ _ _ _ _ _ _ Hanswer (or_introl Hfatal)).
  - intros Hdown. change RETRY_FUEL with 4%nat.
    destruct (Hdown (events w)) as (e1 & H1 & R1).
    rewrite (retry_loop_again _ _ _ _ _ _ _ H1 R1) by done.
    set (w1 := add_event _ (add_event _ w)).
    destruct (Hdown (events w1)) as (e2 & H2 & R2).
    rewrite (retry_loop_again _ _ _ _ _ _ _ H2 R2) by done.
    set (w2 := add_event _ (add_event _ w1)).
    destruct (Hdown (events w2)) as (e3 & H3 & R3).
    rewrite (retry_loop_again _ _ _ _ _ _ _ H3 R3) by done.
    set (w3 := add_event _ (add_event _ w2)).
    destruct (Hdown (events w3)) as (e4 & H4 & R4).
    rewrite (retry_loop_give_up _ _ _ _ _ _ _ H4) by (right; done).
    exists e4. split; [done|]. split; [reflexivity|].
    cbn [snd]. rewrite provider_calls_embed. subst w3 w2 w1.
    rewrite !provider_calls_sleep, !provider_calls_embed, !provider_calls_sleep.
    rewrite !provider_calls_embed, !provider_calls_sleep, !provider_calls_embed. lia.
Qed.

(** A provider that is rate limited for good is called four times. *)
Lemma embedBatchWithRetry_invocations_witness :
  let w := Sample.world true false 0 [] in
  fst (embedBatchWithRetry Sample.env_rate_limited ["alpha"] w)
  = Throw (Sample.err "429 too many requests") ∧
  provider_calls (snd (embedBatchWithRetry Sample.env_rate_limited ["alpha"] w)) = 4%nat ∧
  embedBatchWithRetry Sample.env_all_down ["alpha"] w
  = (Throw (Sample.err "401 unauthorized"), add_event (EvEmbedBatch ["alpha"]) w).
Proof.
  assert (Hne : ["alpha"] ≠ @nil string) by discriminate.
  split; [|split].
  - destruct (embedBatchWithRetry_invocations Sample.env_rate_limited ["alpha"]
                (Sample.world true false 0 []) Hne) as (_ & _ & _ & Hdown).
    destruct Hdown as (err & _ & Hrun & _).
    + intros hist. exists (Sample.err "429 too many requests"). split; reflexivity.
    + vm_compute. reflexivity.
  - destruct (embedBatchWithRetry_invocations Sample.env_rate_limited ["alpha"]
                (Sample.world true false 0 []) Hne) as (_ & _ & _ & Hdown).
    destruct Hdown as (err & _ & _ & Hcalls).
    + intros hist. exists (Sample.err "429 too many requests"). split; reflexivity.
    + exact Hcalls.
  - destruct (embedBatchWithRetry_invocations Sample.env_all_down ["alpha"]
                (Sample.world true false 0 []) Hne) as (_ & _ & Hfatal & _).
    apply Hfatal; reflexivity.
Defined.

(** * Pruning the cache *)

Lemma insert_by_updated_at_perm r l : insert_by_updated_at r l ≡ₚ r :: l.
Proof.
  induction l as [|x l IH]; cbn; [done|].
  destruct (sorts_before r x); [done|].
  rewrite IH. apply Permutation_swap.
Qed.

Lemma order_by_updated_at_perm t : order_by_updated_at t ≡ₚ t.
Proof.
  induction t as [|r t IH]; cbn; [done|].
  rewrite insert_by_updated_at_perm. by rewrite IH.
Qed.

Lemma insert_by_updated_at_sorted r l :
  StronglySorted older l → StronglySorted older (insert_by_updated_at r l).
Proof.
  induction 1 as [|x l Hl IH Hx]; cbn.
  - repeat constructor.
  - destruct (sorts_before r x) eqn:Hcmp.
    + assert (Hle : updated_at r <= updated_at x) by (unfold sorts_before in Hcmp; lia).
      constructor; [by constructor|].
      constructor; [done|].
      eapply Forall_impl; [exact Hx|]. unfold older. intros; cbn in *; lia.
    + assert (Hge : updated_at x <= updated_at r) by (unfold sorts_before in Hcmp; lia).
      constructor; [done|].
      rewrite insert_by_updated_at_perm. by constructor.
Qed.

Lemma order_by_updated_at_sorted t : StronglySorted older (order_by_updated_at t).
Proof.
  induction t as [|r t IH]; cbn; [constructor|].
  by apply insert_by_updated_at_sorted.
Qed.

Lemma filter_none {A} (P : A → Prop) `{∀ x, Decision (P x)} (l : list A) :
  (∀ x, x ∈ l → ¬ P x) → filter P l = [].
Proof.
  induction l as [|x l IH]; intros Hl; [done|].
  rewrite filter_cons_False by (apply Hl; left).
  apply IH. intros y Hy. apply Hl. by right.
Qed.

Lemma filter_all {A} (P : A → Prop) `{∀ x, Decision (P x)} (l : list A) :
  (∀ x, x ∈ l → P x) → filter P l = l.
Proof.
  induction l as [|x l IH]; intros Hl; [done|].
  rewrite filter_cons_True by (apply Hl; left).
  f_equal. apply IH. intros y Hy. apply Hl. by right.
Qed.

Lemma filter_not_in_prefix (gone kept : list CacheRow) :
  NoDup (rowid <$> gone ++ kept) →
  filter (λ r, rowid r ∉ rowid <$> gone) (gone ++ kept) = kept.
Proof.
  rewrite fmap_app. intros (_ & Hdisjoint & _)%NoDup_app.
  rewrite filter_app, filter_none, filter_all; [done| |].
  - intros r Hr Hin. apply (Hdisjoint (rowid r)); [done|].
    apply list_elem_of_fmap. by exists r.
  - intros r Hr Hnot. apply Hnot. apply list_elem_of_fmap. by exists r.
Qed.

(** With distinct rowids, deleting the rowids of the first [n] rows in
    timestamp order leaves the other rows of that order. *)
Lemma delete_oldest_perm n t :
  NoDup (rowid <$> t) →
  delete_oldest n t ≡ₚ drop (Z.to_nat n) (order_by_updated_at t).
Proof.
  intros Hnodup. unfold delete_oldest, oldest_rowids.
  pose proof (order_by_updated_at_perm t) as Hperm.
  pose proof (filter_not_in_prefix (take (Z.to_nat n) (order_by_updated_at t))
                (drop (Z.to_nat n) (order_by_updated_at t))) as Hsplit.
  rewrite take_drop in Hsplit.
  etrans; [apply (filter_Permutation _ t (order_by_updated_at t)); by symmetry|].
  rewrite Hsplit; [done|]. by rewrite Hperm.
Qed.

Lemma prune_returns w : fst (pruneEmbeddingCacheIfNeeded w) = Ok tt.
Proof.
  unfold pruneEmbeddingCacheIfNeeded, bind, get_self, ret, modify_self.
  destruct (negb _); [done|]. destruct (maxEntries _); [|done].
  destruct (_ || _); [done|]. by destruct (_ <=? _).
Qed.

(** C6. [pruneEmbeddingCacheIfNeeded] changes nothing when caching is
    off, when [maxEntries] is unset, zero or negative, and when the table
    has at most [maxEntries] rows.  Otherwise, on a table of [count] rows
    (rowids distinct, as SQLite keeps them) with [count > maxEntries], it
    deletes [count - maxEntries] rows and keeps [maxEntries]: the rows
    kept stay as and where they were, and every deleted row is at most as
    recent as every row kept. *)
Theorem pruneEmbeddingCacheIfNeeded_exact (w : World) :
  let s := self w in
  let rows := table (db s) in
  let w' := snd (pruneEmbeddingCacheIfNeeded w) in
  let rows' := table (db (self w')) in
  (cache_enabled (cache s) = false → w' = w) ∧
  (maxEntries (cache s) = None → w' = w) ∧
  (∀ max, maxEntries (cache s) = Some max → max <= 0 → w' = w) ∧
  (∀ max, maxEntries (cache s) = Some max → Z.of_nat (length rows) <= max → w' = w) ∧
  (∀ max,
     cache_enabled (cache s) = true →
     maxEntries (cache s) = Some max → 0 < max →
     max < Z.of_nat (length rows) →
     NoDup (rowid <$> rows) →
     w' = {| self := set_db (set_table rows' (db s)) s; events := events w; now := now w |} ∧
     Z.of_nat (length rows') = max ∧
     sublist rows' rows ∧
     ∃ removed,
       removed ++ rows' ≡ₚ rows ∧
       Z.of_nat (length removed) = Z.of_nat (length rows) - max ∧
       ∀ r k, r ∈ removed → k ∈ rows' → updated_at r <= updated_at k).
Proof.
  intros s rows w' rows'. subst s rows w' rows'.
  unfold pruneEmbeddingCacheIfNeeded, bind, get_self, ret, modify_self.
  destruct w as [s evs t]. cbn [self events now] in *.
  set (rows := table (db s)).
  split; [|split; [|split; [|split]]].
  - by intros ->.
  - intros ->. by destruct (negb _).
  - intros max -> Hmax. destruct (negb _); [done|].
    destruct (Z.eqb_spec max 0); [done|]. cbn [orb].
    by destruct (Z.leb_spec max 0); [|lia].
  - intros max -> Hfew. destruct (negb _); [done|].
    destruct (_ || _); [done|].
    by destruct (Z.leb_spec (Z.of_nat (length rows)) max); [|lia].
  - intros max -> -> Hpos Hmany Hnodup. cbn [negb].
    destruct (Z.eqb_spec max 0); [lia|]. cbn [orb].
    destruct (Z.leb_spec max 0); [lia|].
    destruct (Z.leb_spec (Z.of_nat (length rows)) max); [lia|].
    cbn [snd self db table set_db set_table].
    fold rows.
    pose proof (delete_oldest_perm (Z.of_nat (length rows) - max) rows Hnodup) as Hkept.
    pose proof (order_by_updated_at_perm rows) as Hperm.
    pose proof (order_by_updated_at_sorted rows) as Hsorted.
    set (excess := Z.to_nat (Z.of_nat (length rows) - max)) in *.
    set (sorted := order_by_updated_at rows) in *.
    assert (Hlen : length sorted = length rows) by by rewrite Hperm.
    split; [done|]. split; [|split].
    + rewrite Hkept, length_drop, Hlen. lia.
    + apply sublist_filter.
    + exists (take excess sorted). split; [|split].
      * by rewrite Hkept, take_drop.
      * rewrite length_take, Hlen. lia.
      * intros r k Hr Hk. rewrite Hkept in Hk.
        rewrite <- (take_drop excess sorted) in Hsorted.
        apply (StronglySorted_app_1_elem_of _ _ _ r k Hsorted Hr Hk).
Qed.

Lemma pruneEmbeddingCacheIfNeeded_exact_witness :
  let rows := [Sample.row 1 "h1" "1;1;" 40; Sample.row 2 "h2" "2;1;" 10;
               Sample.row 3 "h3" "3;1;" 30; Sample.row 4 "h4" "4;1;" 20] in
  let w := Sample.world true true 0 rows in
  let rows' := table (db (self (snd (pruneEmbeddingCacheIfNeeded w)))) in
  rows' = [Sample.row 1 "h1" "1;1;" 40; Sample.row 3 "h3" "3;1;" 30] ∧
  Z.of_nat (length rows') = 2 ∧
  ∃ removed,
    removed ++ rows' ≡ₚ rows ∧
    Z.of_nat (length removed) = Z.of_nat (length rows) - 2 ∧
    ∀ r k, r ∈ removed → k ∈ rows' → updated_at r <= updated_at k.
Proof.
  intros rows w rows'.
  destruct (pruneEmbeddingCacheIfNeeded_exact w) as (_ & _ & _ & _ & Hprune).
  destruct (Hprune 2) as (_ & Hlen & _ & Hremoved).
  - reflexivity.
  - reflexivity.
  - lia.
  - vm_compute. reflexivity.
  - apply (bool_decide_unpack _). vm_compute. exact I.
  - split; [reflexivity|]. split; [exact Hlen|exact Hremoved].
Defined.

(** * Seeding the cache *)

Lemma with_db_same w : with_db (db (self w)) w = w.
Proof. by destruct w as [[] ??]. Qed.

Lemma with_db_twice d1 d2 w : with_db d2 (with_db d1 w) = with_db d2 w.
Proof. reflexivity. Qed.

Lemma same_key_row_key new r :
  same_key (row_provider new) (row_model new) (provider_key new) (row_hash new) r
  ↔ row_key r = row_key new.
Proof.
  unfold same_key, row_key. split.
  - by intros (-> & -> & -> & ->).
  - by intros [= -> -> -> ->].
Qed.

Lemma upsert_row_holds new t : holds (upsert_row new t) new.
Proof.
  unfold upsert_row. destruct (decide (Exists _ t)) as [Hex|Hnew].
  - apply Exists_exists in Hex as (r & Hr & Hkey).
    eexists. split.
    + apply list_elem_of_fmap. exists r. split; [reflexivity|done].
    + rewrite decide_True by done. apply same_key_row_key in Hkey.
      unfold row_key in *. cbn. by injection Hkey as -> -> -> ->.
  - eexists. split; [apply elem_of_app; right; by left|done].
Qed.

Lemma upsert_row_keeps new t r :
  row_key r ≠ row_key new → holds t r → holds (upsert_row new t) r.
Proof.
  intros Hother (r' & Hin & Hkey & Hdata). unfold upsert_row.
  exists r'. split; [|done].
  destruct (decide (Exists _ t)) as [Hex|Hnew].
  - apply list_elem_of_fmap. exists r'. split; [|done].
    rewrite decide_False; [done|]. rewrite same_key_row_key. congruence.
  - apply elem_of_app. by left.
Qed.

Lemma foldl_upsert_holds rows t r :
  NoDup (row_key <$> rows) → r ∈ rows →
  holds (foldl (fun t row => upsert_row row t) t rows) r.
Proof.
  induction rows as [|x rows IH] using rev_ind; intros Hnodup Hr.
  - by apply not_elem_of_nil in Hr.
  - rewrite foldl_app. cbn [foldl].
    rewrite fmap_app in Hnodup. apply NoDup_app in Hnodup as (Hrows & Hfresh & _).
    apply elem_of_app in Hr as [Hr|Hr].
    + apply upsert_row_keeps; [|by apply IH].
      intros Hkey. apply (Hfresh (row_key r)).
      * apply list_elem_of_fmap. by exists r.
      * rewrite Hkey. cbn. by left.
    + apply list_elem_of_singleton in Hr as ->. apply upsert_row_holds.
Qed.

(** ** The insert loop *)

Lemma sql_ok stmt d w :
  stmt (db (self w)) = Ok d → sql None stmt w = (Ok tt, with_db d w).
Proof. unfold sql. by intros ->. Qed.

Lemma sql_fault e stmt w : sql (Some e) stmt w = (Throw e, w).
Proof. reflexivity. Qed.

(** Without a fault the loop upserts every row; with one it throws the
    first.  Either way only the table changes, not the open transaction. *)
Lemma seed_rows_run faults k rows w :
  let d := db (self w) in
  (∃ t', seed_rows faults k rows w = (Ok tt, with_db (set_table t' d) w) ∧
         t' = foldl (fun t row => upsert_row row t) (table d) rows ∧
         ∀ i, (i < length rows)%nat → faults (k + i)%nat = None) ∨
  (∃ t' e i, seed_rows faults k rows w = (Throw e, with_db (set_table t' d) w) ∧
             (i < length rows)%nat ∧ faults (k + i)%nat = Some e ∧
             ∀ j, (j < i)%nat → faults (k + j)%nat = None).
Proof.
  revert k w. induction rows as [|row rows IH]; intros k w d.
  - left. exists (table d). cbn. split; [|split; [done|intros; lia]].
    unfold ret, set_table. subst d. by destruct w as [[[] ] ??].
  - cbn [seed_rows]. destruct (faults k) as [e|] eqn:Hk.
    + right. exists (table d), e, 0%nat. rewrite Nat.add_0_r.
      split; [|split; [cbn; lia|split; [done|intros; lia]]].
      unfold bind. rewrite sql_fault. subst d. by destruct w as [[[] ] ??].
    + set (w1 := with_db (set_table (upsert_row row (table d)) d) w).
      assert (Hstep :
        (sql None (fun d0 => Ok (set_table (upsert_row row (table d0)) d0)) ;;
         seed_rows faults (S k) rows) w = seed_rows faults (S k) rows w1) by reflexivity.
      rewrite Hstep. clear Hstep.
      destruct (IH (S k) w1)
        as [(t' & Hrun & Ht' & Hnone)|(t' & e & i & Hrun & Hi & He & Hfirst)].
      * left. exists t'. rewrite Hrun. split; [done|]. split; [done|].
        intros [|i] Hi; [by rewrite Nat.add_0_r|].
        replace (k + S i)%nat with (S k + i)%nat by lia. apply Hnone. cbn in Hi. lia.
      * right. exists t', e, (S i). rewrite Hrun. split; [done|].
        split; [cbn; lia|].
        split; [by replace (k + S i)%nat with (S k + i)%nat by lia|].
        intros [|j] Hj; [by rewrite Nat.add_0_r|].
        replace (k + S j)%nat with (S k + j)%nat by lia. apply Hfirst. lia.
Qed.

Lemma seedEmbeddingCache_disabled faults sourceDb w :
  cache_enabled (cache (self w)) = false →
  seedEmbeddingCache faults sourceDb w = (Ok tt, w).
Proof.
  intros Hoff. unfold seedEmbeddingCache, bind, get_self. by rewrite Hoff.
Qed.

Lemma bind_sql_none {B} stmt (k : M B) w :
  (sql None stmt ;; k) w
  = match stmt (db (self w)) with
    | Ok d => k (with_db d w)
    | Throw e => (Throw e, w)
    end.
Proof. unfold bind, sql. by destruct (stmt _). Qed.

Lemma bind_sql_fault {B} e stmt (k : M B) w : (sql (Some e) stmt ;; k) w = (Throw e, w).
Proof. reflexivity. Qed.

Lemma seed_handler_idle e w :
  txn (db (self w)) = None → seed_handler e w = (Throw e, w).
Proof.
  intros Hidle. unfold seed_handler, bind, try_catch, sql, exec_rollback.
  by rewrite Hidle.
Qed.

Lemma seed_handler_open e t' w :
  txn (db (self w)) = None →
  seed_handler e (with_db {| table := t'; txn := Some (table (db (self w))) |} w)
  = (Throw e, w).
Proof.
  intros Hidle. unfold seed_handler, bind, try_catch, sql, exec_rollback. cbn.
  rewrite <- Hidle. by destruct w as [[[] ] ??].
Qed.

Lemma seedEmbeddingCache_enabled faults sourceDb w :
  cache_enabled (cache (self w)) = true →
  seedEmbeddingCache faults sourceDb w
  = try_catch (seed_body faults (table sourceDb)) seed_handler w.
Proof.
  intros Hon. unfold seedEmbeddingCache. unfold bind at 1. unfold get_self.
  by rewrite Hon.
Qed.

(** C7, as the code has it.  With caching on and no transaction open on
    the target when it is called, [seedEmbeddingCache] either
    - meets no fault in any of its statements, returns, and has upserted
      every row of the source inside one [BEGIN] ... [COMMIT]: the target
      then has the cache entry of every source row; or
    - rethrows the error of the first statement that fails (the read of
      the source, the [prepare], [BEGIN], an insert or [COMMIT]) and
      leaves the target as it was. *)
Theorem seedEmbeddingCache_atomic
    (faults : nat → option JsValue) (sourceDb : DatabaseSync) (w : World) :
  cache_enabled (cache (self w)) = true →
  txn (db (self w)) = None →
  let rows := table sourceDb in
  let copied := foldl (fun t row => upsert_row row t) (table (db (self w))) rows in
  ((∀ i, (i <= last_statement sourceDb)%nat → faults i = None) ∧
   seedEmbeddingCache faults sourceDb w
   = (Ok tt, with_db {| table := copied; txn := None |} w) ∧
   (NoDup (row_key <$> rows) → ∀ r, r ∈ rows → holds copied r)) ∨
  (∃ e i,
     (i <= last_statement sourceDb)%nat ∧ faults i = Some e ∧
     (∀ j, (j < i)%nat → faults j = None) ∧
     seedEmbeddingCache faults sourceDb w = (Throw e, w)).
Proof.
  intros Hon Hidle rows copied.
  assert (Hw : with_db {| table := table (db (self w)); txn := None |} w = w).
  { rewrite <- Hidle. by destruct w as [[[] ] ??]. }
  rewrite (seedEmbeddingCache_enabled faults sourceDb w Hon).
  unfold last_statement, try_catch, seed_body. fold rows.
  destruct (faults 0%nat) as [e0|] eqn:H0.
  { right. exists e0, 0%nat. rewrite bind_sql_fault, (seed_handler_idle _ _ Hidle).
    repeat split; [lia|done|intros; lia]. }
  rewrite bind_sql_none, with_db_same.
  destruct (Nat.eqb (length rows) 0) eqn:Hlen.
  { left. apply length_zero_iff_nil in Hlen. subst copied. rewrite Hlen. cbn [foldl].
    rewrite Hw. split; [|split; [done|]].
    - intros i Hi. by replace i with 0%nat by lia.
    - intros _ r Hr. by apply not_elem_of_nil in Hr. }
  destruct (faults 1%nat) as [e1|] eqn:H1.
  { right. exists e1, 1%nat. rewrite bind_sql_fault, (seed_handler_idle _ _ Hidle).
    repeat split; [lia|done|]. intros j Hj. by replace j with 0%nat by lia. }
  rewrite bind_sql_none, with_db_same.
  destruct (faults 2%nat) as [e2|] eqn:H2.
  { right. exists e2, 2%nat. rewrite bind_sql_fault, (seed_handler_idle _ _ Hidle).
    repeat split; [lia|done|]. intros [|[|j]] Hj; [done|done|lia]. }
  rewrite bind_sql_none. unfold exec_begin. rewrite Hidle.
  set (w2 := with_db {| table := table (db (self w)); txn := Some (table (db (self w))) |} w).
  destruct (seed_rows_run faults 3 rows w2)
    as [(t' & Hrun & Ht' & Hnone)|(t' & e & i & Hrun & Hi & He & Hfirst)].
  - rewrite (bind_ok _ _ _ _ _ Hrun).
    change (table (db (self w2))) with (table (db (self w))) in Ht'. fold copied in Ht'.
    subst t'.
    change (with_db (set_table copied (db (self w2))) w2)
      with (with_db {| table := copied; txn := Some (table (db (self w))) |} w).
    destruct (faults (3 + length rows)%nat) as [e3|] eqn:H3.
    + right. exists e3, (3 + length rows)%nat. cbn [sql].
      rewrite (seed_handler_open _ _ _ Hidle).
      repeat split; [lia|done|].
      intros [|[|[|j]]] Hj; [done|done|done|].
      apply (Hnone j). lia.
    + left. split; [|split].
      * intros [|[|[|j]]] Hj; [done|done|done|].
        destruct (decide (j = length rows)) as [->|Hne]; [done|].
        apply (Hnone j). lia.
      * reflexivity.
      * intros Hnodup r Hr. by apply foldl_upsert_holds.
  - rewrite (bind_throw _ _ _ _ _ Hrun).
    change (with_db (set_table t' (db (self w2))) w2)
      with (with_db {| table := t'; txn := Some (table (db (self w))) |} w).
    right. exists e, (3 + i)%nat. rewrite (seed_handler_open _ _ _ Hidle).
    repeat split; [lia|done|].
    intros [|[|[|j]]] Hj; [done|done|done|].
    apply (Hfirst j). lia.
Qed.

Lemma seedEmbeddingCache_atomic_witness :
  let source := {| table := [Sample.row 1 "h1" "1;1;" 5; Sample.row 2 "h2" "2;1;" 6];
                   txn := None |} in
  let w := Sample.world true true 0 [Sample.row 7 "h0" "0;1;" 1] in
  seedEmbeddingCache (Sample.fault_at 4) source w = (Throw (Sample.err "disk I/O error"), w) ∧
  fst (seedEmbeddingCache Sample.no_faults source w) = Ok tt ∧
  ∀ r, r ∈ table source →
       holds (table (db (self (snd (seedEmbeddingCache Sample.no_faults source w))))) r.
Proof.
  intros source w. split.
  - destruct (seedEmbeddingCache_atomic (Sample.fault_at 4) source w)
      as [(Hnone & _)|(e & i & _ & He & _ & Hthrow)]; [reflexivity|reflexivity| |].
    + specialize (Hnone 4%nat). cbn in Hnone. discriminate Hnone. vm_compute. lia.
    + unfold Sample.fault_at in He. destruct (Nat.eqb i 4); [|discriminate].
      injection He as <-. exact Hthrow.
  - destruct (seedEmbeddingCache_atomic Sample.no_faults source w)
      as [(_ & Hrun & Hcopied)|(e & i & _ & He & _)]; [reflexivity|reflexivity| |].
    + rewrite Hrun. split; [reflexivity|]. apply Hcopied.
      apply (bool_decide_unpack _). vm_compute. exact I.
    + discriminate He.
Defined.

(** The claim as written fails when caching is off: nothing is copied. *)
Lemma seedEmbeddingCache_disabled_copies_nothing :
  let source := {| table := [Sample.row 1 "h1" "1;1;" 5]; txn := None |} in
  let w := Sample.world false true 0 [] in
  seedEmbeddingCache Sample.no_faults source w = (Ok tt, w) ∧
  table source = [Sample.row 1 "h1" "1;1;" 5] ∧
  table (db (self (snd (seedEmbeddingCache Sample.no_faults source w)))) = [].
Proof. repeat split. Qed.

(** Why the target must be outside a transaction: [BEGIN] then fails, and
    the [ROLLBACK] of the handler undoes what the caller had pending. *)
Example seedEmbeddingCache_inside_transaction :
  let source := {| table := [Sample.row 1 "h1" "1;1;" 5]; txn := None |} in
  let pending := {| table := [Sample.row 7 "h0" "0;1;" 1]; txn := Some [] |} in
  let w := with_db pending (Sample.world true true 0 []) in
  seedEmbeddingCache Sample.no_faults source w
  = (Throw (sql_error "cannot start a transaction within a transaction"),
     with_db {| table := []; txn := None |} w).
Proof. reflexivity. Qed.

(** * Looking vectors up in the cache *)

Lemma unique_hashes_elem hashes seen acc h :
  (∀ x, x ∈ acc ↔ x ∈ seen) →
  h ∈ unique_hashes hashes seen acc ↔ h ∈ acc ∨ (h ∈ hashes ∧ Js.truthy h = true).
Proof.
  revert seen acc. induction hashes as [|x hashes IH]; intros seen acc Hinv; cbn.
  - split; [by left|]. intros [?|[Hnil _]]; [done|]. by apply not_elem_of_nil in Hnil.
  - destruct (Js.truthy x) eqn:Hx; cbn [negb].
    + destruct (decide (x ∈ seen)) as [Hseen|Hfresh].
      * rewrite (IH seen acc Hinv). split; [intros [?|[??]]; [by left|right; split; [by right|done]]|].
        intros [?|[Hin ?]]; [by left|].
        apply elem_of_cons in Hin as [->|Hin]; [left; by apply Hinv|by right].
      * rewrite (IH ({[x]} ∪ seen) (acc ++ [x])).
        -- rewrite elem_of_app, list_elem_of_singleton, elem_of_cons. intuition (subst; auto).
        -- intros y. rewrite elem_of_app, list_elem_of_singleton, elem_of_union,
             elem_of_singleton, Hinv. tauto.
    + rewrite (IH seen acc Hinv). rewrite elem_of_cons.
      split; [tauto|]. intros [?|[[->|?] Ht]]; [by left|congruence|by right].
Qed.

Lemma foldl_set_lookup env (rows : list CacheRow) (out : gmap string vector) h :
  foldl (fun o row => <[row_hash row := parseEmbedding env (embedding row)]> o) out rows !! h
  = match last (filter (fun r => row_hash r = h) rows) with
    | Some r => Some (parseEmbedding env (embedding r))
    | None => out !! h
    end.
Proof.
  induction rows as [|row rows IH] using rev_ind; [done|].
  rewrite foldl_app, filter_app. cbn [foldl].
  destruct (decide (row_hash row = h)) as [Heq|Hne].
  - rewrite filter_cons_True by done. rewrite filter_nil, last_snoc, Heq.
    by rewrite lookup_insert_eq.
  - rewrite filter_cons_False by done. rewrite filter_nil, app_nil_r.
    by rewrite lookup_insert_ne.
Qed.

Lemma select_by_hashes_filter p m k hs t h :
  filter (fun r => row_hash r = h) (select_by_hashes p m k hs t)
  = if decide (h ∈ hs) then filter (same_key p m k h) t else [].
Proof.
  unfold select_by_hashes. rewrite list_filter_filter.
  destruct (decide (h ∈ hs)) as [Hin|Hout].
  - apply list_filter_iff. intros r. unfold same_key. intuition (subst; auto).
  - apply filter_none. intros r _ (Hh & _ & _ & _ & Hin). by rewrite Hh in Hin.
Qed.

Section Load.
Context (env : Env) (s : EmbeddingService).

Lemma load_slice_lookup slice (out : gmap string vector) h :
  foldl (fun o row => <[row_hash row := parseEmbedding env (embedding row)]> o) out
    (select_by_hashes (id (provider s)) (model (provider s)) (providerKey s) slice
       (table (db s))) !! h
  = if decide (h ∈ slice)
    then match stored env s h with Some v => Some v | None => out !! h end
    else out !! h.
Proof.
  rewrite foldl_set_lookup, select_by_hashes_filter. unfold stored.
  destruct (decide (h ∈ slice)); [|done]. by destruct (last _).
Qed.

Lemma load_slices_lookup unique fuel start (out : gmap string vector) h :
  (length unique <= start + fuel * LOAD_BATCH_SIZE)%nat →
  load_slices env s unique fuel start out !! h
  = if decide (h ∈ drop start unique)
    then match stored env s h with Some v => Some v | None => out !! h end
    else out !! h.
Proof.
  revert start out. induction fuel as [|fuel IH]; intros start out Hfuel.
  - cbn. rewrite drop_ge by lia. rewrite decide_False; [done|apply not_elem_of_nil].
  - cbn [load_slices]. destruct (Nat.ltb_spec start (length unique)) as [Hlt|Hge].
    + rewrite IH by (unfold LOAD_BATCH_SIZE in *; lia).
      rewrite load_slice_lookup.
      assert (Hsplit : h ∈ drop start unique ↔
                       h ∈ take LOAD_BATCH_SIZE (drop start unique) ∨
                       h ∈ drop (start + LOAD_BATCH_SIZE) unique).
      { by rewrite <- drop_drop, <- elem_of_app, take_drop. }
      destruct (decide (h ∈ drop (start + LOAD_BATCH_SIZE) unique)) as [Hlater|Hnot];
        destruct (decide (h ∈ take LOAD_BATCH_SIZE (drop start unique))) as [Hnow|Hnot'].
      * rewrite decide_True by (apply Hsplit; by left). by destruct (stored env s h).
      * rewrite decide_True by (apply Hsplit; by right). done.
      * rewrite decide_True by (apply Hsplit; by left). done.
      * rewrite decide_False; [done|]. rewrite Hsplit. tauto.
    + rewrite drop_ge by lia. rewrite decide_False; [done|apply not_elem_of_nil].
Qed.

(** [loadEmbeddingCache] returns, for every non-empty hash asked for, what
    the table holds for it. *)
Lemma loadEmbeddingCache_lookup hashes h :
  h ∈ hashes → Js.truthy h = true →
  loadEmbeddingCache env s hashes !! h = cached_vector env s h.
Proof.
  intros Hin Htruthy. unfold loadEmbeddingCache, cached_vector. fold (stored env s h).
  destruct (cache_enabled (cache s)); cbn [negb]; [|done].
  assert (Hu : h ∈ unique_hashes hashes ∅ []).
  { apply unique_hashes_elem; [|by right]. intros x. split; intros Hx.
    - by apply not_elem_of_nil in Hx.
    - by apply not_elem_of_empty in Hx. }
  destruct (Nat.eqb (length hashes) 0) eqn:Hn.
  { apply length_zero_iff_nil in Hn. subst. by apply not_elem_of_nil in Hin. }
  destruct (Nat.eqb (length (unique_hashes hashes ∅ [])) 0) eqn:Hn'.
  { apply length_zero_iff_nil in Hn'. rewrite Hn' in Hu. by apply not_elem_of_nil in Hu. }
  rewrite load_slices_lookup by (unfold LOAD_BATCH_SIZE; lia).
  rewrite drop_0, decide_True by done. by destruct (stored env s h).
Qed.

Lemma cache_hit_lookup_hit chunks c :
  c ∈ chunks →
  cache_hit (loadEmbeddingCache env s (hash <$> chunks)) c = lookup_hit env s c.
Proof.
  intros Hc. unfold cache_hit, lookup_hit.
  destruct (Js.truthy (hash c)) eqn:Ht; [|done].
  apply loadEmbeddingCache_lookup; [|done].
  apply list_elem_of_fmap. by exists c.
Qed.

End Load.

(** * Hits, misses and the result array *)

Lemma array_set_length a i v : (i < length a)%nat → length (array_set a i v) = length a.
Proof.
  intros Hi. unfold array_set. destruct (Nat.ltb_spec i (length a)); [|lia].
  apply length_insert.
Qed.

Lemma array_set_lookup_eq a i v : (i < length a)%nat → array_set a i v !! i = Some v.
Proof.
  intros Hi. unfold array_set. destruct (Nat.ltb_spec i (length a)); [|lia].
  by apply list_lookup_insert_eq.
Qed.

Lemma array_set_lookup_ne a i j v :
  (i < length a)%nat → i ≠ j → array_set a i v !! j = a !! j.
Proof.
  intros Hi Hne. unfold array_set. destruct (Nat.ltb_spec i (length a)); [|lia].
  by apply list_lookup_insert_ne.
Qed.

Lemma scan_chunks_missing cached rest i emb miss :
  (scan_chunks cached rest i emb miss).2 = miss ++ misses_from cached rest i.
Proof.
  revert i emb miss. induction rest as [|c rest IH]; intros i emb miss; cbn.
  - by rewrite app_nil_r.
  - destruct (usable_hit _); rewrite IH; [done|]. by rewrite <- app_assoc.
Qed.

Lemma scan_chunks_length cached rest i emb miss :
  (i + length rest <= length emb)%nat →
  length (scan_chunks cached rest i emb miss).1 = length emb.
Proof.
  revert i emb miss. induction rest as [|c rest IH]; intros i emb miss Hlen; cbn in *.
  - done.
  - destruct (usable_hit _).
    + rewrite IH; rewrite array_set_length; lia.
    + apply IH. lia.
Qed.

Lemma scan_chunks_lookup_before cached rest i emb miss j :
  (i + length rest <= length emb)%nat → (j < i)%nat →
  (scan_chunks cached rest i emb miss).1 !! j = emb !! j.
Proof.
  revert i emb miss. induction rest as [|c rest IH]; intros i emb miss Hlen Hj; cbn in *.
  - done.
  - destruct (usable_hit _).
    + rewrite IH by (rewrite ?array_set_length; lia).
      apply array_set_lookup_ne; lia.
    + apply IH; lia.
Qed.

Lemma scan_chunks_lookup cached rest i emb miss k c :
  (i + length rest <= length emb)%nat →
  rest !! k = Some c →
  (scan_chunks cached rest i emb miss).1 !! (i + k)%nat
  = if usable_hit (cache_hit cached c) then Some (default [] (cache_hit cached c))
    else emb !! (i + k)%nat.
Proof.
  revert i emb miss k. induction rest as [|c0 rest IH]; intros i emb miss k Hlen Hk.
  - done.
  - cbn in Hlen. destruct k as [|k]; cbn in Hk.
    + injection Hk as ->. rewrite Nat.add_0_r. cbn [scan_chunks].
      destruct (usable_hit (cache_hit cached c)).
      * rewrite scan_chunks_lookup_before by (rewrite ?array_set_length; lia).
        apply array_set_lookup_eq. lia.
      * apply scan_chunks_lookup_before; lia.
    + replace (i + S k)%nat with (S i + k)%nat by lia. cbn [scan_chunks].
      destruct (usable_hit (cache_hit cached c0)).
      * rewrite (IH (S i) _ _ k) by (rewrite ?array_set_length; lia || done).
        destruct (usable_hit (cache_hit cached c)); [done|].
        apply array_set_lookup_ne; lia.
      * apply IH; [lia|done].
Qed.

Lemma misses_from_elem cached rest i m :
  m ∈ misses_from cached rest i ↔
  ∃ k, rest !! k = Some (chunk m) ∧ index m = (i + k)%nat ∧
       usable_hit (cache_hit cached (chunk m)) = false.
Proof.
  revert i. induction rest as [|c rest IH]; intros i; cbn [misses_from].
  - split; [by intros ?%not_elem_of_nil|]. by intros (k & ? & _).
  - split.
    + intros Hm. destruct (usable_hit (cache_hit cached c)) eqn:Hc.
      * apply IH in Hm as (k & Hk & Hi & Hu). exists (S k). split; [done|]. split; [lia|done].
      * apply elem_of_cons in Hm as [->|Hm].
        -- exists 0%nat. cbn. split; [done|]. split; [lia|done].
        -- apply IH in Hm as (k & Hk & Hi & Hu). exists (S k). split; [done|].
           split; [lia|done].
    + intros ([|k] & Hk & Hi & Hu); cbn in Hk.
      * injection Hk as ->. rewrite Hu. rewrite Nat.add_0_r in Hi.
        destruct m as [mi mc]; cbn in *; subst. by left.
      * assert (m ∈ misses_from cached rest (S i)).
        { apply IH. exists k. split; [done|]. split; [lia|done]. }
        destruct (usable_hit (cache_hit cached c)); [done|by right].
Qed.

Lemma misses_from_index_ge cached rest i m :
  m ∈ misses_from cached rest i → (i <= index m < i + length rest)%nat.
Proof.
  intros (k & Hk & Hi & _)%misses_from_elem. apply lookup_lt_Some in Hk. lia.
Qed.

Lemma misses_from_NoDup cached rest i : NoDup (index <$> misses_from cached rest i).
Proof.
  revert i. induction rest as [|c rest IH]; intros i; cbn [misses_from].
  - constructor.
  - destruct (usable_hit _); [apply IH|].
    cbn. constructor; [|apply IH].
    intros (m & Hm & Hin)%list_elem_of_fmap.
    apply misses_from_index_ge in Hin. lia.
Qed.

(** ** Writing vectors back *)

Lemma put_writes_app ws1 ws2 acc :
  put_writes (ws1 ++ ws2) acc = put_writes ws2 (put_writes ws1 acc).
Proof. apply foldl_app. Qed.

Lemma put_writes_length ws acc :
  (∀ wr, wr ∈ ws → (wr.1.1 < length acc.1)%nat) →
  length (put_writes ws acc).1 = length acc.1.
Proof.
  revert acc. induction ws as [|wr ws IH]; intros acc Hin; [done|].
  cbn [put_writes foldl]. fold (put_writes ws (put_write acc wr)).
  assert (Hwr : (wr.1.1 < length acc.1)%nat) by (apply Hin; by left).
  rewrite IH; cbn; rewrite array_set_length by done; [done|].
  intros wr' Hwr'. apply Hin. by right.
Qed.

Lemma put_writes_toCache ws acc :
  (put_writes ws acc).2
  = acc.2 ++ ((fun wr => {| entry_hash := wr.1.2; entry_embedding := wr.2 |}) <$> ws).
Proof.
  revert acc. induction ws as [|wr ws IH]; intros acc; cbn.
  - by rewrite app_nil_r.
  - fold (put_writes ws (put_write acc wr)). rewrite IH. cbn. by rewrite <- app_assoc.
Qed.

Lemma put_writes_lookup_other ws acc j :
  (∀ wr, wr ∈ ws → (wr.1.1 < length acc.1)%nat) →
  j ∉ (fun wr => wr.1.1) <$> ws →
  (put_writes ws acc).1 !! j = acc.1 !! j.
Proof.
  revert acc. induction ws as [|wr ws IH]; intros acc Hin Hj; [done|].
  cbn [put_writes foldl]. fold (put_writes ws (put_write acc wr)).
  assert (Hwr : (wr.1.1 < length acc.1)%nat) by (apply Hin; by left).
  rewrite IH.
  - cbn. apply array_set_lookup_ne; [done|]. intros Heq. apply Hj. rewrite <- Heq.
    cbn. by left.
  - cbn. rewrite array_set_length by done. intros wr' Hwr'. apply Hin. by right.
  - intros Hin'. apply Hj. cbn. by right.
Qed.

Lemma put_writes_lookup ws acc wr :
  (∀ wr, wr ∈ ws → (wr.1.1 < length acc.1)%nat) →
  NoDup ((fun wr => wr.1.1) <$> ws) →
  wr ∈ ws →
  (put_writes ws acc).1 !! wr.1.1 = Some wr.2.
Proof.
  revert acc. induction ws as [|wr0 ws IH]; intros acc Hin Hnodup Hwr.
  - by apply not_elem_of_nil in Hwr.
  - cbn [put_writes foldl]. fold (put_writes ws (put_write acc wr0)).
    assert (Hwr0 : (wr0.1.1 < length acc.1)%nat) by (apply Hin; by left).
    cbn in Hnodup. apply NoDup_cons in Hnodup as [Hfresh Hnodup].
    assert (Hin' : ∀ wr, wr ∈ ws → (wr.1.1 < length (put_write acc wr0).1)%nat).
    { cbn. rewrite array_set_length by done. intros wr' Hwr'. apply Hin. by right. }
    apply elem_of_cons in Hwr as [->|Hwr].
    + rewrite put_writes_lookup_other by done. cbn. by apply array_set_lookup_eq.
    + by apply IH.
Qed.

(** * The result has one vector per chunk *)

Lemma fill_batch_length missing vs cursor n i emb tc :
  (∀ m, m ∈ missing → (index m < length emb)%nat) →
  length (fill_batch missing vs cursor n i emb tc).1 = length emb.
Proof.
  revert i emb tc. induction n as [|n IH]; intros i emb tc Hidx; [done|].
  cbn [fill_batch]. destruct (missing !! (cursor + i)%nat) as [item|] eqn:Hitem.
  - assert (index item < length emb)%nat by (eapply Hidx, list_elem_of_lookup_2, Hitem).
    rewrite IH; rewrite array_set_length by done; [done|exact Hidx].
  - by apply IH.
Qed.

Lemma embed_bins_length env missing bins st w st' w' :
  (∀ m, m ∈ missing → (index m < length (fill_embeddings st))%nat) →
  embed_bins env missing bins st w = (Ok st', w') →
  length (fill_embeddings st') = length (fill_embeddings st).
Proof.
  revert st w. induction bins as [|bin bins IH]; intros st w Hidx Hrun.
  - cbn in Hrun. by injection Hrun as <- _.
  - cbn [embed_bins] in Hrun.
    apply bind_inv_ok in Hrun as (vs & w1 & _ & Hrest).
    pose proof (fill_batch_length missing vs (fill_cursor st) (length bin) 0
                  (fill_embeddings st) (fill_toCache st) Hidx) as Hlen.
    destruct (fill_batch _ _ _ _ _ _ _) as [embeddings toCache]. cbn in Hlen.
    apply IH in Hrest; cbn in *; [lia|]. by rewrite Hlen.
Qed.

Lemma scan_file_length env s chunks : length (scan_file env s chunks).1 = length chunks.
Proof.
  unfold scan_file. rewrite scan_chunks_length; rewrite length_replicate; [done|lia].
Qed.

Lemma scan_file_missing env s chunks :
  (scan_file env s chunks).2
  = misses_from (loadEmbeddingCache env s (hash <$> chunks)) chunks 0.
Proof. unfold scan_file. by rewrite scan_chunks_missing. Qed.

Lemma scan_file_index_lt env s chunks m :
  m ∈ (scan_file env s chunks).2 → (index m < length chunks)%nat.
Proof.
  rewrite scan_file_missing. intros Hm%misses_from_index_ge. lia.
Qed.

(** The index of a write is always inside the array: [array_set] never
    has to grow it. *)
Lemma scan_chunks_index_lt env s chunks m :
  m ∈ (scan_file env s chunks).2 → (index m < length (scan_file env s chunks).1)%nat.
Proof. rewrite scan_file_length. apply scan_file_index_lt. Qed.

Lemma embedChunksInBatches_length env chunks w out w' :
  embedChunksInBatches env chunks w = (Ok out, w') → length out = length chunks.
Proof.
  unfold embedChunksInBatches.
  destruct (Nat.eqb (length chunks) 0) eqn:Hn.
  { apply length_zero_iff_nil in Hn. subst. by intros [= <- _]. }
  unfold bind at 1. unfold get_self. fold (scan_file env (self w) chunks).
  pose proof (scan_file_length env (self w) chunks) as Hlen.
  pose proof (scan_chunks_index_lt env (self w) chunks) as Hidx.
  destruct (scan_file env (self w) chunks) as [embeddings missing]. cbn in Hlen, Hidx.
  destruct (Nat.eqb (length missing) 0); [by intros [= <- _]|].
  intros Hrun. apply bind_inv_ok in Hrun as (st & w1 & Hbins & Hrest).
  apply bind_inv_ok in Hrest as (? & w2 & _ & Hret). injection Hret as <- _.
  apply embed_bins_length in Hbins; cbn in *; [lia|done].
Qed.

(** ** The batch-API paths *)


Lemma reconcile_length mapping entries emb tc :
  (∀ cid mp, mapping !! cid = Some mp → (mapped_index mp < length emb)%nat) →
  length (reconcile mapping entries emb tc).1 = length emb.
Proof.
  revert emb tc. induction entries as [|[cid v] entries IH]; intros emb tc Hidx; [done|].
  cbn [reconcile]. destruct (mapping !! cid) as [mp|] eqn:Hcid.
  - assert (mapped_index mp < length emb)%nat by by eapply Hidx.
    rewrite IH; rewrite array_set_length by done; [done|exact Hidx].
  - by apply IH.
Qed.



(** * Which vector lands where *)

Lemma embedBatchWithRetry_answered env embed texts w :
  provider_answers env embed →
  embedBatchWithRetry env texts w
  = (Ok (embed <$> texts),
     if Nat.eqb (length texts) 0 then w else add_event (EvEmbedBatch texts) w).
Proof.
  intros Hans. unfold embedBatchWithRetry.
  destruct (Nat.eqb (length texts) 0) eqn:Hn.
  - apply length_zero_iff_nil in Hn. by subst.
  - apply retry_loop_ok, Hans.
Qed.

Lemma fill_batch_run embed missing vs cursor n i emb tc :
  (cursor + i + n <= length missing)%nat →
  (∀ k m, (k < n)%nat → missing !! (cursor + i + k)%nat = Some m →
          vs !! (i + k)%nat = Some (embed (text (chunk m)))) →
  fill_batch missing vs cursor n i emb tc
  = put_writes (miss_write embed <$> take n (drop (cursor + i) missing)) (emb, tc).
Proof.
  revert i emb tc. induction n as [|n IH]; intros i emb tc Hlen Hvs; [done|].
  cbn [fill_batch].
  destruct (lookup_lt_is_Some_2 missing (cursor + i)) as [m Hm]; [lia|].
  rewrite Hm. rewrite (drop_S _ _ _ Hm). cbn [take fmap list_fmap put_writes foldl].
  rewrite (IH (S i)).
  - replace (vs !! i) with (Some (embed (text (chunk m)))).
    + by replace (cursor + S i)%nat with (S (cursor + i)) by lia.
    + symmetry. specialize (Hvs 0%nat m). rewrite !Nat.add_0_r in Hvs. apply Hvs; [lia|done].
  - lia.
  - intros k m' Hk Hm'. replace (S i + k)%nat with (i + S k)%nat by lia.
    apply Hvs; [lia|]. by replace (cursor + i + S k)%nat with (cursor + S i + k)%nat by lia.
Qed.

Lemma embed_bins_run env embed missing bins st w :
  provider_answers env embed →
  (fill_cursor st <= length missing)%nat →
  concat bins = chunk <$> drop (fill_cursor st) missing →
  ∃ w',
    embed_bins env missing bins st w
    = (Ok {| fill_embeddings :=
               (put_writes (miss_write embed <$> drop (fill_cursor st) missing)
                  (fill_embeddings st, fill_toCache st)).1;
             fill_toCache :=
               (put_writes (miss_write embed <$> drop (fill_cursor st) missing)
                  (fill_embeddings st, fill_toCache st)).2;
             fill_cursor := (fill_cursor st + length (concat bins))%nat |}, w') ∧
    self w' = self w ∧ now w' = now w.
Proof.
  intros Hans. revert st w. induction bins as [|bin bins IH]; intros st w Hcur Hcat.
  - exists w. cbn [concat] in Hcat. symmetry in Hcat. apply fmap_nil_inv in Hcat.
    rewrite Hcat. cbn. split; [|done]. destruct st. cbn. by rewrite Nat.add_0_r.
  - cbn [embed_bins concat] in *.
    assert (Hlen : (fill_cursor st + length bin <= length missing)%nat).
    { pose proof (f_equal length Hcat) as Hl.
      rewrite length_app, length_fmap, length_drop in Hl. lia. }
    assert (Hbin : bin = chunk <$> take (length bin) (drop (fill_cursor st) missing)).
    { rewrite fmap_take, <- Hcat. by rewrite take_app_length. }
    assert (Hrest : concat bins
                    = chunk <$> drop (fill_cursor st + length bin) missing).
    { rewrite <- drop_drop, fmap_drop, <- Hcat. by rewrite drop_app_length. }
    rewrite (bind_ok _ _ _ _ _ (embedBatchWithRetry_answered env embed _ w Hans)).
    set (w1 := if Nat.eqb _ _ then w else _).
    rewrite (fill_batch_run embed); [|lia|].
    2:{ intros k m Hk Hm. rewrite Nat.add_0_r in Hm. rewrite !list_lookup_fmap. cbn.
        rewrite Hbin at 1. rewrite list_lookup_fmap.
        rewrite lookup_take_lt by done. by rewrite lookup_drop, Hm. }
    rewrite Nat.add_0_r.
    destruct (put_writes (miss_write embed <$> take (length bin) _) _)
      as [embeddings toCache] eqn:Hput.
    destruct (IH {| fill_embeddings := embeddings; fill_toCache := toCache;
                    fill_cursor := (fill_cursor st + length bin)%nat |} w1 Hlen Hrest)
      as (w' & Hrun & Hself & Hnow).
    exists w'. rewrite Hrun. cbn [fill_embeddings fill_toCache fill_cursor].
    assert (Hall :
      put_writes (miss_write embed <$> drop (fill_cursor st) missing)
        (fill_embeddings st, fill_toCache st)
      = put_writes (miss_write embed <$> drop (fill_cursor st + length bin) missing)
          (embeddings, toCache)).
    { rewrite <- Hput, <- put_writes_app, <- fmap_app.
      by rewrite <- (drop_drop missing (length bin) (fill_cursor st)), take_drop. }
    split; [|split].
    + by rewrite Hall, length_app, Nat.add_assoc.
    + rewrite Hself. subst w1. by destruct (Nat.eqb _ _).
    + rewrite Hnow. subst w1. by destruct (Nat.eqb _ _).
Qed.

(** The result array of a path that gives every miss its write. *)
Lemma put_writes_scan env s embed chunks tc :
  (put_writes (miss_write embed <$> (scan_file env s chunks).2)
     ((scan_file env s chunks).1, tc)).1
  = embedding_for env s embed <$> chunks.
Proof.
  pose proof (scan_file_length env s chunks) as Hlen.
  assert (Hrange : ∀ wr, wr ∈ miss_write embed <$> (scan_file env s chunks).2 →
                         (wr.1.1 < length (scan_file env s chunks).1)%nat).
  { intros wr (m & -> & Hm)%list_elem_of_fmap. cbn. by apply scan_chunks_index_lt. }
  apply list_eq. intros j. rewrite list_lookup_fmap.
  destruct (chunks !! j) as [c|] eqn:Hc; cbn.
  - assert (Hin : c ∈ chunks) by by eapply list_elem_of_lookup_2.
    unfold embedding_for. rewrite <- (cache_hit_lookup_hit env s chunks c Hin).
    destruct (usable_hit (cache_hit _ c)) eqn:Hu.
    + rewrite put_writes_lookup_other; [| done |].
      * cbn. unfold scan_file.
        rewrite (scan_chunks_lookup _ chunks 0 _ _ j c); [by rewrite Hu| |done].
        rewrite length_replicate. lia.
      * intros (wr & Hj & (m & -> & Hm)%list_elem_of_fmap)%list_elem_of_fmap.
        cbn in Hj. rewrite scan_file_missing in Hm.
        apply misses_from_elem in Hm as (k & Hk & Hi & Hmiss).
        cbn in Hi. rewrite <- Hi, <- Hj, Hc in Hk. injection Hk as Hk.
        rewrite <- Hk in Hmiss. congruence.
    + assert (Hm : {| index := j; chunk := c |} ∈ (scan_file env s chunks).2).
      { rewrite scan_file_missing. apply misses_from_elem. exists j. by cbn. }
      rewrite (put_writes_lookup _ _ (miss_write embed {| index := j; chunk := c |})).
      * done.
      * done.
      * rewrite <- list_fmap_compose.
        rewrite scan_file_missing. apply misses_from_NoDup.
      * apply list_elem_of_fmap. eauto.
  - apply lookup_ge_None. rewrite put_writes_length by done. cbn.
    rewrite Hlen. by apply lookup_ge_None.
Qed.

Lemma length_nonzero_iff {A} (l : list A) : Nat.eqb (length l) 0 = false ↔ l ≠ [].
Proof. destruct l; cbn; split; intros; congruence. Qed.

(** With a provider that answers, the inline path returns the vector owed
    to each chunk, in order. *)
Lemma embedChunksInBatches_run env embed chunks w :
  provider_answers env embed →
  ∃ w', embedChunksInBatches env chunks w
        = (Ok (embedding_for env (self w) embed <$> chunks), w').
Proof.
  intros Hans. unfold embedChunksInBatches.
  destruct (Nat.eqb (length chunks) 0) eqn:Hn.
  { apply length_zero_iff_nil in Hn. subst. by exists w. }
  unfold bind at 1. unfold get_self. fold (scan_file env (self w) chunks).
  pose proof (put_writes_scan env (self w) embed chunks []) as Hfinal.
  destruct (scan_file env (self w) chunks) as [embeddings missing]. cbn [fst snd] in Hfinal.
  destruct (Nat.eqb (length missing) 0) eqn:Hm.
  { apply length_zero_iff_nil in Hm. subst. cbn in Hfinal. subst. by exists w. }
  destruct (buildEmbeddingBatches_spec (chunk <$> missing)) as [Hcat _].
  destruct (embed_bins_run env embed missing (buildEmbeddingBatches (chunk <$> missing))
              {| fill_embeddings := embeddings; fill_toCache := []; fill_cursor := 0 |}
              w Hans) as (w1 & Hrun & Hself & Hnow); [cbn; lia|by rewrite Hcat|].
  cbn [fill_embeddings fill_toCache fill_cursor drop] in Hrun.
  rewrite (bind_ok _ _ _ _ _ Hrun).
  unfold bind. rewrite upsertEmbeddingCache_returns. cbn [fill_embeddings ret].
  rewrite !drop_0.
  eexists. by rewrite Hfinal.
Qed.

(** * The batch-API paths give the same vectors *)

Lemma misses_from_sublist cached rest i :
  misses_from cached rest i `sublist_of` items_from rest i.
Proof.
  revert i. induction rest as [|c rest IH]; intros i; cbn; [done|].
  destruct (usable_hit _); [by apply sublist_cons|by apply sublist_skip].
Qed.

Lemma embedding_for_ext env s1 s2 embed c :
  same_cache s1 s2 → embedding_for env s1 embed c = embedding_for env s2 embed c.
Proof.
  intros (Hdb & Hprov & Hkey & Hcache).
  unfold embedding_for, lookup_hit, cached_vector. by rewrite Hdb, Hprov, Hkey, Hcache.
Qed.

(** ** Reconciling a map of results, whatever the order of its entries *)

Lemma NoDup_fmap_elem_inj {A B} (f : A → B) (l : list A) x y :
  NoDup (f <$> l) → x ∈ l → y ∈ l → f x = f y → x = y.
Proof.
  induction l as [|z l IH]; intros Hnodup Hx Hy Hxy; [by apply not_elem_of_nil in Hx|].
  cbn in Hnodup. apply NoDup_cons in Hnodup as [Hz Hnodup].
  apply elem_of_cons in Hx as [->|Hx]; apply elem_of_cons in Hy as [->|Hy].
  - done.
  - exfalso. apply Hz. rewrite Hxy. apply list_elem_of_fmap. eauto.
  - exfalso. apply Hz. rewrite <- Hxy. apply list_elem_of_fmap. eauto.
  - by apply IH.
Qed.

Lemma remember_lookup_inv env source entry missing (mapping : gmap string Mapped) cid mp :
  foldl (remember env source entry) mapping missing !! cid = Some mp →
  mapping !! cid = Some mp ∨
  ∃ m, m ∈ missing ∧ customIdOf env source entry m = cid ∧
       mp = {| mapped_index := index m; mapped_hash := hash (chunk m) |}.
Proof.
  revert mapping. induction missing as [|m missing IH]; intros mapping; [by left|].
  cbn [foldl]. intros Hlook. apply IH in Hlook as [Hlook|(m' & Hm' & Hcid & Hmp)].
  - unfold remember in Hlook.
    destruct (decide (customIdOf env source entry m = cid)) as [Heq|Hne].
    + rewrite Heq, lookup_insert_eq in Hlook. injection Hlook as <-.
      right. exists m. split; [left|done].
    + rewrite lookup_insert_ne in Hlook by done. by left.
  - right. exists m'. split; [by right|done].
Qed.

Lemma reconcile_lookup_other mapping entries emb tc j :
  (∀ cid mp, mapping !! cid = Some mp → (mapped_index mp < length emb)%nat) →
  (∀ cid mp, cid ∈ entries.*1 → mapping !! cid = Some mp → mapped_index mp ≠ j) →
  (reconcile mapping entries emb tc).1 !! j = emb !! j.
Proof.
  intros Hrange. revert emb tc Hrange.
  induction entries as [|[cid v] entries IH]; intros emb tc Hrange Hother; [done|].
  cbn [reconcile]. destruct (mapping !! cid) as [mp|] eqn:Hcid.
  - rewrite IH.
    + apply array_set_lookup_ne; [by apply (Hrange cid)|].
      apply (Hother cid); [left|done].
    + intros cid' mp' Hlook. rewrite array_set_length; by eapply Hrange.
    + intros cid' mp' Hin. apply Hother. by right.
  - apply IH; [done|]. intros cid' mp' Hin. apply Hother. by right.
Qed.

(** The entry under a custom id lands at the index the mapping has for
    it, wherever the entry stands among the others. *)
Lemma reconcile_lookup_entry mapping entries emb tc cid v mp :
  (∀ cid mp, mapping !! cid = Some mp → (mapped_index mp < length emb)%nat) →
  NoDup entries.*1 →
  (cid, v) ∈ entries →
  mapping !! cid = Some mp →
  (∀ cid' mp', cid' ∈ entries.*1 → mapping !! cid' = Some mp' →
               mapped_index mp' = mapped_index mp → cid' = cid) →
  (reconcile mapping entries emb tc).1 !! mapped_index mp = Some v.
Proof.
  intros Hrange. revert emb tc Hrange.
  induction entries as [|[cid0 v0] entries IH]; intros emb tc Hrange Hnodup Hin Hcid Hinj.
  - by apply not_elem_of_nil in Hin.
  - cbn in Hnodup. apply NoDup_cons in Hnodup as [Hfresh Hnodup]. cbn [reconcile].
    apply elem_of_cons in Hin as [[= <- <-]|Hin].
    + rewrite Hcid. rewrite reconcile_lookup_other.
      * apply array_set_lookup_eq. by eapply Hrange.
      * intros cid' mp' Hlook. rewrite array_set_length; by eapply Hrange.
      * intros cid' mp' Hin' Hlook Heq.
        assert (cid' = cid) as -> by (eapply Hinj; [by right|done..]).
        done.
    + assert (Hinj' : ∀ cid' mp', cid' ∈ entries.*1 → mapping !! cid' = Some mp' →
                                  mapped_index mp' = mapped_index mp → cid' = cid).
      { intros cid' mp' Hin'. apply Hinj. by right. }
      destruct (mapping !! cid0) as [mp0|] eqn:Hcid0.
      * apply IH; [|done..].
        intros cid' mp' Hlook. rewrite array_set_length; by eapply Hrange.
      * by apply IH.
Qed.

Section BatchApi.
Context {R : Type} (env : Env) (embed : string → vector).
Context (mk : string → MemoryChunk → R) (view : R → BatchRequest).
Context (source : MemorySource) (entry : FileEntry).

Hypothesis mk_custom_id : ∀ cid c, custom_id (view (mk cid c)) = cid.
Hypothesis mk_text : ∀ cid c, request_text (view (mk cid c)) = text c.

Lemma build_requests_run missing requests mapping :
  build_requests env mk source entry missing requests mapping
  = (requests ++ (request_of env mk source entry <$> missing),
     foldl (remember env source entry) mapping missing).
Proof.
  revert requests mapping. induction missing as [|m missing IH]; intros requests mapping.
  - cbn. by rewrite app_nil_r.
  - cbn [build_requests]. rewrite IH. cbn. by rewrite <- app_assoc.
Qed.

Lemma remember_other missing (mapping : gmap string Mapped) cid :
  cid ∉ customIdOf env source entry <$> missing →
  foldl (remember env source entry) mapping missing !! cid = mapping !! cid.
Proof.
  revert mapping. induction missing as [|m missing IH]; intros mapping Hcid; [done|].
  cbn [foldl]. rewrite IH.
  - unfold remember. apply lookup_insert_ne. intros Heq. apply Hcid. cbn. rewrite Heq. by left.
  - intros Hin. apply Hcid. cbn. by right.
Qed.

Lemma remember_lookup missing (mapping : gmap string Mapped) m :
  NoDup (customIdOf env source entry <$> missing) →
  m ∈ missing →
  foldl (remember env source entry) mapping missing !! customIdOf env source entry m
  = Some {| mapped_index := index m; mapped_hash := hash (chunk m) |}.
Proof.
  revert mapping. induction missing as [|m0 missing IH]; intros mapping Hnodup Hm.
  - by apply not_elem_of_nil in Hm.
  - cbn in Hnodup. apply NoDup_cons in Hnodup as [Hfresh Hnodup]. cbn [foldl].
    apply elem_of_cons in Hm as [->|Hm].
    + rewrite remember_other by done. unfold remember. apply lookup_insert_eq.
    + by apply IH.
Qed.

(** A map that answers every request gives each missing chunk the
    vector of its text, as the writes in order would. *)
Lemma reconcile_answers missing entries emb tc :
  NoDup (customIdOf env source entry <$> missing) →
  NoDup (index <$> missing) →
  (∀ m, m ∈ missing → (index m < length emb)%nat) →
  answers_all view embed (request_of env mk source entry <$> missing) entries →
  (reconcile (foldl (remember env source entry) ∅ missing) entries emb tc).1
  = (put_writes (miss_write embed <$> missing) (emb, tc)).1.
Proof.
  intros Hids Hidx Hrange [Hnodup Hans].
  set (mapping := foldl (remember env source entry) ∅ missing).
  assert (Hmap : ∀ cid mp, mapping !! cid = Some mp →
            ∃ m, m ∈ missing ∧ customIdOf env source entry m = cid ∧
                 mp = {| mapped_index := index m; mapped_hash := hash (chunk m) |}).
  { intros cid mp Hlook. apply remember_lookup_inv in Hlook as [Hlook|Hm]; [|done].
    by rewrite lookup_empty in Hlook. }
  assert (Hin_range : ∀ cid mp, mapping !! cid = Some mp → (mapped_index mp < length emb)%nat).
  { intros cid mp (m & Hm & _ & ->)%Hmap. cbn. by apply Hrange. }
  assert (Hwr_range : ∀ wr, wr ∈ miss_write embed <$> missing →
                            (wr.1.1 < length (emb, tc).1)%nat).
  { intros wr (m & -> & Hm)%list_elem_of_fmap. cbn. by apply Hrange. }
  apply list_eq. intros j.
  destruct (decide (j ∈ index <$> missing)) as [Hj|Hj].
  - apply list_elem_of_fmap in Hj as (m & -> & Hm).
    rewrite (put_writes_lookup _ _ (miss_write embed m));
      [|done|by rewrite <- list_fmap_compose|apply list_elem_of_fmap; eauto].
    cbn [miss_write snd].
    pose proof (remember_lookup missing ∅ m Hids Hm) as Hlook. fold mapping in Hlook.
    assert (Hentry : (customIdOf env source entry m, embed (text (chunk m))) ∈ entries).
    { assert (Hcid : custom_id (view (request_of env mk source entry m))
                     = customIdOf env source entry m) by apply mk_custom_id.
      assert (Htext : request_text (view (request_of env mk source entry m))
                      = text (chunk m)) by apply mk_text.
      rewrite <- Hcid, <- Htext. apply Hans. apply list_elem_of_fmap. eauto. }
    apply (reconcile_lookup_entry mapping entries emb tc _ _ _ Hin_range Hnodup Hentry Hlook).
    intros cid' mp' _ (m' & Hm' & Hcid' & ->)%Hmap Heq. cbn in Heq.
    by rewrite <- Hcid', (NoDup_fmap_elem_inj index missing m' m Hidx Hm' Hm Heq).
  - rewrite put_writes_lookup_other; [|done|by rewrite <- list_fmap_compose].
    apply reconcile_lookup_other; [done|].
    intros cid mp _ (m & Hm & _ & ->)%Hmap Heq. cbn in Heq. apply Hj.
    apply list_elem_of_fmap. eauto.
Qed.

Context (providerName : string).
Context (runner : list Event → list R → BatchConfig → Res BatchResult).
Hypothesis runner_ok : runner_answers view embed runner.

Lemma submit_run requests w :
  submit view runner requests w
  = (runner (events w) requests (batch (self w)),
     add_event (EvRunBatch (view <$> requests)) w).
Proof. reflexivity. Qed.

(** A submission leaves the service alone; if it succeeds, every request
    is answered; if it fails, the error is one that the [catch] block of
    [runBatchWithFallback] can record. *)
Lemma submission_outcome requests w :
  NoDup ((fun r => custom_id (view r)) <$> requests) →
  let r := runBatchWithTimeoutRetry env providerName (submit view runner requests) w in
  self r.2 = self w ∧
  (∀ result, r.1 = Ok result →
     ∃ entries, result = ByCustomId entries ∧ answers_all view embed requests entries) ∧
  (∀ err, r.1 = Throw err → nullish err = false).
Proof.
  intros Hreq. unfold runBatchWithTimeoutRetry, try_catch. rewrite submit_run.
  destruct (runner_ok (events w) requests (batch (self w)) Hreq)
    as [(e & He & Hobj)|(entries & Hok & Hall)].
  - rewrite He. destruct (isBatchTimeoutError (message e)).
    2:{ split; [done|]. split; [done|]. by intros err [= <-]. }
    rewrite submit_run. cbn [self add_event events].
    set (hist := _ :: events w).
    destruct (runner_ok hist requests (batch (self w)) Hreq)
      as [(e' & He' & Hobj')|(entries & Hok' & Hall)].
    + rewrite He'. destruct e'; cbn; (split; [done|]); (split; [done|]);
        by intros err [= <-].
    + rewrite Hok'. split; [done|]. split; [|done].
      intros result [= <-]. by exists entries.
  - rewrite Hok. split; [done|]. split; [|done].
    intros result [= <-]. by exists entries.
Qed.

Lemma embedChunksWithBatchApi_run chunks w :
  provider_answers env embed →
  custom_ids_distinct env source entry chunks →
  ∃ w', embedChunksWithBatchApi env providerName mk view runner chunks entry source w
        = (Ok (embedding_for env (self w) embed <$> chunks), w').
Proof.
  intros Hans Hids. unfold embedChunksWithBatchApi.
  destruct (Nat.eqb (length chunks) 0) eqn:Hn.
  { apply length_zero_iff_nil in Hn. subst. by exists w. }
  unfold bind at 1. unfold get_self. fold (scan_file env (self w) chunks).
  pose proof (put_writes_scan env (self w) embed chunks []) as Hfinal.
  pose proof (scan_file_missing env (self w) chunks) as Hmiss.
  pose proof (scan_chunks_index_lt env (self w) chunks) as Hrange.
  destruct (scan_file env (self w) chunks) as [embeddings missing].
  cbn [fst snd] in Hfinal, Hmiss, Hrange.
  destruct (Nat.eqb (length missing) 0) eqn:Hm.
  { apply length_zero_iff_nil in Hm. rewrite Hm in Hfinal. cbn in Hfinal.
    rewrite <- Hfinal. by exists w. }
  assert (Hnodup : NoDup (customIdOf env source entry <$> missing)).
  { eapply sublist_NoDup; [exact Hids|]. rewrite Hmiss.
    apply fmap_sublist, misses_from_sublist. }
  rewrite build_requests_run. cbn [app].
  fold (submit view runner (request_of env mk source entry <$> missing)).
  destruct (enabled (batch (self w))) eqn:Hon.
  - assert (Hreq : NoDup ((fun r => custom_id (view r)) <$>
                            (request_of env mk source entry <$> missing))).
    { rewrite <- list_fmap_compose.
      rewrite (list_fmap_ext _ (customIdOf env source entry) missing); [done|].
      intros i m _. apply mk_custom_id. }
    pose proof (submission_outcome (request_of env mk source entry <$> missing) w Hreq)
      as (Hself & Hresult & Hobj).
    destruct (runBatchWithTimeoutRetry env providerName
                (submit view runner (request_of env mk source entry <$> missing)) w)
      as [[result|err] w1] eqn:Hsub; cbn [fst snd] in Hself, Hresult, Hobj.
    + unfold bind at 1.
      rewrite (runBatchWithFallback_success _ _ _ _ _ _ _ Hon Hsub).
      destruct (Hresult result eq_refl) as (entries & -> & Hall).
      pose proof (reconcile_answers missing entries embeddings [] Hnodup) as Hrec.
      destruct (reconcile _ entries embeddings []) as [embeddings' toCache].
      unfold bind. rewrite upsertEmbeddingCache_returns. cbn [ret].
      eexists. rewrite <- Hfinal, <- Hrec; [reflexivity| |done|done].
      * rewrite Hmiss. apply misses_from_NoDup.
    + unfold bind at 1.
      rewrite (runBatchWithFallback_failure _ _ _ _ _ _ _ Hon Hsub (Hobj err eq_refl)).
      set (w2 := snd (recordBatchFailure _ w1)).
      destruct (embedChunksInBatches_run env embed chunks w2 Hans) as (w3 & Hrun).
      rewrite Hrun. cbn [as_fallback]. unfold ret. exists w3. do 2 f_equal.
      apply list_fmap_ext. intros _ c _. apply embedding_for_ext.
      assert (Hsame : same_cache (self w2) (self w1)).
      { subst w2.
        apply (preserves_recordBatchFailure (fun w' => same_cache (self w') (self w1))).
        - by intros ???? (?&?&?&?).
        - by intros ? (?&?&?&?).
        - done. }
      by rewrite Hself in Hsame.
  - unfold bind at 1. rewrite (runBatchWithFallback_disabled _ _ _ _ _ Hon).
    destruct (embedChunksInBatches_run env embed chunks w Hans) as (w3 & Hrun).
    rewrite Hrun. cbn [as_fallback]. by exists w3.
Qed.

End BatchApi.

Lemma embedChunksForFile_run env embed chunks entry source w :
  provider_answers env embed →
  runners_answer env embed →
  custom_ids_distinct env source entry chunks →
  ∃ w', embedChunksForFile env chunks entry source w
        = (Ok (embedding_for env (self w) embed <$> chunks), w').
Proof.
  intros Hans [Hopenai Hgemini] Hids.
  unfold embedChunksForFile. unfold bind at 1. unfold get_self.
  destruct (enabled (batch (self w))); [|by apply embedChunksInBatches_run].
  unfold embedChunksWithBatch. unfold bind at 1. unfold get_self.
  destruct (_ && _).
  - unfold embedChunksWithOpenAiBatch. unfold bind at 1. unfold get_self.
    destruct (openAi (self w)) as [client|]; [|by apply embedChunksInBatches_run].
    by apply embedChunksWithBatchApi_run.
  - destruct (_ && _); [|by apply embedChunksInBatches_run].
    unfold embedChunksWithGeminiBatch. unfold bind at 1. unfold get_self.
    destruct (gemini (self w)) as [client|]; [|by apply embedChunksInBatches_run].
    by apply embedChunksWithBatchApi_run.
Qed.

(** What a batch path returns when the first attempt of its submission
    resolves: the runner's array as it is, or the array reconciled from
    the runner's map. *)
Lemma embedChunksWithBatchApi_resolved {R} env name (mk : string → MemoryChunk → R)
    view runner chunks entry source w result :
  enabled (batch (self w)) = true →
  (scan_file env (self w) chunks).2 ≠ [] →
  runner (events w)
    (request_of env mk source entry <$> (scan_file env (self w) chunks).2)
    (batch (self w)) = Ok result →
  let missing := (scan_file env (self w) chunks).2 in
  let requests := request_of env mk source entry <$> missing in
  let w1 := {| self := set_failure 0 None None (self w);
               events := EvRunBatch (view <$> requests) :: events w;
               now := now w |} in
  embedChunksWithBatchApi env name mk view runner chunks entry source w
  = match result with
    | Vectors array => (Ok array, w1)
    | ByCustomId entries =>
        let out := reconcile (foldl (remember env source entry) ∅ missing) entries
                     (scan_file env (self w) chunks).1 [] in
        (Ok out.1, snd (upsertEmbeddingCache env out.2 w1))
    end.
Proof.
  intros Hon Hmiss Hrun missing requests w1. subst missing requests w1.
  unfold embedChunksWithBatchApi.
  destruct (Nat.eqb (length chunks) 0) eqn:Hn.
  { apply length_zero_iff_nil in Hn. by subst. }
  unfold bind at 1. unfold get_self. fold (scan_file env (self w) chunks).
  destruct (scan_file env (self w) chunks) as [embeddings missing]. cbn [fst snd] in *.
  destruct (Nat.eqb (length missing) 0) eqn:Hm.
  { by apply length_zero_iff_nil in Hm. }
  rewrite (build_requests_run env mk source entry). cbn [app].
  fold (submit view runner (request_of env mk source entry <$> missing)).
  assert (Hsub : runBatchWithTimeoutRetry env name
                   (submit view runner (request_of env mk source entry <$> missing)) w
                 = (Ok result,
                    add_event (EvRunBatch (view <$> (request_of env mk source entry <$> missing)))
                      w)).
  { unfold runBatchWithTimeoutRetry, try_catch, submit, bind, get_self, ask.
    by rewrite Hrun. }
  unfold bind at 1. rewrite (runBatchWithFallback_success _ _ _ _ _ _ _ Hon Hsub).
  cbn [add_event self events now].
  destruct result as [entries|array]; [|done].
  destruct (reconcile _ entries embeddings []) as [embeddings' toCache]. cbn [fst snd].
  by rewrite (bind_ok _ _ _ _ _ (upsertEmbeddingCache_returns env toCache _)).
Qed.

Lemma env_reversed_answers : runners_answer Scenario.env_reversed Sample.embed.
Proof.
  split; intros client agent hist requests cfg Hreq; right; eexists; (split; [reflexivity|]).
  - split.
    + by rewrite fmap_reverse, <- list_fmap_compose, reverse_Permutation.
    + intros r Hr. apply elem_of_reverse, list_elem_of_fmap. by exists r.
  - split.
    + by rewrite fmap_reverse, <- list_fmap_compose, reverse_Permutation.
    + intros r Hr. apply elem_of_reverse, list_elem_of_fmap. by exists r.
Qed.




(** * A cached chunk is not embedded again *)

Lemma buildEmbeddingBatches_singleton c : buildEmbeddingBatches [c] = [[c]].
Proof.
  unfold buildEmbeddingBatches, pack_finish, pack_step. cbn.
  by destruct (EMBEDDING_BATCH_MAX_TOKENS <? estimateEmbeddingTokens (text c)).
Qed.

Lemma scan_file_singleton env s c :
  scan_file env s [c]
  = if usable_hit (lookup_hit env s c)
    then ([default [] (lookup_hit env s c)], [])
    else ([[]], [ {| index := 0; chunk := c |} ]).
Proof.
  unfold scan_file. cbn [scan_chunks length replicate].
  rewrite (cache_hit_lookup_hit env s [c] c) by by left.
  by destruct (usable_hit (lookup_hit env s c)).
Qed.

Lemma embedChunksInBatches_unfold env chunks w :
  chunks ≠ [] →
  embedChunksInBatches env chunks w
  = (let '(embeddings, missing) := scan_file env (self w) chunks in
     if Nat.eqb (length missing) 0 then ret embeddings
     else
       let* st := embed_bins env missing (buildEmbeddingBatches (chunk <$> missing))
                    {| fill_embeddings := embeddings; fill_toCache := [];
                       fill_cursor := 0 |} in
       upsertEmbeddingCache env (fill_toCache st) ;;
       ret (fill_embeddings st)) w.
Proof. intros Hne. by destruct chunks. Qed.

Lemma embedChunksWithBatchApi_unfold {R} env name (mk : string → MemoryChunk → R)
    view runner chunks entry source w :
  chunks ≠ [] →
  embedChunksWithBatchApi env name mk view runner chunks entry source w
  = (let '(embeddings, missing) := scan_file env (self w) chunks in
     if Nat.eqb (length missing) 0 then ret embeddings
     else
       let '(requests, mapping) := build_requests env mk source entry missing [] ∅ in
       let* batchResult :=
         runBatchWithFallback env name
           (let* s' := get_self in
            ask (fun hist => runner hist requests (batch s'))
              (EvRunBatch (view <$> requests)))
           (embedChunksInBatches env chunks) in
       match batchResult with
       | Vectors array => ret array
       | ByCustomId byCustomId =>
           let '(embeddings', toCache) := reconcile mapping byCustomId embeddings [] in
           upsertEmbeddingCache env toCache ;;
           ret embeddings'
       end) w.
Proof. intros Hne. by destruct chunks. Qed.

(** A chunk the cache serves costs nothing, by any path. *)
Lemma embedChunksInBatches_hit env c w v :
  lookup_hit env (self w) c = Some v → v ≠ [] →
  embedChunksInBatches env [c] w = (Ok [v], w).
Proof.
  intros Hhit Hv. rewrite embedChunksInBatches_unfold by done.
  rewrite scan_file_singleton, Hhit. by destruct v.
Qed.

Lemma embedChunksWithBatchApi_hit {R} env name (mk : string → MemoryChunk → R)
    view runner c entry source w v :
  lookup_hit env (self w) c = Some v → v ≠ [] →
  embedChunksWithBatchApi env name mk view runner [c] entry source w = (Ok [v], w).
Proof.
  intros Hhit Hv. rewrite embedChunksWithBatchApi_unfold by done.
  rewrite scan_file_singleton, Hhit. by destruct v.
Qed.

Lemma embedChunksForFile_hit env c entry source w v :
  lookup_hit env (self w) c = Some v → v ≠ [] →
  embedChunksForFile env [c] entry source w = (Ok [v], w).
Proof.
  intros Hhit Hv.
  unfold embedChunksForFile. unfold bind at 1. unfold get_self.
  destruct (enabled (batch (self w))); [|by apply embedChunksInBatches_hit].
  unfold embedChunksWithBatch. unfold bind at 1. unfold get_self.
  destruct (_ && _).
  - unfold embedChunksWithOpenAiBatch. unfold bind at 1. unfold get_self.
    destruct (openAi (self w)); [|by apply embedChunksInBatches_hit].
    by apply embedChunksWithBatchApi_hit.
  - destruct (_ && _); [|by apply embedChunksInBatches_hit].
    unfold embedChunksWithGeminiBatch. unfold bind at 1. unfold get_self.
    destruct (gemini (self w)); [|by apply embedChunksInBatches_hit].
    by apply embedChunksWithBatchApi_hit.
Qed.

(** ** What a write to the cache leaves behind *)

Lemma upsert_row_last new t :
  ∃ r, last (filter (same_key (row_provider new) (row_model new) (provider_key new)
                       (row_hash new)) (upsert_row new t)) = Some r ∧
       embedding r = embedding new ∧ dims r = dims new.
Proof.
  unfold upsert_row.
  set (hit := same_key (row_provider new) (row_model new) (provider_key new) (row_hash new)).
  destruct (decide (Exists hit t)) as [Hex|Hnew].
  - induction t as [|x t IH] using rev_ind.
    + by apply Exists_nil in Hex.
    + rewrite fmap_app, filter_app. cbn [fmap list_fmap].
      destruct (decide (hit x)) as [Hx|Hx].
      * rewrite filter_cons_True; [|done]. rewrite filter_nil, last_snoc. eauto.
      * rewrite filter_cons_False by done. rewrite filter_nil, app_nil_r.
        apply IH. apply Exists_app in Hex as [Hex|Hex]; [done|].
        apply Exists_cons in Hex as [?|Hex]; [done|]. by apply Exists_nil in Hex.
  - rewrite filter_app. rewrite filter_cons_True; [|done]. rewrite filter_nil, last_snoc.
    eauto.
Qed.

Lemma upsertEmbeddingCache_one env h v w :
  cache_enabled (cache (self w)) = true →
  let w' := snd (upsertEmbeddingCache env [ {| entry_hash := h; entry_embedding := v |} ] w) in
  cached_vector env (self w') h = Some (parseEmbedding env (JSON_stringify env v)) ∧
  events w' = events w ∧
  ∃ r, last (filter (same_key (id (provider (self w))) (model (provider (self w)))
                       (providerKey (self w)) h) (table (db (self w')))) = Some r ∧
       embedding r = JSON_stringify env v ∧ dims r = Some (Z.of_nat (length v)).
Proof.
  intros Hon w'.
  set (new := {| rowid := 0;
                 row_provider := id (provider (self w));
                 row_model := model (provider (self w));
                 provider_key := providerKey (self w);
                 row_hash := h;
                 embedding := JSON_stringify env v;
                 dims := Some (Z.of_nat (length v));
                 updated_at := clock env (events w) (now w) |}).
  assert (Hw' : w' = with_db (set_table (upsert_row new (table (db (self w)))) (db (self w))) w).
  { subst w'. unfold upsertEmbeddingCache, bind, get_self, Date_now, modify_self.
    by rewrite Hon. }
  destruct (upsert_row_last new (table (db (self w)))) as (r & Hlast & Hemb & Hdims).
  cbn [row_provider row_model provider_key row_hash new] in Hlast.
  rewrite Hw'. split; [|split; [done|]].
  - unfold cached_vector.
    cbn [with_db self set_db set_table cache provider providerKey db table].
    rewrite Hon, Hlast. cbn. by rewrite Hemb.
  - exists r. cbn [with_db self set_db set_table db table]. by rewrite Hlast.
Qed.

(** The first call on a chunk that the cache does not serve: one bin, one
    vector, one write to the cache. *)
Lemma embedChunksInBatches_miss env c w :
  usable_hit (lookup_hit env (self w) c) = false →
  embedChunksInBatches env [c] w
  = match embedBatchWithRetry env [text c] w with
    | (Ok vs, w') =>
        (Ok [default [] (vs !! 0%nat)],
         snd (upsertEmbeddingCache env
                [ {| entry_hash := hash c; entry_embedding := default [] (vs !! 0%nat) |} ] w'))
    | (Throw e, w') => (Throw e, w')
    end.
Proof.
  intros Hmiss. rewrite embedChunksInBatches_unfold by done.
  rewrite scan_file_singleton, Hmiss. cbn [length Nat.eqb fmap list_fmap chunk].
  rewrite buildEmbeddingBatches_singleton. cbn [embed_bins fmap list_fmap].
  unfold bind at 1. unfold bind at 1.
  destruct (embedBatchWithRetry env [text c] w) as [[vs|e] w']; [|done].
  cbn. unfold bind. by rewrite upsertEmbeddingCache_returns.
Qed.

Lemma embedBatchWithRetry_self env texts w :
  self (snd (embedBatchWithRetry env texts w)) = self w.
Proof.
  by apply (preserves_embedBatchWithRetry (fun x => self x = self w)).
Qed.

Lemma usable_hit_Some v : v ≠ [] → usable_hit (Some v) = true.
Proof. by destruct v. Qed.

(** C9, as the code has it.  Let the cache be on and the chunk's hash
    non-empty, and let a first [embedChunksInBatches] on the chunk return
    a non-empty vector [v] that parsing gives back from its JSON text.
    Then a second call with the same chunk on the same service, by
    [embedChunksInBatches] or by [embedChunksForFile], returns [v] and
    leaves the world as it is: no provider call, no batch submission, no
    write.  If the first call was a miss that the provider answered at
    once, it made exactly one provider call, and that is the only one of
    the two calls together. *)
Theorem cached_chunk_is_not_embedded_again
    (env : Env) (c : MemoryChunk) (w : World) (v : vector) (w1 : World) :
  cache_enabled (cache (self w)) = true →
  Js.truthy (hash c) = true →
  embedChunksInBatches env [c] w = (Ok [v], w1) →
  v ≠ [] →
  parseEmbedding env (JSON_stringify env v) = v →
  embedChunksInBatches env [c] w1 = (Ok [v], w1) ∧
  (∀ entry source, embedChunksForFile env [c] entry source w1 = (Ok [v], w1)) ∧
  (usable_hit (lookup_hit env (self w) c) = false →
   (∃ vs, embedBatch env (events w) [text c] = Ok vs) →
   provider_calls w1 = S (provider_calls w) ∧
   provider_calls (snd (embedChunksInBatches env [c] w1)) = S (provider_calls w)).
Proof.
  intros Hon Hhash Hfirst Hv Hcodec.
  assert (Hhit : lookup_hit env (self w1) c = Some v).
  { destruct (usable_hit (lookup_hit env (self w) c)) eqn:Hu.
    - destruct (lookup_hit env (self w) c) as [v0|] eqn:Hv0; [|done].
      assert (v0 ≠ []) by (by destruct v0).
      rewrite (embedChunksInBatches_hit env c w v0) in Hfirst by done.
      by injection Hfirst as <- <-.
    - rewrite (embedChunksInBatches_miss env c w Hu) in Hfirst.
      pose proof (embedBatchWithRetry_self env [text c] w) as Hself.
      destruct (embedBatchWithRetry env [text c] w) as [[vs|e] w'] eqn:Hcall; [|done].
      cbn [snd] in Hself. injection Hfirst as Hvs Hw1. rewrite Hvs in Hw1.
      destruct (upsertEmbeddingCache_one env (hash c) v w') as (Hcached & _).
      { by rewrite Hself. }
      rewrite Hw1 in Hcached. unfold lookup_hit. by rewrite Hhash, Hcached, Hcodec. }
  split; [by apply embedChunksInBatches_hit|].
  split; [intros entry source; by apply embedChunksForFile_hit|].
  intros Hmiss [vs Hvs].
  rewrite (embedChunksInBatches_hit env c w1 v Hhit Hv). cbn [snd].
  rewrite (embedChunksInBatches_miss env c w Hmiss) in Hfirst.
  rewrite (embedBatchWithRetry_nonempty env [text c] w) in Hfirst by done.
  change RETRY_FUEL with 4%nat in Hfirst.
  rewrite (retry_loop_ok _ _ _ _ _ _ _ Hvs) in Hfirst.
  injection Hfirst as _ Hw1.
  destruct (upsertEmbeddingCache_one env (hash c) (default [] (vs !! 0%nat))
              (add_event (EvEmbedBatch [text c]) w)) as (_ & Hevents & _); [done|].
  rewrite Hw1 in Hevents. unfold provider_calls. by rewrite Hevents.
Qed.

Lemma cached_chunk_is_not_embedded_again_witness :
  let c := Sample.chunk_of "alpha" "h1" in
  let w := Sample.world true false 0 [] in
  let w1 := snd (embedChunksInBatches Sample.env [c] w) in
  embedChunksInBatches Sample.env [c] w1 = (Ok [[5; 1]], w1) ∧
  provider_calls w1 = 1%nat ∧
  provider_calls (snd (embedChunksInBatches Sample.env [c] w1)) = 1%nat.
Proof.
  intros c w w1.
  destruct (cached_chunk_is_not_embedded_again Sample.env c w [5; 1] w1)
    as (Hsecond & _ & Hcalls).
  - reflexivity.
  - reflexivity.
  - vm_compute. reflexivity.
  - discriminate.
  - reflexivity.
  - split; [exact Hsecond|]. apply Hcalls; [reflexivity|]. by eexists.
Defined.

(** The claim as written fails for a service without cache, for a chunk
    without hash, and for a provider that returns an empty vector: each
    time the second call goes to the provider again. *)
Lemma same_chunk_embedded_twice :
  let twice env c w :=
    provider_calls
      (snd (embedChunksInBatches env [c] (snd (embedChunksInBatches env [c] w)))) in
  twice Sample.env (Sample.chunk_of "alpha" "h1") (Sample.world false false 0 []) = 2%nat ∧
  twice Sample.env (Sample.chunk_of "alpha" "") (Sample.world true false 0 []) = 2%nat ∧
  twice Sample.env_empty_vectors (Sample.chunk_of "alpha" "h1")
    (Sample.world true false 0 []) = 2%nat.
Proof. vm_compute. repeat split. Qed.

(** * What counts as a cache hit *)

Lemma usable_hit_served env s c : usable_hit (lookup_hit env s c) = true ↔ served env s c.
Proof.
  unfold served, lookup_hit. destruct (Js.truthy (hash c)); cbn.
  - destruct (cached_vector env s (hash c)) as [v|]; cbn.
    + destruct v; cbn; split; try done.
      * by intros [_ (v' & [= <-] & Hv)].
      * intros _. split; [done|]. eexists. split; [done|]. discriminate.
    + split; [done|]. by intros [_ (v & ? & _)].
  - split; [done|]. by intros [? _].
Qed.

Lemma scan_file_classify env s chunks i c :
  chunks !! i = Some c →
  ({| index := i; chunk := c |} ∈ (scan_file env s chunks).2 ↔ ¬ served env s c) ∧
  (served env s c → (scan_file env s chunks).1 !! i = cached_vector env s (hash c)).
Proof.
  intros Hc.
  assert (Hin : c ∈ chunks) by by eapply list_elem_of_lookup_2.
  pose proof (cache_hit_lookup_hit env s chunks c Hin) as Hhit.
  rewrite <- usable_hit_served. split.
  - rewrite scan_file_missing, misses_from_elem. cbn. rewrite Hhit. split.
    + intros (k & _ & _ & Hu). by rewrite Hu.
    + intros Hu. exists i. split; [done|]. split; [done|]. by destruct (usable_hit _).
  - intros Hu. unfold scan_file.
    rewrite (scan_chunks_lookup _ chunks 0 _ _ i c); [|rewrite length_replicate; lia|done].
    rewrite Hhit, Hu. unfold lookup_hit in *.
    destruct (Js.truthy (hash c)); [|done].
    by destruct (cached_vector env s (hash c)).
Qed.

(** ** The inline path sends the misses to the provider *)

Lemma sent_texts_embed texts w :
  sent_texts (events (add_event (EvEmbedBatch texts) w)) = sent_texts (events w) ++ texts.
Proof. reflexivity. Qed.

Lemma embedBatchWithRetry_up env texts w :
  provider_up env →
  ∃ vs w', embedBatchWithRetry env texts w = (Ok vs, w') ∧
           sent_texts (events w') = sent_texts (events w) ++ texts.
Proof.
  intros Hup. unfold embedBatchWithRetry.
  destruct (Nat.eqb (length texts) 0) eqn:Hn.
  - apply length_zero_iff_nil in Hn. subst. exists [], w. by rewrite app_nil_r.
  - destruct (Hup (events w) texts) as [vs Hvs].
    exists vs, (add_event (EvEmbedBatch texts) w). split; [|done].
    by apply retry_loop_ok.
Qed.

Lemma embed_bins_up env missing bins st w :
  provider_up env →
  ∃ st' w', embed_bins env missing bins st w = (Ok st', w') ∧
            sent_texts (events w') = sent_texts (events w) ++ (text <$> concat bins).
Proof.
  intros Hup. revert st w. induction bins as [|bin bins IH]; intros st w.
  - exists st, w. by rewrite app_nil_r.
  - cbn [embed_bins concat].
    destruct (embedBatchWithRetry_up env (text <$> bin) w Hup) as (vs & w1 & Hcall & Hsent).
    rewrite (bind_ok _ _ _ _ _ Hcall).
    destruct (fill_batch _ _ _ _ _ _ _) as [embeddings toCache].
    destruct (IH {| fill_embeddings := embeddings; fill_toCache := toCache;
                    fill_cursor := (fill_cursor st + length bin)%nat |} w1)
      as (st' & w' & Hrun & Hsent').
    exists st', w'. split; [done|]. by rewrite Hsent', Hsent, fmap_app, app_assoc.
Qed.

Lemma upsertEmbeddingCache_events env entries w :
  events (snd (upsertEmbeddingCache env entries w)) = events w.
Proof.
  by apply (preserves_upsertEmbeddingCache (fun x => events x = events w)).
Qed.

Lemma embedChunksInBatches_sends env chunks w :
  provider_up env →
  sent_texts (events (snd (embedChunksInBatches env chunks w)))
  = sent_texts (events w) ++ ((fun m => text (chunk m)) <$> (scan_file env (self w) chunks).2).
Proof.
  intros Hup. destruct chunks as [|c0 chunks0] eqn:Hchunks.
  { cbn. by rewrite app_nil_r. }
  rewrite <- Hchunks. rewrite embedChunksInBatches_unfold by by subst.
  destruct (scan_file env (self w) chunks) as [embeddings missing]. cbn [snd].
  destruct (Nat.eqb (length missing) 0) eqn:Hm.
  { apply length_zero_iff_nil in Hm. subst missing. cbn. by rewrite app_nil_r. }
  destruct (embed_bins_up env missing (buildEmbeddingBatches (chunk <$> missing))
              {| fill_embeddings := embeddings; fill_toCache := []; fill_cursor := 0 |}
              w Hup) as (st' & w' & Hrun & Hsent).
  rewrite (bind_ok _ _ _ _ _ Hrun). unfold bind.
  rewrite upsertEmbeddingCache_returns. cbn [ret snd].
  rewrite upsertEmbeddingCache_events, Hsent.
  destruct (buildEmbeddingBatches_spec (chunk <$> missing)) as [-> _].
  by rewrite <- list_fmap_compose.
Qed.

(** ** The batch paths submit the misses *)

Lemma bind_reaches {A B} (P : World → Prop) (m : M A) (k : A → M B) w :
  P (snd (m w)) → (∀ a, preserves P (k a)) → P (snd (bind m k w)).
Proof.
  intros Hm Hk. unfold bind. destruct (m w) as [[a|e] w1]; cbn in *; [by apply Hk|done].
Qed.

Lemma try_catch_reaches {A} (P : World → Prop) (m : M A) (h : JsValue → M A) w :
  P (snd (m w)) → (∀ e, preserves P (h e)) → P (snd (try_catch m h w)).
Proof.
  intros Hm Hh. unfold try_catch.
  destruct (m w) as [[a|e] w1]; cbn in *; [done|by apply Hh].
Qed.

Section Submission.
Context {R : Type} (env : Env).
Context (mk : string → MemoryChunk → R) (view : R → BatchRequest).
Context (source : MemorySource) (entry : FileEntry).
Context (providerName : string).
Context (runner : list Event → list R → BatchConfig → Res BatchResult).
Hypothesis mk_text : ∀ cid c, request_text (view (mk cid c)) = text c.

Lemma submitted_first_db w0 reqs w d :
  submitted_first w0 reqs w → submitted_first w0 reqs (with_db d w).
Proof. done. Qed.

Lemma submitted_first_event w0 reqs w e :
  submitted_first w0 reqs w → submitted_first w0 reqs (add_event e w).
Proof. intros [later Hl]. exists (e :: later). cbn. by rewrite Hl. Qed.

Lemma embedChunksWithBatchApi_submits chunks w :
  enabled (batch (self w)) = true →
  (scan_file env (self w) chunks).2 ≠ [] →
  ∃ requests,
    request_text <$> requests = (fun m => text (chunk m)) <$> (scan_file env (self w) chunks).2 ∧
    submitted_first w requests
      (snd (embedChunksWithBatchApi env providerName mk view runner chunks entry source w)).
Proof.
  intros Hon Hmiss.
  assert (Hne : chunks ≠ []).
  { intros ->. by apply Hmiss. }
  rewrite embedChunksWithBatchApi_unfold by done.
  destruct (scan_file env (self w) chunks) as [embeddings missing]. cbn [snd] in *.
  destruct (Nat.eqb (length missing) 0) eqn:Hm.
  { apply length_zero_iff_nil in Hm. done. }
  rewrite (build_requests_run env mk source entry). cbn [app].
  set (requests := request_of env mk source entry <$> missing).
  exists (view <$> requests). split.
  { subst requests. rewrite <- !list_fmap_compose. apply list_fmap_ext.
    intros _ m _. cbn. apply mk_text. }
  set (P := submitted_first w (view <$> requests)).
  assert (P_db : ∀ x d, P x → P {| self := set_db d (self x); events := events x;
                                    now := now x |}) by done.
  assert (P_event : ∀ x e, is_run_batch e = false →
                           P x → P {| self := self x; events := e :: events x;
                                      now := now x |}).
  { intros x e _. apply submitted_first_event. }
  assert (P_failure : ∀ x n e p, P x → P {| self := set_failure n e p (self x);
                                             events := events x; now := now x |}) by done.
  assert (P_disable : ∀ x, P x → P {| self := set_batch_enabled false (self x);
                                       events := events x; now := now x |}) by done.
  assert (Hsubmit : preserves P
            (let* s' := get_self in
             ask (fun hist => runner hist requests (batch s'))
               (EvRunBatch (view <$> requests)))).
  { intros x Hx. by apply submitted_first_event. }
  apply bind_reaches.
  - unfold runBatchWithFallback. unfold bind at 1. unfold get_self. rewrite Hon.
    cbn [negb]. apply try_catch_reaches.
    + apply bind_reaches.
      * unfold runBatchWithTimeoutRetry. apply try_catch_reaches.
        -- by exists [].
        -- intros e. apply preserves_if; [|apply preserves_throw].
           apply preserves_try_catch; [done|intros retryErr].
           apply preserves_bind; [apply preserves_lift|intros ?; apply preserves_throw].
      * intros result. apply preserves_bind; [|intros _; apply preserves_ret].
        by apply preserves_resetBatchFailureCount.
    + intros e. apply preserves_bind; [apply preserves_lift|intros tag].
      apply preserves_bind; [by apply preserves_recordBatchFailure|].
      intros _. apply preserves_bind; [|intros ?; apply preserves_ret].
      by apply preserves_embedChunksInBatches.
  - intros [byCustomId|array]; [|apply preserves_ret].
    destruct (reconcile _ _ _ _) as [embeddings' toCache].
    apply preserves_bind; [|intros _; apply preserves_ret].
    by apply preserves_upsertEmbeddingCache.
Qed.

End Submission.

Lemma embedChunksWithOpenAiBatch_submits env chunks entry source w client :
  enabled (batch (self w)) = true →
  openAi (self w) = Some client →
  (scan_file env (self w) chunks).2 ≠ [] →
  ∃ requests,
    request_text <$> requests = (fun m => text (chunk m)) <$> (scan_file env (self w) chunks).2 ∧
    submitted_first w requests (snd (embedChunksWithOpenAiBatch env chunks entry source w)).
Proof.
  intros Hon Hclient Hmiss. unfold embedChunksWithOpenAiBatch.
  unfold bind at 1. unfold get_self. rewrite Hclient.
  by apply embedChunksWithBatchApi_submits.
Qed.

Lemma embedChunksWithGeminiBatch_submits env chunks entry source w client :
  enabled (batch (self w)) = true →
  gemini (self w) = Some client →
  (scan_file env (self w) chunks).2 ≠ [] →
  ∃ requests,
    request_text <$> requests = (fun m => text (chunk m)) <$> (scan_file env (self w) chunks).2 ∧
    submitted_first w requests (snd (embedChunksWithGeminiBatch env chunks entry source w)).
Proof.
  intros Hon Hclient Hmiss. unfold embedChunksWithGeminiBatch.
  unfold bind at 1. unfold get_self. rewrite Hclient.
  by apply embedChunksWithBatchApi_submits.
Qed.

(** C10. In the inline path and in both batch paths a chunk counts as a
    cache hit only if its hash is non-empty and the cache holds a
    non-empty vector for it.
    - The split that every path starts with puts chunk [i] among the
      misses exactly when it is not so served, and otherwise fills slot
      [i] with the cached vector.
    - The inline path, with the provider up, sends the texts of the
      misses to the provider, in order, and nothing else.
    - The OpenAI and the Gemini batch path, with misses and the batch API
      on, first submit a batch whose requests are the texts of the misses.
    - [upsertEmbeddingCache] does store an empty vector (a row whose
      embedding is the JSON text of [[]], with [dims] 0); a chunk with that
      hash then is still a miss. *)
Theorem empty_hash_or_vector_is_a_miss (env : Env) :
  (∀ s chunks i c,
     chunks !! i = Some c →
     ({| index := i; chunk := c |} ∈ (scan_file env s chunks).2 ↔ ¬ served env s c) ∧
     (served env s c → (scan_file env s chunks).1 !! i = cached_vector env s (hash c))) ∧
  (∀ chunks w,
     provider_up env →
     sent_texts (events (snd (embedChunksInBatches env chunks w)))
     = sent_texts (events w) ++
       ((fun m => text (chunk m)) <$> (scan_file env (self w) chunks).2)) ∧
  (∀ chunks entry source w,
     enabled (batch (self w)) = true →
     (scan_file env (self w) chunks).2 ≠ [] →
     (∀ client, openAi (self w) = Some client →
        ∃ requests,
          request_text <$> requests
          = (fun m => text (chunk m)) <$> (scan_file env (self w) chunks).2 ∧
          submitted_first w requests
            (snd (embedChunksWithOpenAiBatch env chunks entry source w))) ∧
     (∀ client, gemini (self w) = Some client →
        ∃ requests,
          request_text <$> requests
          = (fun m => text (chunk m)) <$> (scan_file env (self w) chunks).2 ∧
          submitted_first w requests
            (snd (embedChunksWithGeminiBatch env chunks entry source w)))) ∧
  (∀ h w,
     cache_enabled (cache (self w)) = true →
     let w' := snd (upsertEmbeddingCache env
                      [ {| entry_hash := h; entry_embedding := [] |} ] w) in
     (∃ r, last (filter (same_key (id (provider (self w))) (model (provider (self w)))
                           (providerKey (self w)) h) (table (db (self w')))) = Some r ∧
           embedding r = JSON_stringify env [] ∧ dims r = Some 0) ∧
     (parseEmbedding env (JSON_stringify env []) = [] →
      ∀ c, hash c = h → ¬ served env (self w') c)).
Proof.
  split; [|split; [|split]].
  - apply scan_file_classify.
  - intros chunks w Hup. by apply embedChunksInBatches_sends.
  - intros chunks entry source w Hon Hmiss. split; intros client Hclient.
    + by eapply embedChunksWithOpenAiBatch_submits.
    + by eapply embedChunksWithGeminiBatch_submits.
  - intros h w Hon w'.
    destruct (upsertEmbeddingCache_one env h [] w Hon) as (Hcached & _ & Hrow).
    split; [exact Hrow|].
    intros Hcodec c <- [_ (v & Hv & Hne)]. fold w' in Hcached.
    rewrite Hcached, Hcodec in Hv. by injection Hv as <-.
Qed.

Lemma empty_hash_or_vector_is_a_miss_witness :
  let rows := [Sample.row 1 "h2" "" 5; Sample.row 2 "h3" "9;9;" 6] in
  let w := Sample.world true true 0 rows in
  let nohash := Sample.chunk_of "alpha" "" in
  let emptyvec := Sample.chunk_of "beta" "h2" in
  let cached := Sample.chunk_of "gamma" "h3" in
  let chunks := [nohash; emptyvec; cached] in
  {| index := 0; chunk := nohash |} ∈ (scan_file Sample.env (self w) chunks).2 ∧
  {| index := 1; chunk := emptyvec |} ∈ (scan_file Sample.env (self w) chunks).2 ∧
  (scan_file Sample.env (self w) chunks).1 !! 2%nat = Some [9; 9] ∧
  sent_texts (events (snd (embedChunksInBatches Sample.env chunks w))) = ["alpha"; "beta"] ∧
  (∃ requests,
     request_text <$> requests = ["alpha"; "beta"] ∧
     submitted_first w requests
       (snd (embedChunksWithOpenAiBatch Sample.env chunks Sample.file SrcMemory w))) ∧
  (∃ requests,
     request_text <$> requests = ["alpha"; "beta"] ∧
     submitted_first w requests
       (snd (embedChunksWithGeminiBatch Sample.env chunks Sample.file SrcMemory w))) ∧
  ¬ served Sample.env
      (self (snd (upsertEmbeddingCache Sample.env
                    [ {| entry_hash := "h9"; entry_embedding := [] |} ] w)))
      (Sample.chunk_of "delta" "h9").
Proof.
  intros rows w nohash emptyvec cached chunks.
  destruct (empty_hash_or_vector_is_a_miss Sample.env) as (Hsplit & Hinline & Hbatch & Hstore).
  assert (Hmisses : (fun m => text (chunk m)) <$> (scan_file Sample.env (self w) chunks).2
                    = ["alpha"; "beta"]) by (vm_compute; reflexivity).
  split; [|split; [|split; [|split; [|split; [|split]]]]].
  - apply (Hsplit (self w) chunks 0%nat nohash); [reflexivity|].
    intros [Hhash _]. discriminate Hhash.
  - apply (Hsplit (self w) chunks 1%nat emptyvec); [reflexivity|].
    intros [_ (v & Hv & Hne)]. vm_compute in Hv. by injection Hv as <-.
  - destruct (Hsplit (self w) chunks 2%nat cached) as [_ Hhit]; [reflexivity|].
    refine (eq_trans (Hhit _) _); [|vm_compute; reflexivity].
    split; [reflexivity|]. exists [9; 9]. split; [vm_compute; reflexivity|discriminate].
  - refine (eq_trans (Hinline chunks w _) Hmisses).
    intros hist texts. eexists. reflexivity.
  - destruct (Hbatch chunks Sample.file SrcMemory w eq_refl) as [Hopenai _].
    + intros Hnil. rewrite Hnil in Hmisses. discriminate Hmisses.
    + destruct (Hopenai _ eq_refl) as (requests & Htexts & Hfirst).
      exists requests. split; [exact (eq_trans Htexts Hmisses)|exact Hfirst].
  - destruct (Hbatch chunks Sample.file SrcMemory w eq_refl) as [_ Hgemini].
    + intros Hnil. rewrite Hnil in Hmisses. discriminate Hmisses.
    + destruct (Hgemini _ eq_refl) as (requests & Htexts & Hfirst).
      exists requests. split; [exact (eq_trans Htexts Hmisses)|exact Hfirst].
  - apply (Hstore "h9" w); reflexivity.
Defined.
(** * Batch errors and the caller *)

Lemma submission_self {R} env name (view : R → BatchRequest) runner requests w :
  self (snd (runBatchWithTimeoutRetry env name (submit view runner requests) w)) = self w.
Proof.
  unfold runBatchWithTimeoutRetry, try_catch, submit, bind, get_self, ask, throw, lift.
  destruct (runner _ _ _) as [r|e]; [done|].
  destruct (isBatchTimeoutError _); [|done]. cbn.
  destruct (runner _ _ _) as [r|e2]; [done|]. by destruct e2.
Qed.

(** What the breaker holds once a failure has been reported to it. *)
Lemma recordBatchFailure_state params w :
  let w2 := snd (recordBatchFailure params w) in
  (enabled (batch (self w)) = true →
   batchFailureCount (self w) < batchFailureCount (self w2) ∧
   batchFailureCount (self w2) = batchFailureCount (self w) + failure_increment params ∧
   batchFailureLastError (self w2) = Some (fail_message params) ∧
   batchFailureLastProvider (self w2) = Some (fail_provider params)) ∧
  (enabled (batch (self w)) = false → w2 = w).
Proof.
  intros w2. subst w2. split; intros Hon.
  - pose proof (failure_increment_pos params) as Hpos.
    rewrite (recordBatchFailure_enabled _ w Hon). cbn -[Z.leb Z.add failure_increment].
    destruct (_ || _); cbn -[Z.leb Z.add failure_increment]; repeat split; lia.
  - by rewrite (recordBatchFailure_disabled _ w Hon).
Qed.

(** In a batch path, a submission that ends in an error other than
    [null] and [undefined] is recorded and the call becomes the inline
    call, run from the world so reached. *)
Lemma embedChunksWithBatchApi_falls_back {R} env name (mk : string → MemoryChunk → R)
    view runner chunks entry source w err w1 :
  enabled (batch (self w)) = true →
  (scan_file env (self w) chunks).2 ≠ [] →
  runBatchWithTimeoutRetry env name
    (submit view runner (request_of env mk source entry <$> (scan_file env (self w) chunks).2))
    w = (Throw err, w1) →
  nullish err = false →
  let w2 := snd (recordBatchFailure (failure_of name err) w1) in
  embedChunksWithBatchApi env name mk view runner chunks entry source w
  = embedChunksInBatches env chunks w2 ∧
  batchFailureCount (self w2)
  = batchFailureCount (self w) + failure_increment (failure_of name err) ∧
  batchFailureLastError (self w2) = Some (message err) ∧
  batchFailureLastProvider (self w2) = Some name.
Proof.
  intros Hon Hmiss Hsub Hobj w2.
  assert (Hne : chunks ≠ []) by (intros ->; by apply Hmiss).
  pose proof (submission_self env name view runner
                (request_of env mk source entry <$> (scan_file env (self w) chunks).2) w)
    as Hself.
  rewrite Hsub in Hself. cbn [snd] in Hself.
  assert (Hon1 : enabled (batch (self w1)) = true) by by rewrite Hself.
  split.
  - rewrite embedChunksWithBatchApi_unfold by done.
    destruct (scan_file env (self w) chunks) as [embeddings missing]. cbn [snd] in *.
    destruct (Nat.eqb (length missing) 0) eqn:Hm.
    { by apply length_zero_iff_nil in Hm. }
    rewrite (build_requests_run env mk source entry). cbn [app].
    fold (submit view runner (request_of env mk source entry <$> missing)).
    unfold bind at 1.
    rewrite (runBatchWithFallback_failure _ _ _ _ _ _ _ Hon Hsub Hobj). fold w2.
    unfold as_fallback. by destruct (embedChunksInBatches env chunks w2) as [[r|e] w3].
  - destruct (recordBatchFailure_state (failure_of name err) w1) as [Hrec _].
    destruct (Hrec Hon1) as (_ & Hcount & Herr & Hprov). fold w2 in Hcount, Herr, Hprov.
    by rewrite <- Hself.
Qed.




(** * What the error classifiers match *)

Lemma starts_ci_iff p s :
  Js.starts_ci p s = true ↔ ∃ mid post, s = mid +:+ post ∧ to_lower mid = to_lower p.
Proof.
  revert s. induction p as [|a p IH]; intros s; cbn.
  - split; [|done]. intros _. by exists EmptyString, s.
  - destruct s as [|b s].
    + split; [done|]. intros (mid & post & Hs & Hl).
      destruct mid; simplify_eq/=.
    + rewrite andb_true_iff, IH. split.
      * intros [Hab (mid & post & -> & Hl)]. exists (String b mid), post.
        split; [done|]. cbn. apply Ascii.eqb_eq in Hab. by rewrite Hl, Hab.
      * intros (mid & post & Hs & Hl). destruct mid as [|c mid]; cbn in *; [done|].
        injection Hs as -> ->. injection Hl as Hc Hl.
        split; [apply Ascii.eqb_eq; congruence|eauto].
Qed.

Lemma test_ci_iff p s : Js.test_ci p s = true ↔ contains_ci p s.
Proof.
  unfold contains_ci. induction s as [|b s IH].
  - cbn. rewrite orb_false_r, starts_ci_iff. split.
    + intros (mid & post & Hs & Hl). by exists EmptyString, mid, post.
    + intros (pre & mid & post & Hs & Hl). exists mid, post. split; [|done].
      destruct pre; simplify_eq/=; done.
  - cbn [Js.test_ci]. rewrite orb_true_iff, IH, starts_ci_iff. split.
    + intros [(mid & post & Hs & Hl)|(pre & mid & post & Hs & Hl)].
      * by exists EmptyString, mid, post.
      * exists (String b pre), mid, post. simpl. by rewrite Hs.
    + intros (pre & mid & post & Hs & Hl). destruct pre as [|c pre]; simpl in Hs.
      * left. by exists mid, post.
      * right. injection Hs as -> ->. by exists pre, mid, post.
Qed.

Lemma test_5dd_iff s : Js.test_5dd s = true ↔ contains_5dd s.
Proof.
  unfold contains_5dd. induction s as [|a s IH]; cbn [Js.test_5dd].
  - split; [done|]. intros (pre & b & c & post & Hs & _). destruct pre; simplify_eq/=.
  - destruct s as [|b s].
    + split; [done|]. intros (pre & b & c & post & Hs & _).
      destruct pre as [|? [|? ?]]; simplify_eq/=.
    + destruct s as [|c s].
      * split; [done|]. intros (pre & b' & c & post & Hs & _).
        destruct pre as [|? [|? [|? ?]]]; simplify_eq/=.
      * rewrite orb_true_iff, IH, !andb_true_iff, Ascii.eqb_eq. split.
        -- intros [[[-> Hb] Hc]|(pre & b' & c' & post & Hs & Hb & Hc)].
           ++ by exists EmptyString, b, c, s.
           ++ exists (String a pre), b', c', post. simpl. by rewrite Hs.
        -- intros (pre & b' & c' & post & Hs & Hb & Hc). destruct pre as [|x pre]; simpl in Hs.
           ++ left. by injection Hs as -> -> -> ->.
           ++ right. injection Hs as -> Hs. by exists pre, b', c', post.
Qed.

(** X1. [isRetryableEmbeddingError]: a message is retryable exactly when it
    contains, anywhere and in any mix of upper and lower case, one of
    [rate_limit], [rate limit], [too many requests], [429],
    [resource has been exhausted] or [cloudflare], or a [5] followed by
    two digits. *)
Theorem isRetryableEmbeddingError_contains (msg : string) :
  isRetryableEmbeddingError msg = true ↔
  contains_ci "rate_limit" msg ∨ contains_ci "rate limit" msg ∨
  contains_ci "too many requests" msg ∨ contains_ci "429" msg ∨
  contains_ci "resource has been exhausted" msg ∨ contains_5dd msg ∨
  contains_ci "cloudflare" msg.
Proof.
  unfold isRetryableEmbeddingError.
  rewrite !orb_true_iff, !test_ci_iff, test_5dd_iff. tauto.
Qed.

Lemma isRetryableEmbeddingError_contains_witness :
  isRetryableEmbeddingError "HTTP 503 Service Unavailable" = true ∧
  isRetryableEmbeddingError "Rate Limit hit" = true ∧
  isRetryableEmbeddingError "took 1500ms" = true.
Proof.
  split; [|split]; apply isRetryableEmbeddingError_contains.
  - do 5 right. left. by exists "HTTP ", "0"%char, "3"%char, " Service Unavailable".
  - right. left. by exists "", "Rate Limit", " hit".
  - do 5 right. left. by exists "took 1", "0"%char, "0"%char, "ms".
Defined.

(** X2. [isBatchTimeoutError]: a message is a batch timeout exactly when it
    contains [timed out] or [timeout], in any mix of upper and lower
    case. *)
Theorem isBatchTimeoutError_contains (msg : string) :
  isBatchTimeoutError msg = true ↔ contains_ci "timed out" msg ∨ contains_ci "timeout" msg.
Proof.
  unfold isBatchTimeoutError. by rewrite orb_true_iff, !test_ci_iff.
Qed.

Lemma isBatchTimeoutError_contains_witness :
  isBatchTimeoutError "Request TIMEOUT after 30s" = true ∧
  isBatchTimeoutError "openai batch timed out" = true.
Proof.
  split; apply isBatchTimeoutError_contains.
  - right. by exists "Request ", "TIMEOUT", " after 30s".
  - left. by exists "openai batch ", "timed out", "".
Defined.

(** * More on the retry loop *)

Lemma resolveEmbeddingTimeout_pos s kind : 0 < resolveEmbeddingTimeout s kind.
Proof. unfold resolveEmbeddingTimeout. by destruct kind, (String.eqb _ _). Qed.

Lemma timeout_message_not_retryable s kind :
  isRetryableEmbeddingError (timeout_message kind (resolveEmbeddingTimeout s kind)) = false.
Proof.
  unfold resolveEmbeddingTimeout. by destruct kind, (String.eqb _ _); vm_compute.
Qed.

(** X3. A provider call of the inline path that runs into its deadline is not
    tried again.  The deadline of a batch call is 120 s (600 s for the
    local provider), always positive, so the timer of [withTimeout] is
    always armed; the error it rejects with says
    [memory embeddings batch timed out after 120s], which
    [isRetryableEmbeddingError] does not match: [embedBatchWithRetry]
    rethrows it after that one call, without waiting. *)
Theorem embedBatchWithRetry_timeout_not_retried
    (env : Env) (texts : list string) (w : World) (err : JsValue) :
  texts ≠ [] →
  embedBatch env (events w) texts = Throw err →
  message err = timeout_message KindBatch (resolveEmbeddingTimeout (self w) KindBatch) →
  0 < resolveEmbeddingTimeout (self w) KindBatch ∧
  embedBatchWithRetry env texts w = (Throw err, add_event (EvEmbedBatch texts) w) ∧
  provider_calls (snd (embedBatchWithRetry env texts w)) = S (provider_calls w) ∧
  waits (events (snd (embedBatchWithRetry env texts w))) = waits (events w).
Proof.
  intros Hne Hcall Hmsg.
  assert (Hrun : embedBatchWithRetry env texts w
                 = (Throw err, add_event (EvEmbedBatch texts) w)).
  { rewrite embedBatchWithRetry_nonempty by done. unfold RETRY_FUEL.
    apply retry_loop_give_up; [done|]. left.
    rewrite Hmsg. apply timeout_message_not_retryable. }
  split; [apply resolveEmbeddingTimeout_pos|]. split; [done|].
  rewrite Hrun. cbn [snd]. split; [apply provider_calls_embed|].
  unfold waits. cbn. by rewrite app_nil_r.
Qed.

Lemma embedBatchWithRetry_timeout_not_retried_witness :
  let w := Sample.world true false 0 [] in
  embedBatchWithRetry Scenario.env_slow ["alpha"] w
  = (Throw (Sample.err "memory embeddings batch timed out after 120s"),
     add_event (EvEmbedBatch ["alpha"]) w) ∧
  provider_calls (snd (embedBatchWithRetry Scenario.env_slow ["alpha"] w)) = 1%nat.
Proof.
  intros w.
  destruct (embedBatchWithRetry_timeout_not_retried Scenario.env_slow ["alpha"] w
              (Sample.err "memory embeddings batch timed out after 120s"))
    as (_ & Hrun & Hcalls & _); [discriminate|reflexivity|reflexivity|].
  split; [exact Hrun|exact Hcalls].
Defined.

Lemma retry_loop_recovers env texts vs k :
  ∀ fuel attempt delayMs w,
    (k < fuel)%nat →
    attempt + Z.of_nat k <= EMBEDDING_RETRY_MAX_ATTEMPTS →
    (∀ j, (j < k)%nat →
          ∃ err, embedBatch env (events (after_retries texts j delayMs w)) texts = Throw err ∧
                 isRetryableEmbeddingError (message err) = true) →
    embedBatch env (events (after_retries texts k delayMs w)) texts = Ok vs →
    retry_loop env texts fuel attempt delayMs w
    = (Ok vs, add_event (EvEmbedBatch texts) (after_retries texts k delayMs w)).
Proof.
  induction k as [|k IH]; intros fuel attempt delayMs w Hfuel Hatt Hfail Hok.
  - destruct fuel as [|fuel]; [lia|]. by apply retry_loop_ok.
  - destruct fuel as [|fuel]; [lia|].
    destruct (Hfail 0%nat) as (err & Herr & Hretry); [lia|]. cbn [after_retries] in Herr.
    rewrite (retry_loop_again _ _ _ _ _ _ _ Herr Hretry) by lia.
    cbn [after_retries]. apply IH; [lia|lia| |done].
    intros j Hj. apply (Hfail (S j)). lia.
Qed.

Lemma waits_after_retries texts k delayMs w :
  waits (events (after_retries texts k delayMs w))
  = waits (events w) ++ ((fun i => delayMs * 2 ^ Z.of_nat i) <$> seq 0 k).
Proof.
  revert delayMs w. induction k as [|k IH]; intros delayMs w.
  - cbn. by rewrite app_nil_r.
  - cbn [after_retries]. rewrite IH. unfold waits at 1. cbn [events add_event foldr].
    fold (waits (events w)). rewrite app_nil_r, <- app_assoc. f_equal.
    cbn [seq fmap list_fmap app]. f_equal; [cbn; lia|].
    rewrite <- (fmap_S_seq 0 k), <- list_fmap_compose. apply list_fmap_ext.
    intros i x _. cbn. rewrite Nat2Z.inj_succ, Z.pow_succ_r by lia. lia.
Qed.

Lemma provider_calls_after_retries texts k delayMs w :
  provider_calls (after_retries texts k delayMs w) = (provider_calls w + k)%nat.
Proof.
  revert delayMs w. induction k as [|k IH]; intros delayMs w; cbn [after_retries]; [lia|].
  rewrite IH, provider_calls_sleep, provider_calls_embed. lia.
Qed.

(** X4. Recovery after retryable failures.  If the first [k] provider calls
    ([k] at most 3) fail with retryable errors and the next one answers,
    [embedBatchWithRetry] returns that answer after [k + 1] calls, having
    waited [k] times with base delays 500, 1000, 2000 ms in that order. *)
Theorem embedBatchWithRetry_recovers
    (env : Env) (texts : list string) (w : World) (k : nat) (vs : list vector) :
  texts ≠ [] →
  (k <= 3)%nat →
  (∀ j, (j < k)%nat →
        ∃ err,
          embedBatch env (events (after_retries texts j EMBEDDING_RETRY_BASE_DELAY_MS w)) texts
          = Throw err ∧
          isRetryableEmbeddingError (message err) = true) →
  embedBatch env (events (after_retries texts k EMBEDDING_RETRY_BASE_DELAY_MS w)) texts
  = Ok vs →
  let w' := snd (embedBatchWithRetry env texts w) in
  fst (embedBatchWithRetry env texts w) = Ok vs ∧
  provider_calls w' = (provider_calls w + k + 1)%nat ∧
  waits (events w') = waits (events w) ++ take k [500; 1000; 2000] ∧
  self w' = self w.
Proof.
  intros Hne Hk Hfail Hok w'. subst w'.
  rewrite embedBatchWithRetry_nonempty by done.
  rewrite (retry_loop_recovers env texts vs k RETRY_FUEL 0 _ w);
    [|change RETRY_FUEL with 4%nat; lia
     |unfold EMBEDDING_RETRY_MAX_ATTEMPTS; lia|done|done].
  cbn [fst snd]. split; [done|]. split.
  - rewrite provider_calls_embed, provider_calls_after_retries. lia.
  - split.
    + unfold waits at 1. cbn [events add_event foldr].
      fold (waits (events (after_retries texts k EMBEDDING_RETRY_BASE_DELAY_MS w))).
      rewrite app_nil_r, waits_after_retries. f_equal.
      destruct k as [|[|[|[|k]]]]; [done|done|done|done|lia].
    + clear. generalize EMBEDDING_RETRY_BASE_DELAY_MS. intros d. revert d w.
      induction k as [|k IH]; intros d w; [done|]. cbn [after_retries]. by rewrite IH.
Qed.

Lemma embedBatchWithRetry_recovers_witness :
  let w := Sample.world true false 0 [] in
  let w' := snd (embedBatchWithRetry Scenario.env_flaky ["alpha"] w) in
  fst (embedBatchWithRetry Scenario.env_flaky ["alpha"] w) = Ok [[5; 1]] ∧
  provider_calls w' = 3%nat ∧
  waits (events w') = [500; 1000].
Proof.
  intros w.
  destruct (embedBatchWithRetry_recovers Scenario.env_flaky ["alpha"] w 2 [[5; 1]])
    as (Hres & Hcalls & Hwaits & _).
  - discriminate.
  - lia.
  - intros j Hj. exists (Sample.err "429 too many requests").
    destruct j as [|[|j]]; [split; reflexivity|split; reflexivity|lia].
  - reflexivity.
  - split; [exact Hres|]. split; [exact Hcalls|exact Hwaits].
Defined.

Lemma retry_loop_schedule env texts fuel :
  ∀ attempt delayMs w,
    Z.max 0 (EMBEDDING_RETRY_MAX_ATTEMPTS - attempt) < Z.of_nat fuel →
    ∃ k, Z.of_nat k <= Z.max 0 (EMBEDDING_RETRY_MAX_ATTEMPTS - attempt) ∧
         snd (retry_loop env texts fuel attempt delayMs w)
         = add_event (EvEmbedBatch texts) (after_retries texts k delayMs w).
Proof.
  induction fuel as [|fuel IH]; intros attempt delayMs w Hfuel; [lia|].
  destruct (embedBatch env (events w) texts) as [vs|err] eqn:Hcall.
  - exists 0%nat. split; [lia|]. by rewrite (retry_loop_ok _ _ _ _ _ _ _ Hcall).
  - destruct (isRetryableEmbeddingError (message err)) eqn:Hretry.
    + destruct (Z.le_gt_cases EMBEDDING_RETRY_MAX_ATTEMPTS attempt) as [Hmax|Hless].
      * exists 0%nat. split; [lia|].
        by rewrite (retry_loop_give_up _ _ _ _ _ _ _ Hcall (or_intror Hmax)).
      * rewrite (retry_loop_again _ _ _ _ _ _ _ Hcall Hretry) by lia.
        destruct (IH (attempt + 1) (delayMs * 2)
                    (add_event (EvSleep delayMs) (add_event (EvEmbedBatch texts) w)))
          as (k & Hk & Hrun); [lia|].
        exists (S k). split; [lia|]. by rewrite Hrun.
    + exists 0%nat. split; [lia|].
      by rewrite (retry_loop_give_up _ _ _ _ _ _ _ Hcall (or_introl Hretry)).
Qed.

(** X26. The backoff schedule, whatever the provider does.  A call of
    [embedBatchWithRetry] on texts is some number [k] of failed rounds,
    at most 3, each followed by a wait, and then one last provider call
    whose outcome is the outcome of the whole: [k + 1] provider calls and
    [k] waits whose base delays are 500, 1000, 2000 ms in this order.  No
    base delay reaches the cap of 8000 ms, even with the 20 % of jitter
    added.  On no texts it returns at once. *)
Theorem embedBatchWithRetry_schedule (env : Env) (texts : list string) (w : World) :
  (texts = [] → embedBatchWithRetry env texts w = (Ok [], w)) ∧
  (texts ≠ [] →
   ∃ k, (k <= 3)%nat ∧
        snd (embedBatchWithRetry env texts w)
        = add_event (EvEmbedBatch texts)
            (after_retries texts k EMBEDDING_RETRY_BASE_DELAY_MS w) ∧
        provider_calls (snd (embedBatchWithRetry env texts w))
        = (provider_calls w + k + 1)%nat ∧
        waits (events (snd (embedBatchWithRetry env texts w)))
        = waits (events w) ++ take k [500; 1000; 2000] ∧
        ∀ d, d ∈ take k [500; 1000; 2000] →
             d * 12 / 10 < EMBEDDING_RETRY_MAX_DELAY_MS).
Proof.
  split; [by intros ->|]. intros Hne.
  rewrite embedBatchWithRetry_nonempty by done.
  destruct (retry_loop_schedule env texts RETRY_FUEL 0 EMBEDDING_RETRY_BASE_DELAY_MS w)
    as (k & Hk & Hrun).
  { change RETRY_FUEL with 4%nat. unfold EMBEDDING_RETRY_MAX_ATTEMPTS. lia. }
  unfold EMBEDDING_RETRY_MAX_ATTEMPTS in Hk.
  exists k. split; [lia|]. split; [done|]. rewrite Hrun. split; [|split].
  - rewrite provider_calls_embed, provider_calls_after_retries. lia.
  - unfold waits at 1. cbn [events add_event foldr].
    fold (waits (events (after_retries texts k EMBEDDING_RETRY_BASE_DELAY_MS w))).
    rewrite app_nil_r, waits_after_retries. f_equal.
    destruct k as [|[|[|[|k]]]]; [done|done|done|done|lia].
  - intros d Hd. apply elem_of_take in Hd as (i & Hd & _).
    unfold EMBEDDING_RETRY_MAX_DELAY_MS.
    destruct i as [|[|[|i]]]; cbn in Hd; [| | |done]; injection Hd as <-; done.
Qed.

Lemma embedBatchWithRetry_schedule_witness :
  let w := Sample.world true false 0 [] in
  ∃ k, (k <= 3)%nat ∧
       provider_calls (snd (embedBatchWithRetry Sample.env_rate_limited ["alpha"] w))
       = (k + 1)%nat ∧
       waits (events (snd (embedBatchWithRetry Sample.env_rate_limited ["alpha"] w)))
       = take k [500; 1000; 2000].
Proof.
  intros w.
  destruct (embedBatchWithRetry_schedule Sample.env_rate_limited ["alpha"] w) as [_ Hrun].
  destruct Hrun as (k & Hk & _ & Hcalls & Hwaits & _); [discriminate|].
  exists k. split; [exact Hk|]. split; [exact Hcalls|exact Hwaits].
Defined.

(** * More on batching: the bins are filled greedily *)

Lemma no_room_snoc bins b :
  no_room (bins ++ [b]) ↔
  no_room bins ∧
  ∀ b0 c, last bins = Some b0 → head b = Some c →
          EMBEDDING_BATCH_MAX_TOKENS < bin_tokens b0 + estimateEmbeddingTokens (text c).
Proof.
  split.
  - intros H. split.
    + intros i b1 b2 c H1 H2 Hc. apply (H i b1 b2 c); [| |done].
      * by apply lookup_app_l_Some.
      * by apply lookup_app_l_Some.
    + intros b0 c Hlast Hc. rewrite last_lookup in Hlast.
      assert (Hlen : length bins ≠ 0%nat).
      { intros Hz. apply nil_length_inv in Hz. by subst. }
      apply (H (pred (length bins)) b0 b c); [by apply lookup_app_l_Some| |done].
      replace (S (pred (length bins))) with (length bins + 0)%nat by lia.
      by rewrite lookup_app_r, Nat.add_comm, Nat.add_sub by lia.
  - intros [Hbins Hlast] i b1 b2 c H1 H2 Hc.
    apply lookup_app_Some in H2 as [H2|[Hge H2]].
    + apply (Hbins i b1 b2 c); [|done|done].
      apply lookup_app_Some in H1 as [H1|[Hge _]]; [done|].
      apply lookup_lt_Some in H2. lia.
    + destruct (S i - length bins)%nat as [|n] eqn:Hn; [|by destruct n].
      cbn in H2. injection H2 as <-.
      assert (S i = length bins) by lia.
      apply lookup_app_Some in H1 as [H1|[Hge' _]]; [|lia].
      apply (Hlast b1 c); [|done]. rewrite last_lookup.
      by replace (pred (length bins)) with i by lia.
Qed.

Lemma no_room_last_grows bins b c :
  b ≠ [] → no_room (bins ++ [b]) → no_room (bins ++ [b ++ [c]]).
Proof.
  intros Hb. rewrite !no_room_snoc. intros [Hbins Hlast]. split; [done|].
  intros b0 d H0 Hd. apply (Hlast b0 d H0). by destruct b.
Qed.

Lemma pack_step_greedy st c : greedy_inv st → greedy_inv (pack_step st c).
Proof.
  intros [Htok Hbins Hclosed]. unfold pack_step, pack_finish in *.
  set (estimate := estimateEmbeddingTokens (text c)).
  assert (Hest : 0 <= estimate) by apply estimateEmbeddingTokens_nonneg.
  assert (Hone : bin_tokens [c] = estimate).
  { rewrite bin_tokens_cons. fold estimate. cbn. lia. }
  destruct (Nat.eqb (length (current st)) 0) eqn:Hempty; cbn [negb andb] in *.
  - (* the open bin is empty *)
    rewrite Hempty. cbn [andb]. apply length_zero_iff_nil in Hempty.
    specialize (Hclosed Hempty).
    assert (Hnext : no_room (batches st ++ [[c]])).
    { apply no_room_snoc. split; [done|]. intros b0 d H0 [= <-].
      specialize (Hclosed b0 H0). fold estimate. lia. }
    destruct (Z.ltb_spec EMBEDDING_BATCH_MAX_TOKENS estimate) as [Hbig|Hsmall].
    + split; cbn [batches current currentTokens].
      * done.
      * by rewrite Hempty.
      * intros _ b. rewrite last_snoc. intros [= <-]. lia.
    + split; cbn [batches current currentTokens].
      * rewrite Hempty, Htok. cbn [app]. rewrite Hone, Hempty. cbn. lia.
      * by rewrite Hempty.
      * rewrite Hempty. done.
  - (* the open bin has chunks *)
    assert (Hne : current st ≠ []).
    { intros Hnil. apply length_zero_iff_nil in Hnil. congruence. }
    destruct (Z.ltb_spec EMBEDDING_BATCH_MAX_TOKENS (currentTokens st + estimate)) as [Hover|Hfits].
    + cbn [current batches currentTokens length Nat.eqb andb].
      assert (Hnext : no_room ((batches st ++ [current st]) ++ [[c]])).
      { apply no_room_snoc. split; [done|]. intros b0 d. rewrite last_snoc.
        intros [= <-] [= <-]. fold estimate. lia. }
      destruct (Z.ltb_spec EMBEDDING_BATCH_MAX_TOKENS estimate) as [Hbig|Hsmall].
      * split; cbn [batches current currentTokens length Nat.eqb negb].
        -- done.
        -- done.
        -- intros _ b. rewrite last_snoc. intros [= <-]. lia.
      * split; cbn [batches current currentTokens app length Nat.eqb negb].
        -- rewrite Hone. lia.
        -- done.
        -- done.
    + rewrite Hempty. cbn [andb].
      split; cbn [batches current currentTokens].
      * rewrite bin_tokens_app, Hone. lia.
      * unfold pack_finish. cbn [batches current]. rewrite length_app. cbn [length].
        replace (Nat.eqb (length (current st) + 1) 0) with false
          by (symmetry; apply Nat.eqb_neq; lia).
        cbn [negb]. by apply no_room_last_grows.
      * intros Hnil. by destruct (current st).
Qed.

Lemma buildEmbeddingBatches_no_room chunks : no_room (buildEmbeddingBatches chunks).
Proof.
  unfold buildEmbeddingBatches.
  assert (H : ∀ st, greedy_inv st → greedy_inv (fold_left pack_step chunks st)).
  { induction chunks as [|c chunks IH]; intros st Hst; [done|].
    cbn. apply IH. by apply pack_step_greedy. }
  apply H. split; cbn; [done| |done]. intros i b1 b2 c Hi. done.
Qed.

Lemma concat_length_ge {A} (bins : list (list A)) :
  Forall (fun bin => bin ≠ []) bins → (length bins <= length (concat bins))%nat.
Proof.
  induction 1 as [|bin bins Hbin _ IH]; [done|].
  cbn. rewrite length_app. destruct bin; [done|]. cbn. lia.
Qed.

Lemma buildEmbeddingBatches_fits chunks :
  chunks ≠ [] → bin_tokens chunks <= EMBEDDING_BATCH_MAX_TOKENS →
  buildEmbeddingBatches chunks = [chunks].
Proof.
  intros Hne Hfits.
  destruct (buildEmbeddingBatches_spec chunks) as [Hcat Hall].
  pose proof (buildEmbeddingBatches_no_room chunks) as Hroom.
  destruct (buildEmbeddingBatches chunks) as [|b1 [|b2 bins]].
  - by cbn in Hcat.
  - cbn in Hcat. by rewrite app_nil_r in Hcat; subst.
  - exfalso. apply Forall_cons in Hall as [_ Hall]. apply Forall_cons in Hall as [[Hb2 _] _].
    destruct b2 as [|c b2]; [done|].
    pose proof (Hroom 0%nat b1 (c :: b2) c eq_refl eq_refl eq_refl) as Hfull.
    rewrite <- Hcat in Hfits. cbn [concat] in Hfits.
    rewrite !bin_tokens_app, bin_tokens_cons in Hfits.
    pose proof (bin_tokens_nonneg b2). pose proof (bin_tokens_nonneg (concat bins)). lia.
Qed.

(** X5. The bins of [buildEmbeddingBatches] are filled greedily: no bin is
    empty, there are at most as many bins as chunks, and a bin is closed
    only when the chunk that follows would not fit, so that the tokens of
    a bin plus those of the first chunk of the next bin always exceed the
    budget.  Chunks that fit the budget together therefore make one bin. *)
Theorem buildEmbeddingBatches_greedy (chunks : list MemoryChunk) :
  let bins := buildEmbeddingBatches chunks in
  (∀ bin, bin ∈ bins → bin ≠ []) ∧
  (length bins <= length chunks)%nat ∧
  (∀ i b1 b2 c,
     bins !! i = Some b1 → bins !! S i = Some b2 → head b2 = Some c →
     EMBEDDING_BATCH_MAX_TOKENS < bin_tokens b1 + estimateEmbeddingTokens (text c)) ∧
  (chunks = [] → bins = []) ∧
  (chunks ≠ [] → bin_tokens chunks <= EMBEDDING_BATCH_MAX_TOKENS → bins = [chunks]).
Proof.
  intros bins. subst bins.
  destruct (buildEmbeddingBatches_spec chunks) as [Hcat Hall].
  assert (Hne : Forall (fun bin => bin ≠ []) (buildEmbeddingBatches chunks)).
  { eapply Forall_impl; [exact Hall|]. by intros bin [? _]. }
  split; [|split; [|split; [|split]]].
  - intros bin Hbin. by apply (proj1 (Forall_forall _ _) Hne).
  - rewrite <- Hcat at 2. by apply concat_length_ge.
  - apply buildEmbeddingBatches_no_room.
  - by intros ->.
  - apply buildEmbeddingBatches_fits.
Qed.

Lemma buildEmbeddingBatches_greedy_witness :
  let a := Sample.chunk_of "alpha" "h1" in
  let b := Sample.chunk_of "beta" "h2" in
  buildEmbeddingBatches [a; b] = [[a; b]].
Proof.
  intros a b.
  destruct (buildEmbeddingBatches_greedy [a; b]) as (_ & _ & _ & _ & Hone).
  apply Hone; [discriminate|vm_compute; discriminate].
Defined.

(** * The provider calls of the inline path *)

Lemma embed_bins_calls env missing bins st w :
  provider_up env →
  Forall (fun bin => bin ≠ []) bins →
  ∃ st' w', embed_bins env missing bins st w = (Ok st', w') ∧
            self w' = self w ∧ now w' = now w ∧
            events w'
            = rev ((fun bin => EvEmbedBatch (text <$> bin)) <$> bins) ++ events w.
Proof.
  intros Hup Hne. revert st w. induction Hne as [|bin bins Hbin _ IH]; intros st w.
  - by exists st, w.
  - cbn [embed_bins].
    destruct (Hup (events w) (text <$> bin)) as [vs Hvs].
    assert (Hcall : embedBatchWithRetry env (text <$> bin) w
                    = (Ok vs, add_event (EvEmbedBatch (text <$> bin)) w)).
    { rewrite embedBatchWithRetry_nonempty by by destruct bin.
      by apply retry_loop_ok. }
    rewrite (bind_ok _ _ _ _ _ Hcall).
    destruct (fill_batch _ _ _ _ _ _ _) as [embeddings toCache].
    destruct (IH {| fill_embeddings := embeddings; fill_toCache := toCache;
                    fill_cursor := (fill_cursor st + length bin)%nat |}
                 (add_event (EvEmbedBatch (text <$> bin)) w))
      as (st' & w' & Hrun & Hself & Hnow & Hev).
    exists st', w'. split; [done|]. split; [done|]. split; [done|].
    rewrite Hev. cbn [fmap list_fmap rev events add_event]. by rewrite <- app_assoc.
Qed.

Lemma provider_calls_app evs w w' :
  Forall (fun e => is_embed_batch e = true) evs →
  events w' = evs ++ events w →
  provider_calls w' = (provider_calls w + length evs)%nat.
Proof.
  intros Hall Hev. unfold provider_calls. rewrite Hev, List.filter_app, length_app.
  rewrite (List.forallb_filter_id is_embed_batch evs); [lia|].
  apply List.forallb_forall. intros e He.
  apply (proj1 (Forall_forall _ _) Hall). by apply list_elem_of_In.
Qed.

(** X6. The inline path calls the provider once per bin.  When the provider
    answers, the requests that [embedChunksInBatches] sends are, in order,
    one [embedBatch] per bin of the chunks that the cache does not serve,
    each with the texts of its bin; a file whose missing chunks fit the
    token budget together costs one call, and a file served from the
    cache costs none. *)
Theorem embedChunksInBatches_one_call_per_bin
    (env : Env) (chunks : list MemoryChunk) (w : World) :
  provider_up env →
  let missing := (scan_file env (self w) chunks).2 in
  let bins := buildEmbeddingBatches (chunk <$> missing) in
  let w' := snd (embedChunksInBatches env chunks w) in
  events w' = rev ((fun bin => EvEmbedBatch (text <$> bin)) <$> bins) ++ events w ∧
  provider_calls w' = (provider_calls w + length bins)%nat ∧
  (missing = [] → w' = w) ∧
  (missing ≠ [] → bin_tokens (chunk <$> missing) <= EMBEDDING_BATCH_MAX_TOKENS →
   events w' = EvEmbedBatch ((fun m => text (chunk m)) <$> missing) :: events w).
Proof.
  intros Hup missing bins w'.
  assert (Hev : events w'
                = rev ((fun bin => EvEmbedBatch (text <$> bin)) <$> bins) ++ events w
                ∧ (missing = [] → w' = w)).
  { subst w' bins missing. destruct chunks as [|c chunks]; [done|].
    rewrite embedChunksInBatches_unfold by done.
    destruct (scan_file env (self w) (c :: chunks)) as [embeddings missing]. cbn [snd].
    destruct (Nat.eqb (length missing) 0) eqn:Hm.
    - apply length_zero_iff_nil in Hm. by subst.
    - split; [|intros ->; done].
      destruct (buildEmbeddingBatches_spec (chunk <$> missing)) as [_ Hall].
      destruct (embed_bins_calls env missing (buildEmbeddingBatches (chunk <$> missing))
                  {| fill_embeddings := embeddings; fill_toCache := [];
                     fill_cursor := 0 |} w Hup)
        as (st' & w1 & Hrun & _ & _ & Hev1).
      { eapply Forall_impl; [exact Hall|]. by intros bin [? _]. }
      rewrite (bind_ok _ _ _ _ _ Hrun).
      rewrite (bind_ok _ _ _ _ _ (upsertEmbeddingCache_returns env _ w1)).
      cbn [ret snd]. by rewrite upsertEmbeddingCache_events. }
  destruct Hev as [Hev Hnone].
  split; [done|]. split; [|split; [done|]].
  - assert (Hall : Forall (fun e => is_embed_batch e = true)
                     (rev ((fun bin => EvEmbedBatch (text <$> bin)) <$> bins))).
    { apply Forall_rev, Forall_fmap, Forall_forall. by intros bin _. }
    rewrite (provider_calls_app _ w w' Hall Hev). by rewrite length_rev, length_fmap.
  - intros Hne Hfits. rewrite Hev. subst bins.
    rewrite buildEmbeddingBatches_fits; [|by destruct missing|done].
    cbn. by rewrite <- list_fmap_compose.
Qed.

Lemma embedChunksInBatches_one_call_per_bin_witness :
  let w := Sample.world true false 0 [Sample.row 1 "h2" "9;9;" 5] in
  let chunks := [Sample.chunk_of "alpha" "h1"; Sample.chunk_of "beta" "h2";
                 Sample.chunk_of "gamma" "h3"] in
  events (snd (embedChunksInBatches Sample.env chunks w)) = [EvEmbedBatch ["alpha"; "gamma"]] ∧
  provider_calls (snd (embedChunksInBatches Sample.env chunks w)) = 1%nat.
Proof.
  intros w chunks.
  assert (Hup : provider_up Sample.env) by (intros hist texts; by eexists).
  destruct (embedChunksInBatches_one_call_per_bin Sample.env chunks w Hup)
    as (_ & Hcalls & _ & Hone).
  split; [|exact Hcalls].
  apply Hone; [vm_compute; discriminate|vm_compute; discriminate].
Defined.

(** * Invariants of the whole service

    A property of the world that survives a request going out, a write to
    the cache, and a failure recorded or cleared, survives the embedding
    paths; if it also survives pruning, seeding and the passing of time,
    it survives every call. *)

Section Frame.
Context (P : World → Prop).

Hypothesis F_event : ∀ w e, P w → P (add_event e w).
Hypothesis F_upsert : ∀ env entries, preserves P (upsertEmbeddingCache env entries).
Hypothesis F_record : ∀ params, preserves P (recordBatchFailure params).
Hypothesis F_reset : preserves P resetBatchFailureCount.

Lemma frame_ask {A} (answer : list Event → Res A) e : preserves P (ask answer e).
Proof. intros w Hw. by apply F_event. Qed.

Lemma frame_retry_loop env texts fuel attempt delayMs :
  preserves P (retry_loop env texts fuel attempt delayMs).
Proof.
  revert attempt delayMs. induction fuel as [|fuel IH]; intros attempt delayMs.
  - apply preserves_throw.
  - cbn [retry_loop]. apply preserves_try_catch; [apply frame_ask|].
    intros err. apply preserves_if; [apply preserves_throw|].
    apply preserves_bind; [|intros _; apply IH].
    intros w Hw. by apply F_event.
Qed.

Lemma frame_embed_bins env missing bins st : preserves P (embed_bins env missing bins st).
Proof.
  revert st. induction bins as [|bin bins IH]; intros st; cbn [embed_bins].
  - apply preserves_ret.
  - apply preserves_bind; [|intros vs; destruct (fill_batch _ _ _ _ _ _ _); apply IH].
    unfold embedBatchWithRetry.
    apply preserves_if; [apply preserves_ret|apply frame_retry_loop].
Qed.

Lemma frame_embedChunksInBatches env chunks : preserves P (embedChunksInBatches env chunks).
Proof.
  unfold embedChunksInBatches.
  apply preserves_if; [apply preserves_ret|].
  apply preserves_bind; [apply preserves_get_self|intros s].
  destruct (scan_chunks _ _ _ _ _) as [embeddings missing].
  apply preserves_if; [apply preserves_ret|].
  apply preserves_bind; [apply frame_embed_bins|intros st].
  apply preserves_bind; [apply F_upsert|intros _; apply preserves_ret].
Qed.

Lemma frame_runBatchWithTimeoutRetry {T} env name (run : M T) :
  preserves P run → preserves P (runBatchWithTimeoutRetry env name run).
Proof.
  intros Hrun. unfold runBatchWithTimeoutRetry.
  apply preserves_try_catch; [done|]. intros err.
  apply preserves_if; [|apply preserves_throw].
  apply preserves_try_catch; [done|]. intros e.
  apply preserves_bind; [apply preserves_lift|intros ?; apply preserves_throw].
Qed.

Lemma frame_runBatchWithFallback env name run fallback :
  preserves P run → preserves P fallback →
  preserves P (runBatchWithFallback env name run fallback).
Proof.
  intros Hrun Hfb. unfold runBatchWithFallback.
  apply preserves_bind; [apply preserves_get_self|intros s].
  apply preserves_if.
  - apply preserves_bind; [done|intros r; apply preserves_ret].
  - apply preserves_try_catch.
    + apply preserves_bind; [by apply frame_runBatchWithTimeoutRetry|intros result].
      apply preserves_bind; [apply F_reset|intros _; apply preserves_ret].
    + intros err. apply preserves_bind; [apply preserves_lift|intros tag].
      apply preserves_bind; [apply F_record|intros failure].
      apply preserves_bind; [done|intros r; apply preserves_ret].
Qed.

Lemma frame_embedChunksWithBatchApi {R} env name (mk : string → MemoryChunk → R)
    view runner chunks entry source :
  preserves P (embedChunksWithBatchApi env name mk view runner chunks entry source).
Proof.
  unfold embedChunksWithBatchApi.
  apply preserves_if; [apply preserves_ret|].
  apply preserves_bind; [apply preserves_get_self|intros s].
  destruct (scan_chunks _ _ _ _ _) as [embeddings missing].
  apply preserves_if; [apply preserves_ret|].
  destruct (build_requests _ _ _ _ _ _ _) as [requests mapping].
  apply preserves_bind.
  - apply frame_runBatchWithFallback; [|apply frame_embedChunksInBatches].
    apply preserves_bind; [apply preserves_get_self|intros s'; apply frame_ask].
  - intros [byCustomId|array]; [|apply preserves_ret].
    destruct (reconcile _ _ _ _) as [embeddings' toCache].
    apply preserves_bind; [apply F_upsert|intros _; apply preserves_ret].
Qed.

Lemma frame_embedChunksForFile env chunks entry source :
  preserves P (embedChunksForFile env chunks entry source).
Proof.
  unfold embedChunksForFile.
  apply preserves_bind; [apply preserves_get_self|intros s].
  apply preserves_if; [|apply frame_embedChunksInBatches].
  unfold embedChunksWithBatch.
  apply preserves_bind; [apply preserves_get_self|intros s1].
  apply preserves_if; [|apply preserves_if; [|apply frame_embedChunksInBatches]].
  - unfold embedChunksWithOpenAiBatch.
    apply preserves_bind; [apply preserves_get_self|intros s2].
    destruct (openAi s2);
      [apply frame_embedChunksWithBatchApi|apply frame_embedChunksInBatches].
  - unfold embedChunksWithGeminiBatch.
    apply preserves_bind; [apply preserves_get_self|intros s2].
    destruct (gemini s2);
      [apply frame_embedChunksWithBatchApi|apply frame_embedChunksInBatches].
Qed.

Hypothesis F_prune : preserves P pruneEmbeddingCacheIfNeeded.
Hypothesis F_seed : ∀ faults sourceDb, preserves P (seedEmbeddingCache faults sourceDb).
Hypothesis F_tick : ∀ w t, P w → P {| self := self w; events := events w; now := t |}.

Lemma frame_perform env c : ∀ w, P w → P (perform env c w).
Proof.
  intros w Hw. destruct c; cbn [perform].
  - by apply F_event.
  - by apply frame_embedChunksForFile.
  - by apply frame_embedChunksInBatches.
  - by apply F_prune.
  - by apply F_seed.
  - by apply F_record.
  - by apply F_reset.
  - by apply F_tick.
Qed.

Lemma frame_perform_all env cs : ∀ w, P w → P (perform_all env cs w).
Proof.
  induction cs as [|c cs IH]; intros w Hw; [done|].
  apply IH. by apply frame_perform.
Qed.

End Frame.

(** * Three invariants *)

(** ** The circuit breaker *)

Lemma recordBatchFailure_breaker_ok params w :
  breaker_ok (self w) → breaker_ok (self (snd (recordBatchFailure params w))).
Proof.
  intros (Hpos & Hlow & Hzero & Hsome).
  assert (Hcase : enabled (batch (self w)) = true ∨ enabled (batch (self w)) = false)
    by (destruct (enabled (batch (self w))); auto).
  destruct Hcase as [Hon|Hon].
  - specialize (Hlow Hon). rewrite (recordBatchFailure_enabled params w Hon). cbn [snd self].
    pose proof (failure_increment_pos params) as Hinc.
    destruct (forceDisable params || _) eqn:Hoff.
    + unfold breaker_ok. cbn -[Z.add].
      repeat split; intros; try lia; try done; by eexists.
    + apply orb_false_iff in Hoff as [_ Hlt]. apply Z.leb_gt in Hlt.
      unfold breaker_ok. cbn -[Z.add].
      repeat split; intros; try lia; try done; by eexists.
  - by rewrite (recordBatchFailure_disabled params w Hon).
Qed.

Lemma resetBatchFailureCount_breaker_ok w :
  breaker_ok (self (snd (resetBatchFailureCount w))).
Proof.
  unfold breaker_ok, BATCH_FAILURE_LIMIT. cbn. repeat split; try lia; try done.
Qed.

Lemma perform_all_breaker_ok env calls w :
  breaker_ok (self w) → breaker_ok (self (perform_all env calls w)).
Proof.
  apply (frame_perform_all (fun w => breaker_ok (self w))).
  - by intros w0 e.
  - intros env0 entries. by apply preserves_upsertEmbeddingCache.
  - intros params w0. apply recordBatchFailure_breaker_ok.
  - intros w0 _. apply resetBatchFailureCount_breaker_ok.
  - by apply preserves_prune.
  - intros faults sourceDb. by apply preserves_seedEmbeddingCache.
  - by intros w0 t.
Qed.

(** X7. From its construction on and whatever is called, the service's
    breaker state makes sense: [getBatchStatus] never reports a negative
    number of failures, never reports the batch API enabled with
    [failures] at the limit or above, and reports a last error and a last
    provider exactly when [failures] is not zero. *)
Theorem getBatchStatus_consistent
    (env : Env) (d : DatabaseSync) (config : EmbeddingServiceConfig)
    (evs : list Event) (t : Z) (calls : list Call) :
  let status := getBatchStatus (self (perform_all env calls (fresh d config evs t))) in
  st_limit status = 2 ∧
  0 <= st_failures status ∧
  (st_enabled status = true → st_failures status < st_limit status) ∧
  (st_failures status = 0 ↔ st_lastError status = None) ∧
  (st_lastError status = None ↔ st_lastProvider status = None).
Proof.
  intros status.
  assert (Hok : breaker_ok (self (perform_all env calls (fresh d config evs t)))).
  { apply perform_all_breaker_ok. unfold breaker_ok, BATCH_FAILURE_LIMIT. cbn.
    repeat split; try lia; try done. }
  destruct Hok as (Hpos & Hlow & Hzero & Hsome). subst status. cbn [getBatchStatus
    st_limit st_failures st_enabled st_lastError st_lastProvider].
  split; [done|]. split; [done|]. split; [done|].
  destruct (Z.eq_dec (batchFailureCount (self (perform_all env calls (fresh d config evs t)))) 0)
    as [Hz|Hnz].
  - destruct (Hzero Hz) as [-> ->]. by rewrite Hz.
  - destruct Hsome as [[e He] [p Hp]]; [lia|]. rewrite He, Hp. split; split; done.
Qed.

Lemma getBatchStatus_consistent_witness :
  let calls := [CallEmbedChunksForFile [Sample.chunk_of "alpha" "h1"] Sample.file SrcMemory] in
  let status :=
    getBatchStatus
      (self (perform_all Sample.env_all_down calls
               (fresh {| table := []; txn := None |} Scenario.config [] 0))) in
  st_enabled status = true ∧
  st_failures status = 1 ∧
  st_failures status < st_limit status ∧
  st_lastError status = Some "openai batch failed".
Proof.
  intros calls status.
  destruct (getBatchStatus_consistent Sample.env_all_down {| table := []; txn := None |}
              Scenario.config [] 0 calls) as (_ & _ & Hlow & _ & _).
  split; [reflexivity|]. split; [reflexivity|]. split; [|reflexivity].
  apply Hlow. reflexivity.
Defined.

(** ** With the cache off, the database is never touched *)

Lemma cache_off_frame env calls w :
  cache_enabled (cache (self w)) = false →
  cache_enabled (cache (self (perform_all env calls w))) = false ∧
  db (self (perform_all env calls w)) = db (self w).
Proof.
  intros Hoff.
  apply (frame_perform_all
           (fun x => cache_enabled (cache (self x)) = false ∧ db (self x) = db (self w)));
    [| | | | | | |done].
  - by intros w0 e.
  - intros env0 entries w0 [Hc Hd]. unfold upsertEmbeddingCache, bind, get_self.
    by rewrite Hc.
  - intros params. by apply preserves_recordBatchFailure.
  - by intros w0.
  - intros w0 [Hc Hd]. unfold pruneEmbeddingCacheIfNeeded, bind, get_self. by rewrite Hc.
  - intros faults sourceDb w0 [Hc Hd]. by rewrite seedEmbeddingCache_disabled.
  - by intros w0 t.
Qed.

Lemma misses_from_empty rest i : misses_from ∅ rest i = items_from rest i.
Proof.
  revert i. induction rest as [|c rest IH]; intros i; [done|].
  cbn [misses_from items_from]. rewrite IH.
  unfold cache_hit. rewrite lookup_empty. by destruct (Js.truthy (hash c)).
Qed.

(** X8. A service whose cache is disabled never reads or writes the table:
    whatever is called, the database stays as it was, the entry count
    reads 0, and every chunk of every file is a miss, however often it
    has been embedded before. *)
Theorem cache_disabled_is_inert (env : Env) (calls : list Call) (w : World) :
  cache_enabled (cache (self w)) = false →
  let w' := perform_all env calls w in
  db (self w') = db (self w) ∧
  getCacheEntryCount (self w') = 0 ∧
  ∀ chunks,
    loadEmbeddingCache env (self w') (hash <$> chunks) = ∅ ∧
    (scan_file env (self w') chunks).2 = items_from chunks 0.
Proof.
  intros Hoff w'. destruct (cache_off_frame env calls w Hoff) as [Hoff' Hdb].
  fold w' in Hoff', Hdb. clearbody w'.
  split; [done|]. split.
  - unfold getCacheEntryCount. by rewrite Hoff'.
  - intros chunks.
    assert (Hload : loadEmbeddingCache env (self w') (hash <$> chunks) = ∅).
    { unfold loadEmbeddingCache. by rewrite Hoff'. }
    split; [done|]. rewrite scan_file_missing, Hload. apply misses_from_empty.
Qed.

Lemma cache_disabled_is_inert_witness :
  let w := Sample.world false true 0 [Sample.row 1 "h1" "9;9;" 5] in
  let c := Sample.chunk_of "alpha" "h1" in
  let calls := [CallEmbedChunksForFile [c] Sample.file SrcMemory; CallPrune;
                CallEmbedChunksInBatches [c]] in
  table (db (self (perform_all Sample.env calls w))) = [Sample.row 1 "h1" "9;9;" 5] ∧
  (scan_file Sample.env (self (perform_all Sample.env calls w)) [c]).2
  = [ {| index := 0; chunk := c |} ].
Proof.
  intros w c calls.
  destruct (cache_disabled_is_inert Sample.env calls w) as (Hdb & _ & Hmiss); [reflexivity|].
  split; [by rewrite Hdb|]. by destruct (Hmiss [c]) as [_ ->].
Defined.

(** ** The table keeps its keys apart *)

Lemma next_rowid_above t r : r ∈ t → rowid r < next_rowid t.
Proof.
  unfold next_rowid. induction 1 as [r t|r x t _ IH]; cbn [foldr]; lia.
Qed.

Lemma upsert_row_ok new t : table_ok t → table_ok (upsert_row new t).
Proof.
  intros [Hid Hkey]. unfold upsert_row.
  destruct (decide (Exists _ t)) as [Hex|Hnew].
  - unfold table_ok. rewrite <- !list_fmap_compose. split.
    + rewrite (list_fmap_ext _ rowid); [done|].
      intros i r _. cbn. by destruct (decide _).
    + rewrite (list_fmap_ext _ row_key); [done|].
      intros i r _. cbn. by destruct (decide _).
  - unfold table_ok. rewrite !fmap_app. cbn [fmap list_fmap]. split.
    + apply NoDup_app. split; [done|]. split; [|apply NoDup_singleton].
      intros x Hx Hx'. apply list_elem_of_singleton in Hx'.
      apply list_elem_of_fmap in Hx as (r & -> & Hr).
      apply next_rowid_above in Hr. cbn in Hx'. lia.
    + apply NoDup_app. split; [done|]. split; [|apply NoDup_singleton].
      intros x Hx Hx'. apply list_elem_of_singleton in Hx'.
      apply list_elem_of_fmap in Hx as (r & -> & Hr).
      apply Hnew, Exists_exists. exists r. split; [done|].
      apply same_key_row_key. by rewrite Hx'.
Qed.

Lemma foldl_upsert_row_ok {A} (f : A → CacheRow) (l : list A) t :
  table_ok t → table_ok (foldl (fun t a => upsert_row (f a) t) t l).
Proof.
  revert t. induction l as [|a l IH]; intros t Ht; [done|].
  cbn [foldl]. apply IH. by apply upsert_row_ok.
Qed.

Lemma delete_oldest_ok n t : table_ok t → table_ok (delete_oldest n t).
Proof.
  intros [Hid Hkey]. unfold delete_oldest. split.
  - eapply sublist_NoDup; [exact Hid|]. apply fmap_sublist, sublist_filter.
  - eapply sublist_NoDup; [exact Hkey|]. apply fmap_sublist, sublist_filter.
Qed.

Lemma sql_db_ok fault stmt :
  (∀ d d', db_ok d → stmt d = Ok d' → db_ok d') →
  preserves (fun w => db_ok (db (self w))) (sql fault stmt).
Proof.
  intros Hstmt w Hw. unfold sql. destruct fault; [done|].
  destruct (stmt (db (self w))) eqn:Hs; [|done]. cbn. by apply (Hstmt (db (self w))).
Qed.

Lemma seed_rows_db_ok faults k rows :
  preserves (fun w => db_ok (db (self w))) (seed_rows faults k rows).
Proof.
  revert k. induction rows as [|row rows IH]; intros k; cbn [seed_rows].
  - apply preserves_ret.
  - apply preserves_bind; [|intros _; apply IH].
    apply sql_db_ok. intros d d' [Ht Hs] [= <-]. split; [|done].
    by apply upsert_row_ok.
Qed.

Lemma seedEmbeddingCache_db_ok faults sourceDb :
  preserves (fun w => db_ok (db (self w))) (seedEmbeddingCache faults sourceDb).
Proof.
  assert (Hnop : ∀ fault, preserves (fun w => db_ok (db (self w))) (sql fault Ok)).
  { intros fault. apply sql_db_ok. by intros d d' Hd [= <-]. }
  unfold seedEmbeddingCache.
  apply preserves_bind; [apply preserves_get_self|intros s].
  apply preserves_if; [apply preserves_ret|].
  apply preserves_try_catch.
  - apply preserves_bind; [apply Hnop|intros _].
    apply preserves_if; [apply preserves_ret|].
    apply preserves_bind; [apply Hnop|intros _].
    apply preserves_bind; [|intros _].
    { apply sql_db_ok. intros d d' [Ht Hs]. unfold exec_begin.
      destruct (txn d); [done|]. intros [= <-]. split; [done|]. by intros snap [= <-]. }
    apply preserves_bind; [apply seed_rows_db_ok|intros _].
    apply sql_db_ok. intros d d' [Ht Hs]. unfold exec_commit.
    destruct (txn d); [|done]. intros [= <-]. by split.
  - intros err. apply preserves_bind; [|intros _; apply preserves_throw].
    apply preserves_try_catch; [|intros _; apply preserves_ret].
    apply sql_db_ok. intros d d' [Ht Hs]. unfold exec_rollback.
    destruct (txn d) as [snap|] eqn:Hsnap; [|done]. intros [= <-]. split; [|done].
    by apply Hs.
Qed.

Lemma perform_all_db_ok env calls w :
  db_ok (db (self w)) → db_ok (db (self (perform_all env calls w))).
Proof.
  apply (frame_perform_all (fun w => db_ok (db (self w)))).
  - by intros w0 e.
  - intros env0 entries w0 [Ht Hs]. unfold upsertEmbeddingCache, bind, get_self.
    destruct (negb _); [done|]. destruct (Nat.eqb _ _); [done|].
    cbn. split; [|done]. by apply foldl_upsert_row_ok.
  - intros params. by apply preserves_recordBatchFailure.
  - by intros w0.
  - intros w0 [Ht Hs]. unfold pruneEmbeddingCacheIfNeeded, bind, get_self.
    destruct (negb _); [done|]. destruct (maxEntries _); [|done].
    destruct (_ || _); [done|]. destruct (_ <=? _); [done|].
    cbn. split; [|done]. by apply delete_oldest_ok.
  - apply seedEmbeddingCache_db_ok.
  - by intros w0 t.
Qed.

Lemma one_row_per_key p m k h t :
  NoDup (row_key <$> t) → (length (filter (same_key p m k h) t) <= 1)%nat.
Proof.
  induction t as [|r t IH]; [cbn; lia|].
  rewrite fmap_cons, NoDup_cons. intros [Hr Ht]. rewrite filter_cons.
  destruct (decide (same_key p m k h r)) as [Hk|]; [|by apply IH].
  rewrite filter_none; [cbn; lia|].
  intros r' Hr' Hk'. apply Hr. apply list_elem_of_fmap. exists r'. split; [|done].
  unfold same_key, row_key in *. destruct Hk as (-> & -> & -> & ->).
  by destruct Hk' as (-> & -> & -> & ->).
Qed.

(** X9. The unique constraint of the cache table is kept by the service
    itself.  From a table in which no two rows share a [rowid] or a key
    [(provider, model, provider_key, hash)], whatever is called (embedding
    on any path, pruning, seeding whether it ends well or is rolled back),
    the table is again such a table: there is at most one row per key. *)
Theorem cache_table_stays_unique (env : Env) (calls : list Call) (w : World) :
  db_ok (db (self w)) →
  let t' := table (db (self (perform_all env calls w))) in
  NoDup (rowid <$> t') ∧
  NoDup (row_key <$> t') ∧
  ∀ p m k h, (length (filter (same_key p m k h) t') <= 1)%nat.
Proof.
  intros Hok t'. destruct (perform_all_db_ok env calls w Hok) as [[Hid Hkey] _].
  split; [done|]. split; [done|]. intros p m k h. by apply one_row_per_key.
Qed.

Lemma cache_table_stays_unique_witness :
  let source := {| table := [Sample.row 1 "h1" "1;1;" 5; Sample.row 2 "h2" "2;1;" 6];
                   txn := None |} in
  let calls :=
    [CallEmbedChunksForFile [Sample.chunk_of "alpha" "h1"; Sample.chunk_of "beta" "h3"]
       Sample.file SrcMemory;
     CallSeed Sample.no_faults source; CallPrune] in
  let t' := table (db (self (perform_all Sample.env calls (Sample.world true true 0 [])))) in
  length t' = 2%nat ∧ NoDup (rowid <$> t') ∧ NoDup (row_key <$> t').
Proof.
  intros source calls t'.
  destruct (cache_table_stays_unique Sample.env calls (Sample.world true true 0 []))
    as (Hid & Hkey & _).
  - split; [split; constructor|]. intros snapshot. discriminate.
  - split; [reflexivity|]. split; [exact Hid|exact Hkey].
Defined.

(** * Reading and writing the cache *)

Lemma unique_hashes_start hashes h :
  h ∈ unique_hashes hashes ∅ [] ↔ h ∈ hashes ∧ Js.truthy h = true.
Proof.
  rewrite unique_hashes_elem.
  - split; [intros [Hnil|H]; [by apply not_elem_of_nil in Hnil|done]|by right].
  - intros x. split; intros Hx; [by apply not_elem_of_nil in Hx|by apply not_elem_of_empty in Hx].
Qed.

(** X10. What [loadEmbeddingCache] returns, in full.  The map has an entry for
    a hash exactly when the cache is enabled, the hash was asked for, is
    not empty, and the table has a row for it under the service's
    provider, model and provider key; the entry is that row's embedding,
    parsed.  Repeated and empty hashes in the request, and the cutting of
    the request into statements of 400 hashes, make no difference. *)
Theorem loadEmbeddingCache_exact
    (env : Env) (s : EmbeddingService) (hashes : list string) (h : string) :
  loadEmbeddingCache env s hashes !! h
  = if decide (cache_enabled (cache s) = true ∧ h ∈ hashes ∧ Js.truthy h = true)
    then (fun r => parseEmbedding env (embedding r)) <$>
         last (filter (same_key (id (provider s)) (model (provider s)) (providerKey s) h)
                 (table (db s)))
    else None.
Proof.
  fold (stored env s h). unfold loadEmbeddingCache.
  destruct (cache_enabled (cache s)); cbn [negb]; [|by rewrite decide_False by by intros [? _]].
  destruct (Nat.eqb (length hashes) 0) eqn:Hn.
  { apply length_zero_iff_nil in Hn. subst. rewrite lookup_empty, decide_False; [done|].
    intros (_ & Hin & _). by apply not_elem_of_nil in Hin. }
  pose proof (unique_hashes_start hashes h) as Hu.
  destruct (Nat.eqb (length (unique_hashes hashes ∅ [])) 0) eqn:Hn'.
  { apply length_zero_iff_nil in Hn'. rewrite Hn' in Hu.
    rewrite lookup_empty, decide_False; [done|].
    intros (_ & Hin & Ht). assert (Hnil : h ∈ @nil string) by by apply Hu.
    by apply not_elem_of_nil in Hnil. }
  rewrite load_slices_lookup by (unfold LOAD_BATCH_SIZE; lia). rewrite drop_0.
  destruct (decide (h ∈ unique_hashes hashes ∅ [])) as [Hin|Hout].
  - rewrite decide_True by (split; [done|by apply Hu]). by destruct (stored env s h).
  - rewrite lookup_empty, decide_False; [done|]. intros (_ & Hin & Ht). apply Hout, Hu. done.
Qed.

Lemma loadEmbeddingCache_exact_witness :
  let s := Sample.service true false 0 [Sample.row 1 "h1" "5;1;" 5; Sample.row 2 "" "8;8;" 6] in
  let cached := loadEmbeddingCache Sample.env s ["h1"; ""; "h1"; "h9"] in
  cached !! "h1" = Some [5; 1] ∧ cached !! "" = None ∧ cached !! "h9" = None ∧
  cached !! "h2" = None.
Proof.
  intros s cached. subst cached.
  rewrite !loadEmbeddingCache_exact. repeat split; vm_compute; reflexivity.
Defined.

Lemma upsertEmbeddingCache_enabled env entries w :
  cache_enabled (cache (self w)) = true →
  upsertEmbeddingCache env entries w
  = (Ok tt,
     with_db (set_table
                (foldl (fun t entry =>
                          upsert_row (cache_row env (self w) (clock env (events w) (now w))
                                        entry) t)
                   (table (db (self w))) entries)
                (db (self w))) w).
Proof.
  intros Hon. unfold upsertEmbeddingCache, bind, get_self, Date_now, modify_self, ret.
  rewrite Hon. cbn [negb].
  destruct (Nat.eqb (length entries) 0) eqn:Hn; [|done].
  apply length_zero_iff_nil in Hn. subst. cbn [foldl].
  unfold set_table. destruct w as [s evs t], s as [[] ? ? ? ? ? ? ? ? ? ?]. done.
Qed.

Lemma upsert_row_other new t p m k h :
  (row_provider new, row_model new, provider_key new, row_hash new) ≠ (p, m, k, h) →
  filter (same_key p m k h) (upsert_row new t) = filter (same_key p m k h) t.
Proof.
  intros Hne. unfold upsert_row. destruct (decide (Exists _ t)) as [Hex|Hnew].
  - clear Hex. induction t as [|r t IH]; [done|].
    rewrite fmap_cons, !filter_cons, IH.
    destruct (decide (same_key (row_provider new) (row_model new) (provider_key new)
                        (row_hash new) r)) as [Hr|Hr].
    + rewrite !decide_False; [done| |].
      * intros (? & ? & ? & ?). destruct Hr as (? & ? & ? & ?). apply Hne. congruence.
      * intros (? & ? & ? & ?). destruct Hr as (? & ? & ? & ?). apply Hne.
        cbn in *. congruence.
    + done.
  - rewrite filter_app, filter_cons, decide_False, filter_nil, app_nil_r; [done|].
    intros (? & ? & ? & ?). apply Hne. cbn in *. congruence.
Qed.

Lemma stored_foldl_upsert env s t0 now0 entries h :
  (fun r => parseEmbedding env (embedding r)) <$>
  last (filter (same_key (id (provider s)) (model (provider s)) (providerKey s) h)
          (foldl (fun t entry => upsert_row (cache_row env s now0 entry) t) t0 entries))
  = match last (filter (fun e => entry_hash e = h) entries) with
    | Some e => Some (parseEmbedding env (JSON_stringify env (entry_embedding e)))
    | None =>
        (fun r => parseEmbedding env (embedding r)) <$>
        last (filter (same_key (id (provider s)) (model (provider s)) (providerKey s) h) t0)
    end.
Proof.
  induction entries as [|e entries IH] using rev_ind; [done|].
  rewrite foldl_app, filter_app. cbn [foldl].
  destruct (decide (entry_hash e = h)) as [Heq|Hne].
  - rewrite filter_cons_True, filter_nil, last_snoc by done.
    destruct (upsert_row_last (cache_row env s now0 e)
                (foldl (fun t entry => upsert_row (cache_row env s now0 entry) t) t0 entries))
      as (r & Hr & Hemb & _).
    cbn [cache_row row_provider row_model provider_key row_hash] in Hr.
    rewrite Heq in Hr. rewrite Hr. cbn [fmap option_fmap option_map]. by rewrite Hemb.
  - rewrite filter_cons_False, filter_nil, app_nil_r by done.
    rewrite upsert_row_other; [done|]. cbn. congruence.
Qed.

Lemma upsert_row_length new t :
  (length t <= length (upsert_row new t) <= S (length t))%nat.
Proof.
  unfold upsert_row. destruct (decide _).
  - rewrite length_fmap. lia.
  - rewrite length_app. cbn. lia.
Qed.

Lemma foldl_upsert_row_length {A} (f : A → CacheRow) (l : list A) t :
  (length t <= length (foldl (fun t a => upsert_row (f a) t) t l) <= length t + length l)%nat.
Proof.
  revert t. induction l as [|a l IH]; intros t; cbn [foldl length]; [lia|].
  specialize (IH (upsert_row (f a) t)). pose proof (upsert_row_length (f a) t). lia.
Qed.

(** X11. Writing to the cache and reading it back.  After
    [upsertEmbeddingCache] of any entries, with the cache enabled, the
    table holds for every hash among the entries the vector of the last
    entry with that hash (as [JSON.stringify] wrote and [parseEmbedding]
    reads it), and for every other hash what it held before; rows under
    another provider, model or provider key are not touched; no row is
    lost, and at most one row per entry is added. *)
Theorem upsertEmbeddingCache_then_load
    (env : Env) (entries : list CacheEntry) (w : World) :
  cache_enabled (cache (self w)) = true →
  let w' := snd (upsertEmbeddingCache env entries w) in
  fst (upsertEmbeddingCache env entries w) = Ok tt ∧
  (∀ h,
     stored env (self w') h
     = match last (filter (fun e => entry_hash e = h) entries) with
       | Some e => Some (parseEmbedding env (JSON_stringify env (entry_embedding e)))
       | None => stored env (self w) h
       end) ∧
  (∀ p m k h,
     (p, m, k) ≠ (id (provider (self w)), model (provider (self w)), providerKey (self w)) →
     filter (same_key p m k h) (table (db (self w')))
     = filter (same_key p m k h) (table (db (self w)))) ∧
  (getCacheEntryCount (self w) <= getCacheEntryCount (self w')
   <= getCacheEntryCount (self w) + Z.of_nat (length entries)).
Proof.
  intros Hon w'. subst w'. rewrite (upsertEmbeddingCache_enabled env entries w Hon).
  cbn [fst snd]. split; [done|]. split; [|split].
  - intros h. unfold stored. cbn [with_db self set_db db provider providerKey set_table table].
    apply stored_foldl_upsert.
  - intros p m k h Hne. cbn [with_db self set_db db set_table table].
    generalize (table (db (self w))). induction entries as [|e entries IH]; intros t; [done|].
    cbn [foldl]. rewrite IH. apply upsert_row_other. cbn. congruence.
  - unfold getCacheEntryCount. cbn [with_db self set_db db cache set_table table].
    rewrite Hon. cbn [negb].
    pose proof (foldl_upsert_row_length
                  (cache_row env (self w) (clock env (events w) (now w))) entries
                  (table (db (self w)))). lia.
Qed.

Lemma upsertEmbeddingCache_then_load_witness :
  let w := Sample.world true false 0 [Sample.row 1 "h2" "9;9;" 5] in
  let entries := [ {| entry_hash := "h1"; entry_embedding := [1; 2] |};
                   {| entry_hash := "h1"; entry_embedding := [3; 4] |} ] in
  let w' := snd (upsertEmbeddingCache Sample.env entries w) in
  stored Sample.env (self w') "h1" = Some [3; 4] ∧
  stored Sample.env (self w') "h2" = Some [9; 9] ∧
  getCacheEntryCount (self w') = 2.
Proof.
  intros w entries w'.
  destruct (upsertEmbeddingCache_then_load Sample.env entries w) as (_ & Hread & _ & _);
    [reflexivity|].
  split; [exact (Hread "h1")|]. split; [exact (Hread "h2")|reflexivity].
Defined.

(** * More on seeding and pruning *)

Lemma upsert_row_settled new t : settled (upsert_row new t) new.
Proof.
  unfold settled, upsert_row. cbn zeta.
  set (hit := same_key (row_provider new) (row_model new) (provider_key new) (row_hash new)).
  destruct (decide (Exists hit t)) as [Hex|Hnew].
  - induction t as [|r t IH]; [by apply Exists_nil in Hex|].
    rewrite fmap_cons, filter_cons.
    assert (Hrest : Forall (agrees new)
              (filter hit
                 ((fun r => if decide (hit r)
                            then {| rowid := rowid r;
                                    row_provider := row_provider r; row_model := row_model r;
                                    provider_key := provider_key r; row_hash := row_hash r;
                                    embedding := embedding new; dims := dims new;
                                    updated_at := updated_at new |}
                            else r) <$> t))).
    { destruct (decide (Exists hit t)) as [Hex'|Hnone]; [by apply IH|].
      rewrite filter_none; [done|]. intros x Hx Hhit.
      apply list_elem_of_fmap in Hx as (y & -> & Hy).
      apply Hnone, Exists_exists. exists y. split; [done|].
      by destruct (decide (hit y)). }
    destruct (decide (hit r)) as [Hr|Hr].
    + rewrite decide_True by done. split; [done|]. by constructor.
    + rewrite decide_False by done. split; [|done].
      apply Exists_cons in Hex as [?|Hex]; [done|]. by apply IH.
  - rewrite filter_app, filter_cons, decide_True, filter_nil by done.
    split; [by destruct (filter hit t)|].
    apply Forall_app. split; [|by repeat constructor].
    rewrite filter_none; [done|]. intros x Hx Hhit. apply Hnew, Exists_exists. by exists x.
Qed.

Lemma upsert_row_settled_other new t r :
  row_key r ≠ row_key new → settled t r → settled (upsert_row new t) r.
Proof.
  intros Hne. unfold settled. cbn zeta. rewrite upsert_row_other; [done|].
  intros Heq. apply Hne. unfold row_key. congruence.
Qed.

Lemma upsert_row_fixed new t : settled t new → upsert_row new t = t.
Proof.
  intros [Hsome Hall]. unfold upsert_row.
  set (hit := same_key (row_provider new) (row_model new) (provider_key new) (row_hash new))
    in *.
  destruct (decide (Exists hit t)) as [Hex|Hnew].
  - rewrite <- (list_fmap_id t) at 2. apply list_fmap_ext. intros i r Hr.
    destruct (decide (hit r)) as [Hhit|]; [|done].
    assert (Hin : r ∈ filter hit t).
    { apply list_elem_of_filter. split; [done|]. by apply list_elem_of_lookup_2 in Hr. }
    destruct (proj1 (Forall_forall _ _) Hall r Hin) as (He & Hd & Hu).
    destruct r. cbn in *. by subst.
  - exfalso. apply Hsome. apply filter_none. intros x Hx Hhit.
    apply Hnew, Exists_exists. by exists x.
Qed.

Lemma foldl_upsert_settled rows t r :
  NoDup (row_key <$> rows) → r ∈ rows →
  settled (foldl (fun t row => upsert_row row t) t rows) r.
Proof.
  induction rows as [|row rows IH] using rev_ind; intros Hnodup Hr.
  - by apply not_elem_of_nil in Hr.
  - rewrite foldl_app. cbn [foldl]. rewrite fmap_app in Hnodup.
    apply NoDup_app in Hnodup as (Hrows & Hapart & _).
    apply elem_of_app in Hr as [Hr|Hr].
    + apply upsert_row_settled_other; [|by apply IH].
      intros Heq. apply (Hapart (row_key r)).
      * apply list_elem_of_fmap. by exists r.
      * rewrite Heq. cbn. apply list_elem_of_singleton. done.
    + apply list_elem_of_singleton in Hr as ->. apply upsert_row_settled.
Qed.

Lemma foldl_upsert_fixed rows t :
  (∀ r, r ∈ rows → settled t r) → foldl (fun t row => upsert_row row t) t rows = t.
Proof.
  induction rows as [|row rows IH]; intros Hall; [done|].
  cbn [foldl]. rewrite upsert_row_fixed by (apply Hall; left).
  apply IH. intros r Hr. apply Hall. by right.
Qed.

Lemma seed_rows_no_faults faults k rows w :
  (∀ i, faults i = None) →
  seed_rows faults k rows w
  = (Ok tt, with_db (set_table (foldl (fun t row => upsert_row row t) (table (db (self w))) rows)
                       (db (self w))) w).
Proof.
  intros Hnone.
  destruct (seed_rows_run faults k rows w)
    as [(t' & Hrun & Ht' & _)|(t' & e & i & _ & _ & He & _)].
  - by rewrite Hrun, Ht'.
  - by rewrite Hnone in He.
Qed.

Lemma seedEmbeddingCache_no_faults faults sourceDb w :
  cache_enabled (cache (self w)) = true →
  txn (db (self w)) = None →
  (∀ i, faults i = None) →
  seedEmbeddingCache faults sourceDb w
  = (Ok tt,
     with_db {| table := foldl (fun t row => upsert_row row t) (table (db (self w)))
                           (table sourceDb);
                txn := None |} w).
Proof.
  intros Hon Hidle Hnone.
  assert (Hw : with_db {| table := table (db (self w)); txn := None |} w = w).
  { rewrite <- Hidle. by destruct w as [[[] ] ??]. }
  rewrite (seedEmbeddingCache_enabled faults sourceDb w Hon).
  unfold try_catch, seed_body.
  rewrite (Hnone 0%nat), bind_sql_none, with_db_same.
  destruct (Nat.eqb (length (table sourceDb)) 0) eqn:Hlen.
  { apply length_zero_iff_nil in Hlen. rewrite Hlen. cbn [foldl]. by rewrite Hw. }
  rewrite (Hnone 1%nat), bind_sql_none, with_db_same.
  rewrite (Hnone 2%nat), bind_sql_none. unfold exec_begin. rewrite Hidle.
  rewrite (bind_ok _ _ _ _ _ (seed_rows_no_faults faults 3 (table sourceDb) _ Hnone)).
  by rewrite (Hnone (3 + length (table sourceDb))%nat).
Qed.

(** X12. Seeding twice is seeding once.  When the cache is enabled, no
    transaction is open and no statement fails, a second
    [seedEmbeddingCache] from the same source (whose rows have distinct
    keys, as rows of a cache table have) returns and leaves the target
    exactly as the first left it: same rows, same [rowid]s, same
    timestamps. *)
Theorem seedEmbeddingCache_idempotent
    (faults : nat → option JsValue) (sourceDb : DatabaseSync) (w : World) :
  cache_enabled (cache (self w)) = true →
  txn (db (self w)) = None →
  (∀ i, faults i = None) →
  NoDup (row_key <$> table sourceDb) →
  let w1 := snd (seedEmbeddingCache faults sourceDb w) in
  fst (seedEmbeddingCache faults sourceDb w) = Ok tt ∧
  seedEmbeddingCache faults sourceDb w1 = (Ok tt, w1).
Proof.
  intros Hon Hidle Hnone Hnodup w1. subst w1.
  rewrite (seedEmbeddingCache_no_faults faults sourceDb w Hon Hidle Hnone).
  cbn [fst snd]. split; [done|].
  rewrite seedEmbeddingCache_no_faults; [|done|done|done].
  cbn [with_db self set_db db table].
  rewrite foldl_upsert_fixed; [by rewrite with_db_twice|].
  intros r Hr. by apply foldl_upsert_settled.
Qed.

Lemma seedEmbeddingCache_idempotent_witness :
  let source := {| table := [Sample.row 1 "h1" "1;1;" 5; Sample.row 2 "h2" "2;1;" 6];
                   txn := None |} in
  let w := Sample.world true true 0 [Sample.row 7 "h1" "0;1;" 1] in
  let w1 := snd (seedEmbeddingCache Sample.no_faults source w) in
  table (db (self w1)) = [Sample.row 7 "h1" "1;1;" 5; Sample.row 8 "h2" "2;1;" 6] ∧
  seedEmbeddingCache Sample.no_faults source w1 = (Ok tt, w1).
Proof.
  intros source w w1.
  destruct (seedEmbeddingCache_idempotent Sample.no_faults source w) as [_ Hagain].
  - reflexivity.
  - reflexivity.
  - reflexivity.
  - apply (bool_decide_unpack _). vm_compute. exact I.
  - split; [reflexivity|exact Hagain].
Defined.

Lemma settled_stored env s t r :
  (row_provider r, row_model r, provider_key r)
  = (id (provider s), model (provider s), providerKey s) →
  settled t r →
  (fun x => parseEmbedding env (embedding x)) <$>
  last (filter (same_key (id (provider s)) (model (provider s)) (providerKey s) (row_hash r)) t)
  = Some (parseEmbedding env (embedding r)).
Proof.
  intros [= <- <- <-] [Hsome Hall].
  destruct (last (filter _ t)) as [x|] eqn:Hlast.
  - cbn. apply last_Some_elem_of in Hlast.
    by destruct (proj1 (Forall_forall _ _) Hall x Hlast) as [-> _].
  - by apply last_None in Hlast.
Qed.

(** X13. What was seeded is served.  After a seeding that met no fault, every
    row of the source written under the service's provider, model and
    provider key is in the cache of the service: a chunk with the row's
    hash is answered with the row's vector, without a provider call and
    without a batch, on whatever path. *)
Theorem seeded_rows_are_served
    (env : Env) (faults : nat → option JsValue) (sourceDb : DatabaseSync) (w : World)
    (r : CacheRow) :
  cache_enabled (cache (self w)) = true →
  txn (db (self w)) = None →
  (∀ i, faults i = None) →
  NoDup (row_key <$> table sourceDb) →
  r ∈ table sourceDb →
  (row_provider r, row_model r, provider_key r)
  = (id (provider (self w)), model (provider (self w)), providerKey (self w)) →
  let w1 := snd (seedEmbeddingCache faults sourceDb w) in
  stored env (self w1) (row_hash r) = Some (parseEmbedding env (embedding r)) ∧
  ∀ c entry source,
    hash c = row_hash r → Js.truthy (hash c) = true →
    parseEmbedding env (embedding r) ≠ [] →
    embedChunksForFile env [c] entry source w1
    = (Ok [parseEmbedding env (embedding r)], w1).
Proof.
  intros Hon Hidle Hnone Hnodup Hr Hkey w1.
  assert (Hstored : stored env (self w1) (row_hash r) = Some (parseEmbedding env (embedding r))).
  { subst w1. rewrite (seedEmbeddingCache_no_faults faults sourceDb w Hon Hidle Hnone).
    unfold stored. cbn [snd with_db self set_db db table provider providerKey].
    apply settled_stored; [done|]. by apply foldl_upsert_settled. }
  split; [done|]. intros c entry source Hc Ht Hv.
  apply embedChunksForFile_hit; [|done].
  unfold lookup_hit, cached_vector. rewrite Ht.
  assert (Hon1 : cache_enabled (cache (self w1)) = true).
  { subst w1. by rewrite (seedEmbeddingCache_no_faults faults sourceDb w Hon Hidle Hnone). }
  rewrite Hon1, Hc. exact Hstored.
Qed.

Lemma seeded_rows_are_served_witness :
  let source := {| table := [Sample.row 1 "h1" "7;1;" 5]; txn := None |} in
  let w := Sample.world true true 0 [] in
  let w1 := snd (seedEmbeddingCache Sample.no_faults source w) in
  embedChunksForFile Sample.env [Sample.chunk_of "alpha" "h1"] Sample.file SrcMemory w1
  = (Ok [[7; 1]], w1).
Proof.
  intros source w w1.
  destruct (seeded_rows_are_served Sample.env Sample.no_faults source w
              (Sample.row 1 "h1" "7;1;" 5)) as [_ Hserved].
  - reflexivity.
  - reflexivity.
  - reflexivity.
  - apply (bool_decide_unpack _). vm_compute. exact I.
  - apply list_elem_of_singleton. reflexivity.
  - reflexivity.
  - apply (Hserved (Sample.chunk_of "alpha" "h1") Sample.file SrcMemory);
      [reflexivity|reflexivity|vm_compute; discriminate].
Defined.

(** X14. Seeding inside a transaction of the caller.  With a source that has
    rows, [BEGIN] cannot succeed on a connection that has a transaction
    open; the handler's [ROLLBACK] then rolls back that transaction: the
    call throws and the caller's pending changes are gone.  With an empty
    source the call returns before [BEGIN] and touches nothing. *)
Theorem seedEmbeddingCache_in_transaction
    (faults : nat → option JsValue) (sourceDb : DatabaseSync) (w : World)
    (snapshot : list CacheRow) :
  cache_enabled (cache (self w)) = true →
  txn (db (self w)) = Some snapshot →
  faults 0%nat = None →
  (table sourceDb = [] → seedEmbeddingCache faults sourceDb w = (Ok tt, w)) ∧
  (table sourceDb ≠ [] →
   ∃ e, seedEmbeddingCache faults sourceDb w
        = (Throw e, with_db {| table := snapshot; txn := None |} w) ∧
        (faults 1%nat = None → faults 2%nat = None →
         e = sql_error "cannot start a transaction within a transaction")).
Proof.
  intros Hon Hopen H0.
  rewrite (seedEmbeddingCache_enabled faults sourceDb w Hon).
  unfold try_catch, seed_body. rewrite H0, bind_sql_none, with_db_same.
  assert (Hhandler : ∀ e, seed_handler e w
                          = (Throw e, with_db {| table := snapshot; txn := None |} w)).
  { intros e. unfold seed_handler, bind, try_catch, sql, exec_rollback. by rewrite Hopen. }
  split.
  - by intros ->.
  - intros Hrows. apply length_nonzero_iff in Hrows. rewrite Hrows.
    destruct (faults 1%nat) as [e1|] eqn:H1.
    { exists e1. rewrite bind_sql_fault, Hhandler. by split. }
    rewrite bind_sql_none, with_db_same.
    destruct (faults 2%nat) as [e2|] eqn:H2.
    { exists e2. rewrite bind_sql_fault, Hhandler. by split. }
    rewrite bind_sql_none. unfold exec_begin. rewrite Hopen.
    eexists. rewrite Hhandler. by split.
Qed.

Lemma seedEmbeddingCache_in_transaction_witness :
  let source := {| table := [Sample.row 1 "h1" "1;1;" 5]; txn := None |} in
  let pending := {| table := [Sample.row 7 "h0" "0;1;" 1]; txn := Some [] |} in
  let w := with_db pending (Sample.world true true 0 []) in
  ∃ e, seedEmbeddingCache Sample.no_faults source w
       = (Throw e, with_db {| table := []; txn := None |} w).
Proof.
  intros source pending w.
  destruct (seedEmbeddingCache_in_transaction Sample.no_faults source w [])
    as [_ Hthrow]; [reflexivity|reflexivity|reflexivity|].
  destruct Hthrow as (e & Hrun & _); [discriminate|].
  exists e. exact Hrun.
Defined.

Lemma pruneEmbeddingCacheIfNeeded_cases w :
  pruneEmbeddingCacheIfNeeded w = (Ok tt, w) ∧
  (cache_enabled (cache (self w)) = false ∨
   maxEntries (cache (self w)) = None ∨
   ∃ max, maxEntries (cache (self w)) = Some max ∧
          (max <= 0 ∨ Z.of_nat (length (table (db (self w)))) <= max)) ∨
  ∃ max,
    cache_enabled (cache (self w)) = true ∧
    maxEntries (cache (self w)) = Some max ∧ 0 < max ∧
    max < Z.of_nat (length (table (db (self w)))) ∧
    pruneEmbeddingCacheIfNeeded w
    = (Ok tt,
       with_db (set_table
                  (delete_oldest (Z.of_nat (length (table (db (self w)))) - max)
                     (table (db (self w))))
                  (db (self w))) w).
Proof.
  unfold pruneEmbeddingCacheIfNeeded, bind, get_self, ret, modify_self.
  destruct (cache_enabled (cache (self w))) eqn:Hon; cbn [negb]; [|left; auto].
  destruct (maxEntries (cache (self w))) as [max|] eqn:Hmax; [|left; auto].
  destruct (Z.eqb_spec max 0); [left; split; [done|]; right; right; exists max; split; [done|lia]|].
  cbn [orb].
  destruct (Z.leb_spec max 0); [left; split; [done|]; right; right; exists max; split; [done|lia]|].
  destruct (Z.leb_spec (Z.of_nat (length (table (db (self w))))) max).
  - left. split; [done|]. right. right. exists max. split; [done|lia].
  - right. exists max. repeat split; done || lia.
Qed.

Lemma delete_oldest_length n t :
  NoDup (rowid <$> t) → length (delete_oldest n t) = (length t - Z.to_nat n)%nat.
Proof.
  intros Hnodup. rewrite (delete_oldest_perm n t Hnodup), length_drop.
  by rewrite (order_by_updated_at_perm t).
Qed.

(** X15. Pruning brings the cache within its bound and is idempotent.  After
    [pruneEmbeddingCacheIfNeeded] on a table with distinct [rowid]s, an
    enabled cache with a positive [maxEntries] holds at most that many
    entries, no entry has been added, and pruning again changes
    nothing. *)
Theorem pruneEmbeddingCacheIfNeeded_idempotent (w : World) :
  NoDup (rowid <$> table (db (self w))) →
  let w1 := snd (pruneEmbeddingCacheIfNeeded w) in
  (∀ max, cache_enabled (cache (self w)) = true →
          maxEntries (cache (self w)) = Some max → 0 < max →
          getCacheEntryCount (self w1) <= max) ∧
  getCacheEntryCount (self w1) <= getCacheEntryCount (self w) ∧
  pruneEmbeddingCacheIfNeeded w1 = (Ok tt, w1).
Proof.
  intros Hnodup w1. subst w1.
  destruct (pruneEmbeddingCacheIfNeeded_cases w)
    as [[Hrun Hwhy]|(max & Hon & Hmax & Hpos & Hmany & Hrun)].
  - rewrite Hrun. cbn [snd]. split; [|split; [lia|done]].
    intros max Hon Hmax Hpos. unfold getCacheEntryCount. rewrite Hon. cbn [negb].
    destruct Hwhy as [Hoff|[Hnone|(max' & Hmax' & Hle)]]; [congruence|congruence|].
    rewrite Hmax in Hmax'. injection Hmax' as <-. lia.
  - rewrite Hrun. cbn [snd].
    set (kept := delete_oldest (Z.of_nat (length (table (db (self w)))) - max)
                   (table (db (self w)))).
    assert (Hlen : Z.of_nat (length kept) = max).
    { subst kept. rewrite delete_oldest_length by done. lia. }
    assert (Hcount : getCacheEntryCount
                       (self (with_db (set_table kept (db (self w))) w)) = max).
    { unfold getCacheEntryCount. cbn [with_db self set_db cache db set_table table].
      by rewrite Hon. }
    split; [|split].
    + intros max' _ Hmax' _. rewrite Hmax in Hmax'. injection Hmax' as <-. lia.
    + rewrite Hcount. unfold getCacheEntryCount. rewrite Hon. cbn [negb]. lia.
    + destruct (pruneEmbeddingCacheIfNeeded_cases (with_db (set_table kept (db (self w))) w))
        as [[Hagain _]|(max' & _ & Hmax' & _ & Hmany' & _)]; [done|].
      cbn [with_db self set_db cache db set_table table] in Hmax', Hmany'.
      rewrite Hmax in Hmax'. injection Hmax' as <-. lia.
Qed.

Lemma pruneEmbeddingCacheIfNeeded_idempotent_witness :
  let rows := [Sample.row 1 "h1" "1;1;" 40; Sample.row 2 "h2" "2;1;" 10;
               Sample.row 3 "h3" "3;1;" 30] in
  let w1 := snd (pruneEmbeddingCacheIfNeeded (Sample.world true true 0 rows)) in
  getCacheEntryCount (self w1) <= 2 ∧ pruneEmbeddingCacheIfNeeded w1 = (Ok tt, w1).
Proof.
  intros rows w1.
  destruct (pruneEmbeddingCacheIfNeeded_idempotent (Sample.world true true 0 rows))
    as (Hbound & _ & Hagain).
  - apply (bool_decide_unpack _). vm_compute. exact I.
  - split; [|exact Hagain]. apply (Hbound 2); [reflexivity|reflexivity|lia].
Defined.

(** * The three paths of [embedChunksForFile] *)

Lemma bool_decide_is_Some {A} (o : option A) :
  bool_decide (is_Some o) = match o with Some _ => true | None => false end.
Proof.
  destruct o; [by apply bool_decide_eq_true_2|apply bool_decide_eq_false_2; by intros [? ?]].
Qed.

Lemma embedChunksForFile_route env chunks entry source w :
  embedChunksForFile env chunks entry source w
  = match route (self w) with
    | RouteInline => embedChunksInBatches env chunks w
    | RouteOpenAi client =>
        embedChunksWithBatchApi env "openai" (openAiRequest client) OpenAiReq
          (fun hist requests cfg =>
             runOpenAiEmbeddingBatches env hist client (agentId (self w)) requests cfg)
          chunks entry source w
    | RouteGemini client =>
        embedChunksWithBatchApi env "gemini" geminiRequest GeminiReq
          (fun hist requests cfg =>
             runGeminiEmbeddingBatches env hist client (agentId (self w)) requests cfg)
          chunks entry source w
    end.
Proof.
  unfold embedChunksForFile, route, embedChunksWithBatch, embedChunksWithOpenAiBatch,
    embedChunksWithGeminiBatch, bind, get_self.
  destruct (enabled (batch (self w))); cbn [negb]; [|done].
  cbn beta. rewrite !bool_decide_is_Some.
  destruct (String.eqb (id (provider (self w))) "openai"),
           (String.eqb (id (provider (self w))) "gemini"),
           (openAi (self w)) as [oa|] eqn:Hoa, (gemini (self w)) as [gm|] eqn:Hgm;
    cbn; rewrite ?Hoa, ?Hgm; reflexivity.
Qed.

(** ** Files served from the cache *)

Lemma misses_from_nil cached rest i :
  (∀ c, c ∈ rest → usable_hit (cache_hit cached c) = true) → misses_from cached rest i = [].
Proof.
  revert i. induction rest as [|c rest IH]; intros i Hall; [done|].
  cbn [misses_from]. rewrite Hall by left. apply IH. intros c' Hc'. apply Hall. by right.
Qed.

Lemma scan_file_all_served env s chunks :
  (∀ c, c ∈ chunks → served env s c) →
  scan_file env s chunks = (from_cache env s <$> chunks, []).
Proof.
  intros Hall.
  assert (Hmiss : (scan_file env s chunks).2 = []).
  { rewrite scan_file_missing. apply misses_from_nil. intros c Hc.
    rewrite (cache_hit_lookup_hit env s chunks c Hc). by apply usable_hit_served, Hall. }
  pose proof (put_writes_scan env s (fun _ => []) chunks []) as Hscan.
  rewrite Hmiss in Hscan. cbn in Hscan.
  destruct (scan_file env s chunks) as [embeddings missing]. cbn in *. subst missing.
  f_equal. rewrite Hscan. apply list_fmap_ext. intros i c Hc.
  apply list_elem_of_lookup_2 in Hc. specialize (Hall c Hc).
  unfold embedding_for, from_cache.
  rewrite (proj2 (usable_hit_served env s c) Hall).
  unfold lookup_hit. by destruct Hall as [-> _].
Qed.

Lemma embedChunksInBatches_all_served env chunks w :
  (∀ c, c ∈ chunks → served env (self w) c) →
  embedChunksInBatches env chunks w = (Ok (from_cache env (self w) <$> chunks), w).
Proof.
  intros Hall. destruct chunks as [|c chunks]; [done|].
  rewrite embedChunksInBatches_unfold by done. by rewrite scan_file_all_served.
Qed.

Lemma embedChunksWithBatchApi_all_served {R} env name (mk : string → MemoryChunk → R)
    view runner chunks entry source w :
  (∀ c, c ∈ chunks → served env (self w) c) →
  embedChunksWithBatchApi env name mk view runner chunks entry source w
  = (Ok (from_cache env (self w) <$> chunks), w).
Proof.
  intros Hall. destruct chunks as [|c chunks]; [done|].
  rewrite embedChunksWithBatchApi_unfold by done. by rewrite scan_file_all_served.
Qed.

(** X16. A file whose chunks are all in the cache costs nothing.  If every
    chunk has a non-empty hash under which the cache holds a non-empty
    vector, [embedChunksInBatches] and [embedChunksForFile] (whichever
    path it takes) return those vectors in the order of the chunks, and
    the world is as before: no provider call, no batch, no write, no
    row's [updated_at] refreshed by the read.  An empty file is the
    special case that returns the empty array. *)
Theorem all_hits_touch_nothing
    (env : Env) (chunks : list MemoryChunk) (entry : FileEntry) (source : MemorySource)
    (w : World) :
  (∀ c, c ∈ chunks → served env (self w) c) →
  embedChunksInBatches env chunks w = (Ok (from_cache env (self w) <$> chunks), w) ∧
  embedChunksForFile env chunks entry source w
  = (Ok (from_cache env (self w) <$> chunks), w).
Proof.
  intros Hall. split; [by apply embedChunksInBatches_all_served|].
  rewrite embedChunksForFile_route. destruct (route (self w)) as [|client|client].
  - by apply embedChunksInBatches_all_served.
  - by apply embedChunksWithBatchApi_all_served.
  - by apply embedChunksWithBatchApi_all_served.
Qed.

Lemma all_hits_touch_nothing_witness :
  let w := Sample.world true true 0 [Sample.row 1 "h1" "5;1;" 5; Sample.row 2 "h2" "9;9;" 6] in
  let chunks := [Sample.chunk_of "beta" "h2"; Sample.chunk_of "alpha" "h1"] in
  embedChunksForFile Sample.env chunks Sample.file SrcMemory w = (Ok [[9; 9]; [5; 1]], w).
Proof.
  intros w chunks.
  destruct (all_hits_touch_nothing Sample.env chunks Sample.file SrcMemory w) as [_ Hfile].
  - intros c Hc. apply usable_hit_served.
    apply elem_of_cons in Hc as [->|Hc]; [reflexivity|].
    apply list_elem_of_singleton in Hc as ->. reflexivity.
  - exact Hfile.
Defined.

(** ** A failed call writes nothing *)

Lemma embed_bins_self env missing bins st w :
  self (snd (embed_bins env missing bins st w)) = self w.
Proof. by apply (frame_embed_bins (fun x => self x = self w)). Qed.

Lemma embedChunksInBatches_throw_self env chunks w e w' :
  embedChunksInBatches env chunks w = (Throw e, w') → self w' = self w.
Proof.
  destruct chunks as [|c chunks]; [done|].
  rewrite embedChunksInBatches_unfold by done.
  destruct (scan_file env (self w) (c :: chunks)) as [embeddings missing].
  destruct (Nat.eqb (length missing) 0); [done|].
  intros Hthrow. apply bind_inv_throw in Hthrow as [Hbins|(st & w1 & _ & Hrest)].
  - rewrite <- (embed_bins_self env missing (buildEmbeddingBatches (chunk <$> missing))
                 {| fill_embeddings := embeddings; fill_toCache := []; fill_cursor := 0 |} w).
    by rewrite Hbins.
  - apply bind_inv_throw in Hrest as [Hup|(? & ? & _ & ?)]; [|done].
    by rewrite upsertEmbeddingCache_returns in Hup.
Qed.

Lemma recordBatchFailure_db params w :
  db (self (snd (recordBatchFailure params w))) = db (self w).
Proof. by apply (preserves_recordBatchFailure (fun x => db (self x) = db (self w))). Qed.

Lemma embedChunksWithBatchApi_throw_db {R} env name (mk : string → MemoryChunk → R)
    view runner chunks entry source w e w' :
  embedChunksWithBatchApi env name mk view runner chunks entry source w = (Throw e, w') →
  db (self w') = db (self w).
Proof.
  destruct chunks as [|c chunks]; [done|].
  rewrite embedChunksWithBatchApi_unfold by done.
  destruct (scan_file env (self w) (c :: chunks)) as [embeddings missing].
  destruct (Nat.eqb (length missing) 0); [done|].
  destruct (build_requests _ _ _ _ _ _ _) as [requests mapping].
  fold (submit view runner requests).
  intros Hthrow. apply bind_inv_throw in Hthrow as [Hfb|(r & w1 & _ & Hrest)].
  - pose proof (submission_self env name view runner requests w) as Hself.
    destruct (enabled (batch (self w))) eqn:Hon.
    + destruct (runBatchWithTimeoutRetry env name (submit view runner requests) w)
        as [[result|err] w1] eqn:Hrun.
      * by rewrite (runBatchWithFallback_success _ _ _ _ _ _ _ Hon Hrun) in Hfb.
      * cbn in Hself. destruct (nullish err) eqn:Hnull.
        { rewrite (runBatchWithFallback_nullish _ _ _ _ _ _ _ Hon Hrun Hnull) in Hfb.
          injection Hfb as _ <-. by rewrite Hself. }
        rewrite (runBatchWithFallback_failure _ _ _ _ _ _ _ Hon Hrun Hnull) in Hfb.
        unfold as_fallback in Hfb.
        destruct (embedChunksInBatches env (c :: chunks) _) as [[r|e2] w3] eqn:Hin; [done|].
        injection Hfb as -> ->. apply embedChunksInBatches_throw_self in Hin.
        rewrite Hin, recordBatchFailure_db. by rewrite Hself.
    + rewrite (runBatchWithFallback_disabled _ _ _ _ _ Hon) in Hfb. unfold as_fallback in Hfb.
      destruct (embedChunksInBatches env (c :: chunks) w) as [[r|e2] w3] eqn:Hin; [done|].
      injection Hfb as -> ->. apply embedChunksInBatches_throw_self in Hin. by rewrite Hin.
  - destruct r as [byCustomId|array]; [|done].
    destruct (reconcile _ _ _ _) as [embeddings' toCache].
    apply bind_inv_throw in Hrest as [Hup|(? & ? & _ & ?)]; [|done].
    by rewrite upsertEmbeddingCache_returns in Hup.
Qed.

(** X17. A call that fails caches nothing.  When [embedChunksInBatches] throws,
    the service is as it was before the call: the vectors of the bins
    that had been embedded before the failing one are dropped, not
    cached.  When [embedChunksForFile] throws, on whatever path, the
    database is as it was (a failure of the batch API may have been
    recorded on the way). *)
Theorem failed_embedding_caches_nothing
    (env : Env) (chunks : list MemoryChunk) (entry : FileEntry) (source : MemorySource)
    (w : World) :
  (∀ e w', embedChunksInBatches env chunks w = (Throw e, w') → self w' = self w) ∧
  (∀ e w', embedChunksForFile env chunks entry source w = (Throw e, w') →
           db (self w') = db (self w)).
Proof.
  split; [apply embedChunksInBatches_throw_self|].
  intros e w'. rewrite embedChunksForFile_route. destruct (route (self w)).
  - intros Hin. by rewrite (embedChunksInBatches_throw_self _ _ _ _ _ Hin).
  - apply embedChunksWithBatchApi_throw_db.
  - apply embedChunksWithBatchApi_throw_db.
Qed.

Lemma failed_embedding_caches_nothing_witness :
  let w := Sample.world true false 0 [] in
  let chunks := [Sample.chunk_of (Scenario.long 5000) "h1";
                 Sample.chunk_of (Scenario.long 5000) "h2"] in
  let w' := snd (embedChunksInBatches Scenario.env_once chunks w) in
  fst (embedChunksInBatches Scenario.env_once chunks w)
  = Throw (Sample.err "401 unauthorized") ∧
  provider_calls w' = 2%nat ∧
  self w' = self w.
Proof.
  intros w chunks w'.
  destruct (failed_embedding_caches_nothing Scenario.env_once chunks Sample.file SrcMemory w)
    as [Hinline _].
  split; [vm_compute; reflexivity|]. split; [vm_compute; reflexivity|].
  apply (Hinline (Sample.err "401 unauthorized")).
  subst w'. vm_compute. reflexivity.
Defined.

(** ** A provider without a batch API *)

Lemma embedChunksForFile_no_batch_api env chunks entry source w :
  no_batch_api (self w) →
  embedChunksForFile env chunks entry source w = embedChunksInBatches env chunks w.
Proof.
  intros [Hoa Hgm]. rewrite embedChunksForFile_route. unfold route.
  destruct (negb _); [done|].
  destruct (String.eqb_spec (id (provider (self w))) "openai") as [Hid|Hid],
           (openAi (self w)) as [oa|]; try (by destruct Hoa);
    destruct (String.eqb_spec (id (provider (self w))) "gemini") as [Hid'|Hid'],
             (gemini (self w)) as [gm|]; try done; by destruct Hgm.
Qed.

Lemma perform_no_batch_api env k c w :
  no_batch_api (self w) ∧ batch_submissions w = k →
  no_batch_api (self (perform env c w)) ∧ batch_submissions (perform env c w) = k.
Proof.
  set (P := fun x : World => no_batch_api (self x) ∧ batch_submissions x = k).
  assert (P_db : ∀ x d, P x → P {| self := set_db d (self x); events := events x;
                                   now := now x |}) by done.
  assert (P_event : ∀ x e, is_run_batch e = false →
                           P x → P {| self := self x; events := e :: events x;
                                      now := now x |}).
  { intros x e He [Hx Hk]. split; [done|]. unfold batch_submissions in *. cbn. by rewrite He. }
  assert (P_failure : ∀ x n e p, P x → P {| self := set_failure n e p (self x);
                                            events := events x; now := now x |}) by done.
  assert (P_disable : ∀ x, P x → P {| self := set_batch_enabled false (self x);
                                      events := events x; now := now x |}) by done.
  intros Hw. destruct c; cbn [perform].
  - by apply (preserves_embedQuery P).
  - rewrite embedChunksForFile_no_batch_api by apply Hw.
    by apply (preserves_embedChunksInBatches P).
  - by apply (preserves_embedChunksInBatches P).
  - by apply (preserves_prune P).
  - by apply (preserves_seedEmbeddingCache P).
  - by apply (preserves_recordBatchFailure P).
  - by apply (preserves_resetBatchFailureCount P).
  - done.
Qed.

(** X18. A service without a batch API never submits a batch.  When the
    provider is not [openai] with its client nor [gemini] with its client
    (a local provider, say), [embedChunksForFile] is the inline path even
    though the batch API is enabled in the configuration, and whatever is
    called, no batch is ever submitted. *)
Theorem no_batch_api_no_submission (env : Env) (calls : list Call) (w : World) :
  no_batch_api (self w) →
  let w' := perform_all env calls w in
  batch_submissions w' = batch_submissions w ∧
  ∀ chunks entry source,
    embedChunksForFile env chunks entry source w' = embedChunksInBatches env chunks w' ∧
    batch_submissions (snd (embedChunksForFile env chunks entry source w'))
    = batch_submissions w.
Proof.
  intros Hno w'.
  assert (Hall : no_batch_api (self w') ∧ batch_submissions w' = batch_submissions w).
  { subst w'. revert w Hno. induction calls as [|c calls IH]; intros w Hno; [done|].
    cbn [perform_all foldl].
    destruct (perform_no_batch_api env (batch_submissions w) c w (conj Hno eq_refl))
      as [Hno1 Hk1].
    destruct (IH (perform env c w) Hno1) as [Hno2 Hk2]. split; [done|].
    unfold perform_all in Hk2. by rewrite Hk2. }
  destruct Hall as [Hno' Hk']. split; [done|]. intros chunks entry source.
  split; [by apply embedChunksForFile_no_batch_api|].
  by destruct (perform_no_batch_api env (batch_submissions w)
                 (CallEmbedChunksForFile chunks entry source) w' (conj Hno' Hk')) as [_ ?].
Qed.

Lemma no_batch_api_no_submission_witness :
  let w := {| self := Scenario.local_service; events := []; now := 0 |} in
  let c := Sample.chunk_of "alpha" "h1" in
  enabled (batch (self w)) = true ∧
  events (snd (embedChunksForFile Sample.env [c] Sample.file SrcMemory w))
  = [EvEmbedBatch ["alpha"]] ∧
  batch_submissions (snd (embedChunksForFile Sample.env [c] Sample.file SrcMemory w)) = 0%nat.
Proof.
  intros w c.
  destruct (no_batch_api_no_submission Sample.env [] w) as [_ Hfile].
  - split; left; discriminate.
  - destruct (Hfile [c] Sample.file SrcMemory) as [_ Hnone].
    split; [reflexivity|]. split; [reflexivity|exact Hnone].
Defined.
(** * What a batch submission leaves behind *)

(** X19. A submission that succeeds clears the breaker.  When the batch API is
    on and the runner resolves at the first attempt, the call returns
    the runner's plain array as it is, or else the array reconciled from
    the runner's map, after one submission and without any call to the
    provider; the failure counter is back at 0 and the last error and
    provider are forgotten, whatever they were.  So failures are counted
    since the last success, not over the life of the service.  A plain
    array is not written to the cache. *)
Theorem batch_success_resets_breaker
    {R} (env : Env) (name : string) (mk : string → MemoryChunk → R)
    (view : R → BatchRequest)
    (runner : list Event → list R → BatchConfig → Res BatchResult)
    (chunks : list MemoryChunk) (entry : FileEntry) (source : MemorySource)
    (w : World) (result : BatchResult) :
  enabled (batch (self w)) = true →
  (scan_file env (self w) chunks).2 ≠ [] →
  runner (events w)
    (request_of env mk source entry <$> (scan_file env (self w) chunks).2)
    (batch (self w)) = Ok result →
  let missing := (scan_file env (self w) chunks).2 in
  let requests := request_of env mk source entry <$> missing in
  let w' := snd (embedChunksWithBatchApi env name mk view runner chunks entry source w) in
  fst (embedChunksWithBatchApi env name mk view runner chunks entry source w)
  = Ok match result with
       | Vectors array => array
       | ByCustomId entries =>
           (reconcile (foldl (remember env source entry) ∅ missing) entries
              (scan_file env (self w) chunks).1 []).1
       end ∧
  events w' = EvRunBatch (view <$> requests) :: events w ∧
  batchFailureCount (self w') = 0 ∧
  batchFailureLastError (self w') = None ∧
  batchFailureLastProvider (self w') = None ∧
  enabled (batch (self w')) = true ∧
  (Array_isArray result = true → db (self w') = db (self w)).
Proof.
  intros Hon Hmiss Hrun missing requests w'. subst w'.
  rewrite (embedChunksWithBatchApi_resolved env name mk view runner chunks entry source w
             result Hon Hmiss Hrun).
  destruct result as [entries|array]; cbn [fst snd Array_isArray].
  - split; [done|].
    set (w1 := {| self := set_failure 0 None None (self w);
                  events := EvRunBatch (view <$> requests) :: events w; now := now w |}).
    assert (Hkept : events (snd (upsertEmbeddingCache env
                       (reconcile (foldl (remember env source entry) ∅ missing) entries
                          (scan_file env (self w) chunks).1 []).2 w1)) = events w1 ∧
                     batchFailureCount (self (snd (upsertEmbeddingCache env
                       (reconcile (foldl (remember env source entry) ∅ missing) entries
                          (scan_file env (self w) chunks).1 []).2 w1))) = 0 ∧
                     batchFailureLastError (self (snd (upsertEmbeddingCache env
                       (reconcile (foldl (remember env source entry) ∅ missing) entries
                          (scan_file env (self w) chunks).1 []).2 w1))) = None ∧
                     batchFailureLastProvider (self (snd (upsertEmbeddingCache env
                       (reconcile (foldl (remember env source entry) ∅ missing) entries
                          (scan_file env (self w) chunks).1 []).2 w1))) = None ∧
                     enabled (batch (self (snd (upsertEmbeddingCache env
                       (reconcile (foldl (remember env source entry) ∅ missing) entries
                          (scan_file env (self w) chunks).1 []).2 w1)))) = true).
    { apply (preserves_upsertEmbeddingCache
               (fun x => events x = events w1 ∧ batchFailureCount (self x) = 0 ∧
                         batchFailureLastError (self x) = None ∧
                         batchFailureLastProvider (self x) = None ∧
                         enabled (batch (self x)) = true)); [done|].
      by subst w1. }
    destruct Hkept as (Hev & Hcount & Herr & Hprov & Hstill).
    repeat split; done.
  - repeat split; done.
Qed.

Lemma batch_success_resets_breaker_witness :
  let w := Sample.world true true 1 [] in
  let client := {| openai_model := "text-embedding-3-small" |} in
  let runner := fun hist requests cfg =>
    runOpenAiEmbeddingBatches Sample.env hist client "main" requests cfg in
  let as_array := fun hist requests cfg =>
    runOpenAiEmbeddingBatches Scenario.env_array hist client "main" requests cfg in
  let chunks := [Sample.chunk_of "alpha" "h1"] in
  let w' := snd (embedChunksWithBatchApi Sample.env "openai" (openAiRequest client)
                   OpenAiReq runner chunks Sample.file SrcMemory w) in
  let w'' := snd (embedChunksWithBatchApi Scenario.env_array "openai" (openAiRequest client)
                    OpenAiReq as_array chunks Sample.file SrcMemory w) in
  batchFailureCount (self w) = 1 ∧
  fst (embedChunksWithBatchApi Sample.env "openai" (openAiRequest client)
         OpenAiReq runner chunks Sample.file SrcMemory w) = Ok [[5; 1]] ∧
  batchFailureCount (self w') = 0 ∧
  provider_calls w' = 0%nat ∧
  batchFailureCount (self w'') = 0 ∧
  db (self w'') = db (self w).
Proof.
  intros w client runner as_array chunks w' w''.
  destruct (batch_success_resets_breaker Sample.env "openai" (openAiRequest client)
              OpenAiReq runner chunks Sample.file SrcMemory w
              (ByCustomId [(hashText Sample.env "memory:memory/notes.md:1:4:h1:0", [5; 1])]))
    as (Hout & Hev & Hcount & _).
  - reflexivity.
  - vm_compute. discriminate.
  - vm_compute. reflexivity.
  - destruct (batch_success_resets_breaker Scenario.env_array "openai" (openAiRequest client)
                OpenAiReq as_array chunks Sample.file SrcMemory w (Vectors [[5; 1]]))
      as (_ & _ & Hcount' & _ & _ & _ & Hdb).
    + reflexivity.
    + vm_compute. discriminate.
    + vm_compute. reflexivity.
    + split; [reflexivity|]. split; [rewrite Hout; vm_compute; reflexivity|].
      split; [exact Hcount|].
      split; [exact (eq_trans (f_equal (fun l => length (List.filter is_embed_batch l)) Hev)
                       eq_refl)|].
      split; [exact Hcount'|exact (Hdb eq_refl)].
Defined.

(** ** Chunks the runner does not answer *)

Lemma scan_file_miss_empty env s chunks m :
  m ∈ (scan_file env s chunks).2 →
  chunks !! index m = Some (chunk m) ∧ (scan_file env s chunks).1 !! index m = Some [].
Proof.
  rewrite scan_file_missing. intros (k & Hk & Hi & Hmiss)%misses_from_elem.
  cbn [Nat.add] in Hi. rewrite Hi. split; [done|]. unfold scan_file.
  rewrite (scan_chunks_lookup _ chunks 0 _ _ k (chunk m));
    [|rewrite length_replicate; lia|done].
  cbn [Nat.add]. rewrite Hmiss. apply lookup_replicate_2.
  apply lookup_lt_Some in Hk. lia.
Qed.

Lemma index_inj_misses env s chunks m m' :
  m ∈ (scan_file env s chunks).2 → m' ∈ (scan_file env s chunks).2 →
  index m' = index m → m' = m.
Proof.
  intros Hm Hm' Hi.
  destruct (scan_file_miss_empty env s chunks m Hm) as [Hc _].
  destruct (scan_file_miss_empty env s chunks m' Hm') as [Hc' _].
  rewrite Hi, Hc in Hc'. injection Hc' as Hc'. destruct m, m'. cbn in *. congruence.
Qed.

(** X20. A chunk that the runner's map leaves unanswered comes back
    empty.  When the batch API is on and the runner resolves, at the
    first attempt, to a map that has no entry under the custom id of a
    missing chunk, the call still returns one vector per chunk, and the
    chunk's place in the array holds the empty vector; no error is raised
    for it.  Entries under ids that no chunk of the file has are
    ignored. *)
Theorem batch_unanswered_chunk_is_empty
    {R} (env : Env) (name : string) (mk : string → MemoryChunk → R)
    (view : R → BatchRequest)
    (runner : list Event → list R → BatchConfig → Res BatchResult)
    (chunks : list MemoryChunk) (entry : FileEntry) (source : MemorySource)
    (w : World) (entries : list (string * vector)) (m : Missing) :
  enabled (batch (self w)) = true →
  runner (events w)
    (request_of env mk source entry <$> (scan_file env (self w) chunks).2)
    (batch (self w)) = Ok (ByCustomId entries) →
  m ∈ (scan_file env (self w) chunks).2 →
  customIdOf env source entry m ∉ entries.*1 →
  ∃ out w',
    embedChunksWithBatchApi env name mk view runner chunks entry source w = (Ok out, w') ∧
    length out = length chunks ∧
    chunks !! index m = Some (chunk m) ∧
    out !! index m = Some [].
Proof.
  intros Hon Hrun Hm Hcid.
  assert (Hmiss : (scan_file env (self w) chunks).2 ≠ []).
  { intros Hnil. rewrite Hnil in Hm. by apply not_elem_of_nil in Hm. }
  pose proof (embedChunksWithBatchApi_resolved env name mk view runner chunks entry source w
                (ByCustomId entries) Hon Hmiss Hrun) as Hcall. cbn zeta in Hcall.
  eexists _, _. split; [exact Hcall|].
  destruct (scan_file_miss_empty env (self w) chunks m Hm) as [Hchunk Hempty].
  assert (Hrange : ∀ cid mp,
            foldl (remember env source entry) ∅ (scan_file env (self w) chunks).2 !! cid
            = Some mp →
            (mapped_index mp < length (scan_file env (self w) chunks).1)%nat).
  { intros cid mp Hlook. apply remember_lookup_inv in Hlook as [Hlook|(m' & Hm' & _ & ->)].
    - by rewrite lookup_empty in Hlook.
    - cbn. by apply scan_chunks_index_lt. }
  split; [|split; [done|]].
  - rewrite reconcile_length by done. apply scan_file_length.
  - rewrite reconcile_lookup_other; [done|done|].
    intros cid mp Hin Hlook Hidx.
    apply remember_lookup_inv in Hlook as [Hlook|(m' & Hm' & Hcid' & ->)].
    + by rewrite lookup_empty in Hlook.
    + cbn in Hidx. apply (index_inj_misses env (self w) chunks m m' Hm Hm') in Hidx.
      subst m'. by rewrite Hcid' in Hcid.
Qed.

Lemma batch_unanswered_chunk_is_empty_witness :
  let w := Sample.world true true 0 [] in
  let client := {| openai_model := "text-embedding-3-small" |} in
  let runner : list Event → list OpenAiBatchRequest → BatchConfig → Res BatchResult :=
    fun _ _ _ => Ok (ByCustomId [("stray", [7; 7])]) in
  let chunks := [Sample.chunk_of "alpha" "h1"] in
  ∃ out w',
    embedChunksWithBatchApi Sample.env "openai" (openAiRequest client) OpenAiReq runner
      chunks Sample.file SrcMemory w = (Ok out, w') ∧
    out !! 0%nat = Some [].
Proof.
  intros w client runner chunks.
  destruct (batch_unanswered_chunk_is_empty Sample.env "openai" (openAiRequest client)
              OpenAiReq runner chunks Sample.file SrcMemory w [("stray", [7; 7])]
              {| index := 0; chunk := Sample.chunk_of "alpha" "h1" |})
    as (out & w' & Hcall & _ & _ & Hout).
  - reflexivity.
  - reflexivity.
  - apply list_elem_of_singleton. reflexivity.
  - intros Hin. apply list_elem_of_singleton in Hin. vm_compute in Hin. discriminate Hin.
  - exists out, w'. split; [exact Hcall|exact Hout].
Defined.

(** ** When one call trips the breaker *)

Lemma embedChunksInBatches_breaker env chunks w :
  let w' := snd (embedChunksInBatches env chunks w) in
  enabled (batch (self w')) = enabled (batch (self w)) ∧
  batchFailureCount (self w') = batchFailureCount (self w) ∧
  batchFailureLastError (self w') = batchFailureLastError (self w) ∧
  batchFailureLastProvider (self w') = batchFailureLastProvider (self w) ∧
  batch_submissions w' = batch_submissions w.
Proof.
  apply (preserves_embedChunksInBatches
           (fun x => enabled (batch (self x)) = enabled (batch (self w)) ∧
                     batchFailureCount (self x) = batchFailureCount (self w) ∧
                     batchFailureLastError (self x) = batchFailureLastError (self w) ∧
                     batchFailureLastProvider (self x) = batchFailureLastProvider (self w) ∧
                     batch_submissions x = batch_submissions w)); [done| |done].
  intros x e He (? & ? & ? & ? & Hk). repeat split; try done.
  unfold batch_submissions in *. cbn. by rewrite He.
Qed.

Lemma submission_failure_state {R} env name (mk : string → MemoryChunk → R)
    view runner chunks entry source w err w1 :
  enabled (batch (self w)) = true →
  (scan_file env (self w) chunks).2 ≠ [] →
  runBatchWithTimeoutRetry env name
    (submit view runner (request_of env mk source entry <$> (scan_file env (self w) chunks).2))
    w = (Throw err, w1) →
  nullish err = false →
  let w' := snd (embedChunksWithBatchApi env name mk view runner chunks entry source w) in
  let total := batchFailureCount (self w) + failure_increment (failure_of name err) in
  enabled (batch (self w'))
  = negb (forceDisable (failure_of name err) || (BATCH_FAILURE_LIMIT <=? total)) ∧
  batchFailureCount (self w') = total ∧
  batchFailureLastError (self w') = Some (message err) ∧
  batchFailureLastProvider (self w') = Some name ∧
  batch_submissions w' = batch_submissions w1.
Proof.
  intros Hon Hmiss Hsub Hobj w' total. subst w'.
  destruct (embedChunksWithBatchApi_falls_back env name mk view runner chunks entry source
              w err w1 Hon Hmiss Hsub Hobj) as (Hcall & _).
  rewrite Hcall.
  pose proof (submission_self env name view runner
                (request_of env mk source entry <$> (scan_file env (self w) chunks).2) w)
    as Hself.
  rewrite Hsub in Hself. cbn [snd] in Hself.
  assert (Hon1 : enabled (batch (self w1)) = true) by by rewrite Hself.
  destruct (embedChunksInBatches_breaker env chunks
              (snd (recordBatchFailure (failure_of name err) w1)))
    as (-> & -> & -> & -> & ->).
  rewrite (recordBatchFailure_enabled _ w1 Hon1), Hself. cbn [snd]. fold total.
  destruct (forceDisable (failure_of name err) || (BATCH_FAILURE_LIMIT <=? total));
    repeat split; done.
Qed.

Lemma batch_submissions_run w reqs :
  batch_submissions (add_event (EvRunBatch reqs) w) = S (batch_submissions w).
Proof. reflexivity. Qed.

(** A first attempt rejected with [null] or [undefined] ends the call. *)
Lemma submission_escapes {R} env name (mk : string → MemoryChunk → R)
    view runner chunks entry source w err :
  enabled (batch (self w)) = true →
  (scan_file env (self w) chunks).2 ≠ [] →
  runner (events w)
    (request_of env mk source entry <$> (scan_file env (self w) chunks).2)
    (batch (self w)) = Throw err →
  nullish err = true →
  embedChunksWithBatchApi env name mk view runner chunks entry source w
  = (Throw (JsObject (TypeError_get env err) None),
     add_event
       (EvRunBatch (view <$> (request_of env mk source entry
                                <$> (scan_file env (self w) chunks).2))) w).
Proof.
  intros Hon Hmiss Hrun Hnull.
  assert (Hne : chunks ≠ []) by (intros ->; by apply Hmiss).
  rewrite embedChunksWithBatchApi_unfold by done.
  destruct (scan_file env (self w) chunks) as [embeddings missing]. cbn [snd] in *.
  destruct (Nat.eqb (length missing) 0) eqn:Hm.
  { by apply length_zero_iff_nil in Hm. }
  rewrite (build_requests_run env mk source entry). cbn [app].
  fold (submit view runner (request_of env mk source entry <$> missing)).
  assert (Hsub : runBatchWithTimeoutRetry env name
                   (submit view runner (request_of env mk source entry <$> missing)) w
                 = (Throw err,
                    add_event (EvRunBatch (view <$> (request_of env mk source entry
                                                       <$> missing))) w)).
  { apply runBatchWithTimeoutRetry_once.
    - unfold submit, bind, get_self, ask. by rewrite Hrun.
    - by destruct err. }
  unfold bind at 1.
  by rewrite (runBatchWithFallback_nullish _ _ _ _ _ _ _ Hon Hsub Hnull).
Qed.

(** X21. How a failed submission counts.  On a batch path with the batch API
    on,
    - a submission that times out and whose one retry fails with an
      object (an [Error], say) counts for two failures: that single call
      switches the batch API off, and the second error is remembered;
    - when the retry is rejected with a value that is not an object, the
      tagging throws and it is that [TypeError] that is remembered, for
      one failure (or for the limit, should its text carry the signature
      below);
    - an error other than [null] and [undefined] that says
      [asyncBatchEmbedContent not available] switches the batch API off at
      once, adding the limit to the counter;
    - any other such error without attempts of its own counts for one
      failure: the batch API stays on after the first of them and goes
      off with the second in a row;
    - a first attempt rejected with [null] or [undefined] is not counted
      at all: the call throws and the breaker is as it was.
    When an error is counted it is remembered with the provider's name;
    the number of submissions made is 2, 2, 1, 1 and 1. *)
Theorem failed_submission_counts
    {R} (env : Env) (name : string) (mk : string → MemoryChunk → R)
    (view : R → BatchRequest)
    (runner : list Event → list R → BatchConfig → Res BatchResult)
    (chunks : list MemoryChunk) (entry : FileEntry) (source : MemorySource) (w : World) :
  enabled (batch (self w)) = true →
  0 <= batchFailureCount (self w) →
  (scan_file env (self w) chunks).2 ≠ [] →
  let requests := request_of env mk source entry <$> (scan_file env (self w) chunks).2 in
  let w' := snd (embedChunksWithBatchApi env name mk view runner chunks entry source w) in
  (∀ e1 msg tag,
     runner (events w) requests (batch (self w)) = Throw e1 →
     isBatchTimeoutError (message e1) = true →
     runner (EvRunBatch (view <$> requests) :: events w) requests (batch (self w))
     = Throw (JsObject msg tag) →
     isBatchEnabled (self w') = false ∧
     batchFailureCount (self w') = batchFailureCount (self w) + 2 ∧
     batchFailureLastError (self w') = Some msg ∧
     batchFailureLastProvider (self w') = Some name ∧
     batch_submissions w' = (batch_submissions w + 2)%nat) ∧
  (∀ e1 e2,
     runner (events w) requests (batch (self w)) = Throw e1 →
     isBatchTimeoutError (message e1) = true →
     runner (EvRunBatch (view <$> requests) :: events w) requests (batch (self w))
     = Throw e2 →
     (∀ msg tag, e2 ≠ JsObject msg tag) →
     batchFailureCount (self w')
     = batchFailureCount (self w) +
       (if Js.test_ci "asyncBatchEmbedContent not available" (TypeError_set env e2)
        then BATCH_FAILURE_LIMIT else 1) ∧
     batchFailureLastError (self w') = Some (TypeError_set env e2) ∧
     batchFailureLastProvider (self w') = Some name ∧
     batch_submissions w' = (batch_submissions w + 2)%nat) ∧
  (∀ e,
     runner (events w) requests (batch (self w)) = Throw e →
     nullish e = false →
     isBatchTimeoutError (message e) = false →
     Js.test_ci "asyncBatchEmbedContent not available" (message e) = true →
     isBatchEnabled (self w') = false ∧
     batchFailureCount (self w') = batchFailureCount (self w) + BATCH_FAILURE_LIMIT ∧
     batchFailureLastError (self w') = Some (message e) ∧
     batch_submissions w' = (batch_submissions w + 1)%nat) ∧
  (∀ e,
     runner (events w) requests (batch (self w)) = Throw e →
     nullish e = false →
     isBatchTimeoutError (message e) = false →
     Js.test_ci "asyncBatchEmbedContent not available" (message e) = false →
     tag_of e = None →
     isBatchEnabled (self w') = (batchFailureCount (self w) =? 0) ∧
     batchFailureCount (self w') = batchFailureCount (self w) + 1 ∧
     batchFailureLastError (self w') = Some (message e) ∧
     batch_submissions w' = (batch_submissions w + 1)%nat) ∧
  (∀ e,
     runner (events w) requests (batch (self w)) = Throw e →
     nullish e = true →
     fst (embedChunksWithBatchApi env name mk view runner chunks entry source w)
     = Throw (JsObject (TypeError_get env e) None) ∧
     self w' = self w ∧
     batch_submissions w' = (batch_submissions w + 1)%nat).
Proof.
  intros Hon Hpos Hmiss requests w'. unfold isBatchEnabled.
  assert (Htwice : ∀ e1 e2,
            runner (events w) requests (batch (self w)) = Throw e1 →
            isBatchTimeoutError (message e1) = true →
            runner (EvRunBatch (view <$> requests) :: events w) requests (batch (self w))
            = Throw e2 →
            runBatchWithTimeoutRetry env name (submit view runner requests) w
            = (Throw (retry_error env e2),
               add_event (EvRunBatch (view <$> requests))
                 (add_event (EvRunBatch (view <$> requests)) w))).
  { intros e1 e2 H1 Ht H2.
    apply (runBatchWithTimeoutRetry_timeout_twice env name _ w e1
             (add_event (EvRunBatch (view <$> requests)) w) e2); [|done|].
    - unfold submit, bind, get_self, ask. by rewrite H1.
    - unfold submit, bind, get_self, ask. cbn [add_event events self]. by rewrite H2. }
  assert (Honce : ∀ e,
            runner (events w) requests (batch (self w)) = Throw e →
            isBatchTimeoutError (message e) = false →
            runBatchWithTimeoutRetry env name (submit view runner requests) w
            = (Throw e, add_event (EvRunBatch (view <$> requests)) w)).
  { intros e He Ht. apply runBatchWithTimeoutRetry_once; [|done].
    unfold submit, bind, get_self, ask. by rewrite He. }
  split; [|split; [|split; [|split]]].
  - intros e1 msg tag H1 Ht H2.
    destruct (submission_failure_state env name mk view runner chunks entry source w _ _
                Hon Hmiss (Htwice e1 _ H1 Ht H2) eq_refl) as (Hen & Hcount & Herr & Hprov & Hk).
    fold w' in Hen, Hcount, Herr, Hprov, Hk.
    assert (Hinc : failure_increment (failure_of name (retry_error env (JsObject msg tag)))
                   = 2).
    { unfold failure_increment, failure_of, BATCH_FAILURE_LIMIT. cbn.
      by destruct (Js.test_ci _ _). }
    rewrite Hinc in Hen, Hcount.
    split; [|split; [done|split; [done|split; [done|]]]].
    + rewrite Hen. unfold BATCH_FAILURE_LIMIT.
      destruct (Z.leb_spec 2 (batchFailureCount (self w) + 2)); [|lia].
      by rewrite orb_true_r.
    + rewrite Hk, !batch_submissions_run. lia.
  - intros e1 e2 H1 Ht H2 Hprim.
    destruct (submission_failure_state env name mk view runner chunks entry source w _ _
                Hon Hmiss (Htwice e1 _ H1 Ht H2) (retry_error_object env e2))
      as (Hen & Hcount & Herr & Hprov & Hk).
    fold w' in Hen, Hcount, Herr, Hprov, Hk.
    assert (Hwhat : retry_error env e2 = JsObject (TypeError_set env e2) None).
    { destruct e2 as [msg tag| | |]; [by destruct (Hprim msg tag)|done..]. }
    rewrite Hwhat in Hcount, Herr.
    split; [|split; [done|split; [done|]]].
    + rewrite Hcount. unfold failure_increment, failure_of. cbn.
      by destruct (Js.test_ci _ _).
    + rewrite Hk, !batch_submissions_run. lia.
  - intros e He Hobj Ht Hforce.
    destruct (submission_failure_state env name mk view runner chunks entry source w _ _
                Hon Hmiss (Honce e He Ht) Hobj) as (Hen & Hcount & Herr & Hprov & Hk).
    fold w' in Hen, Hcount, Herr, Hprov, Hk.
    assert (Hinc : failure_increment (failure_of name e) = BATCH_FAILURE_LIMIT).
    { unfold failure_increment, failure_of. cbn. by rewrite Hforce. }
    rewrite Hinc in Hcount.
    split; [|split; [done|split; [done|]]].
    + rewrite Hen. unfold failure_of. cbn. by rewrite Hforce.
    + rewrite Hk, batch_submissions_run. lia.
  - intros e He Hobj Ht Hforce Hatt.
    destruct (submission_failure_state env name mk view runner chunks entry source w _ _
                Hon Hmiss (Honce e He Ht) Hobj) as (Hen & Hcount & Herr & Hprov & Hk).
    fold w' in Hen, Hcount, Herr, Hprov, Hk.
    assert (Hinc : failure_increment (failure_of name e) = 1).
    { unfold failure_increment, failure_of. cbn. by rewrite Hforce, Hatt. }
    rewrite Hinc in Hen, Hcount.
    split; [|split; [done|split; [done|]]].
    + rewrite Hen. unfold failure_of. cbn. rewrite Hforce. cbn [orb].
      unfold BATCH_FAILURE_LIMIT.
      destruct (Z.leb_spec 2 (batchFailureCount (self w) + 1)),
               (Z.eqb_spec (batchFailureCount (self w)) 0); cbn; lia || done.
    + rewrite Hk, batch_submissions_run. lia.
  - intros e He Hnull. subst w'.
    rewrite (submission_escapes env name mk view runner chunks entry source w e
               Hon Hmiss He Hnull).
    cbn [fst snd]. split; [done|]. split; [done|].
    rewrite batch_submissions_run. lia.
Qed.

Lemma failed_submission_counts_witness :
  let w := Sample.world true true 0 [] in
  let client := {| openai_model := "text-embedding-3-small" |} in
  let timing_out : list Event → list OpenAiBatchRequest → BatchConfig →
                   Res BatchResult :=
    fun _ _ _ => Throw (Sample.err "openai batch timed out") in
  let failing : list Event → list OpenAiBatchRequest → BatchConfig →
                Res BatchResult :=
    fun _ _ _ => Throw (Sample.err "openai batch failed") in
  let with_string := fun hist requests cfg =>
    runOpenAiEmbeddingBatches Scenario.env_string hist client "main" requests cfg in
  let with_null := fun hist requests cfg =>
    runOpenAiEmbeddingBatches Scenario.env_null hist client "main" requests cfg in
  let chunks := [Sample.chunk_of "alpha" "h1"] in
  let after runner :=
    self (snd (embedChunksWithBatchApi Sample.env "openai" (openAiRequest client) OpenAiReq
                 runner chunks Sample.file SrcMemory w)) in
  (isBatchEnabled (after timing_out) = false ∧ batchFailureCount (after timing_out) = 2) ∧
  (isBatchEnabled (after failing) = true ∧ batchFailureCount (after failing) = 1) ∧
  (batchFailureCount (after with_string) = 1 ∧
   batchFailureLastError (after with_string)
   = Some "Cannot create property 'batchAttempts' on string 'boom'") ∧
  after with_null = self w.
Proof.
  intros w client timing_out failing with_string with_null chunks after.
  split; [|split; [|split]].
  - destruct (failed_submission_counts Sample.env "openai" (openAiRequest client) OpenAiReq
                timing_out chunks Sample.file SrcMemory w) as (Htwice & _).
    + reflexivity.
    + vm_compute. discriminate.
    + vm_compute. discriminate.
    + destruct (Htwice (Sample.err "openai batch timed out")
                  "openai batch timed out" None) as (Hoff & Hcount & _);
        [reflexivity|reflexivity|reflexivity|].
      split; [exact Hoff|exact Hcount].
  - destruct (failed_submission_counts Sample.env "openai" (openAiRequest client) OpenAiReq
                failing chunks Sample.file SrcMemory w) as (_ & _ & _ & Hone & _).
    + reflexivity.
    + vm_compute. discriminate.
    + vm_compute. discriminate.
    + destruct (Hone (Sample.err "openai batch failed")) as (Hon & Hcount & _);
        [reflexivity|reflexivity|reflexivity|reflexivity|reflexivity|].
      split; [exact Hon|exact Hcount].
  - destruct (failed_submission_counts Sample.env "openai" (openAiRequest client) OpenAiReq
                with_string chunks Sample.file SrcMemory w) as (_ & Hprim & _).
    + reflexivity.
    + vm_compute. discriminate.
    + vm_compute. discriminate.
    + destruct (Hprim (Sample.err "openai batch timed out") (JsPrimitive "boom"))
        as (Hcount & Herr & _); [reflexivity|reflexivity|reflexivity|discriminate|].
      split; [exact Hcount|exact Herr].
  - destruct (failed_submission_counts Sample.env "openai" (openAiRequest client) OpenAiReq
                with_null chunks Sample.file SrcMemory w) as (_ & _ & _ & _ & Hnull).
    + reflexivity.
    + vm_compute. discriminate.
    + vm_compute. discriminate.
    + destruct (Hnull JsNull) as (_ & Hself & _); [reflexivity|reflexivity|].
      exact Hself.
Defined.
(** * The routes leave the same vectors in the cache *)

Lemma upsertEmbeddingCache_db env entries w :
  db (self (snd (upsertEmbeddingCache env entries w)))
  = set_table
      (if cache_enabled (cache (self w))
       then foldl (fun tb entry =>
                     upsert_row (cache_row env (self w) (clock env (events w) (now w)) entry) tb)
              (table (db (self w))) entries
       else table (db (self w)))
      (db (self w)).
Proof.
  destruct (cache_enabled (cache (self w))) eqn:Hon.
  - by rewrite (upsertEmbeddingCache_enabled env entries w Hon).
  - unfold upsertEmbeddingCache, bind, get_self. rewrite Hon. cbn.
    by destruct (db (self w)).
Qed.

Lemma load_slices_ext env s1 s2 unique fuel start out :
  same_cache s1 s2 →
  load_slices env s1 unique fuel start out = load_slices env s2 unique fuel start out.
Proof.
  intros (Hdb & Hp & Hk & Hc). revert start out.
  induction fuel as [|fuel IH]; intros start out; [done|].
  cbn [load_slices]. destruct (_ <? _)%nat; [|done]. by rewrite IH, Hdb, Hp, Hk.
Qed.

Lemma scan_file_ext env s1 s2 chunks :
  same_cache s1 s2 → scan_file env s1 chunks = scan_file env s2 chunks.
Proof.
  intros Hsame. unfold scan_file. f_equal. unfold loadEmbeddingCache.
  rewrite (load_slices_ext env s1 s2) by done.
  destruct Hsame as (Hdb & Hp & Hk & Hc). by rewrite Hc.
Qed.

Lemma written_ext env embed chunks s1 s2 t :
  same_cache s1 s2 → written env embed chunks s1 t = written env embed chunks s2 t.
Proof.
  intros Hsame. unfold written. rewrite (scan_file_ext env s1 s2 chunks Hsame).
  destruct Hsame as (Hdb & Hp & Hk & Hc). rewrite Hc, Hdb.
  destruct (cache_enabled (cache s2)); [|done].
  f_equal. unfold cache_row. by rewrite Hp, Hk.
Qed.

(** The table that the inline path leaves, with the time of its write. *)
Lemma embedChunksInBatches_written env embed chunks w :
  provider_answers env embed →
  let w' := snd (embedChunksInBatches env chunks w) in
  db (self w')
  = set_table (written env embed chunks (self w) (clock env (events w') (now w)))
      (db (self w)).
Proof.
  intros Hans w'. subst w'. unfold written.
  destruct chunks as [|c0 chunks0].
  { cbn. destruct (cache_enabled _); by destruct (db (self w)). }
  set (chunks := c0 :: chunks0).
  rewrite embedChunksInBatches_unfold by done.
  destruct (scan_file env (self w) chunks) as [embeddings missing]. cbn [snd].
  destruct (Nat.eqb (length missing) 0) eqn:Hm.
  { apply length_zero_iff_nil in Hm. subst. cbn.
    destruct (cache_enabled _); by destruct (db (self w)). }
  destruct (buildEmbeddingBatches_spec (chunk <$> missing)) as [Hcat _].
  destruct (embed_bins_run env embed missing (buildEmbeddingBatches (chunk <$> missing))
              {| fill_embeddings := embeddings; fill_toCache := []; fill_cursor := 0 |}
              w Hans) as (w1 & Hrun & Hself & Hnow); [cbn; lia|by rewrite Hcat|].
  cbn [fill_embeddings fill_toCache fill_cursor drop] in Hrun.
  rewrite (bind_ok _ _ _ _ _ Hrun).
  rewrite (bind_ok _ _ _ _ _ (upsertEmbeddingCache_returns env _ w1)).
  cbn [ret snd fill_toCache]. rewrite drop_0, put_writes_toCache. cbn [snd app].
  rewrite <- list_fmap_compose.
  assert (Hev : events (snd (upsertEmbeddingCache env
                               ((λ wr, {| entry_hash := wr.1.2; entry_embedding := wr.2 |})
                                ∘ miss_write embed <$> missing) w1)) = events w1).
  { by apply (preserves_upsertEmbeddingCache (fun x => events x = events w1)). }
  rewrite Hev, upsertEmbeddingCache_db, Hself, Hnow. done.
Qed.

Lemma recordBatchFailure_same params w :
  same_cache (self (snd (recordBatchFailure params w))) (self w).
Proof.
  apply (preserves_recordBatchFailure (fun x => same_cache (self x) (self w))); [| |done].
  - by intros ???? (?&?&?&?).
  - by intros ? (?&?&?&?).
Qed.

(** ** What a table holds does not depend on when and in which order the
    entries were written *)

Lemma stored_in_foldl_upsert env s t0 now0 entries h :
  stored_in env s
    (foldl (fun t entry => upsert_row (cache_row env s now0 entry) t) t0 entries) h
  = match last (filter (fun e => entry_hash e = h) entries) with
    | Some e => Some (parseEmbedding env (JSON_stringify env (entry_embedding e)))
    | None => stored_in env s t0 h
    end.
Proof. apply stored_foldl_upsert. Qed.

Lemma stored_in_entries env s t0 now1 now2 es1 es2 h :
  (∀ e, e ∈ es1 ↔ e ∈ es2) →
  (∀ e e', e ∈ es1 → e' ∈ es1 → entry_hash e = entry_hash e' →
           entry_embedding e = entry_embedding e') →
  stored_in env s (foldl (fun t entry => upsert_row (cache_row env s now1 entry) t) t0 es1) h
  = stored_in env s (foldl (fun t entry => upsert_row (cache_row env s now2 entry) t) t0 es2) h.
Proof.
  intros Hsame Hdec. rewrite !stored_in_foldl_upsert.
  destruct (last (filter (λ e, entry_hash e = h) es1)) as [e1|] eqn:H1;
    destruct (last (filter (λ e, entry_hash e = h) es2)) as [e2|] eqn:H2.
  - apply last_Some_elem_of, list_elem_of_filter in H1 as [Hh1 Hin1].
    apply last_Some_elem_of, list_elem_of_filter in H2 as [Hh2 Hin2].
    apply Hsame in Hin2. by rewrite (Hdec e1 e2 Hin1 Hin2) by congruence.
  - apply last_Some_elem_of, list_elem_of_filter in H1 as [Hh1 Hin1].
    apply last_None in H2. apply Hsame in Hin1.
    assert (Hin : e1 ∈ filter (λ e, entry_hash e = h) es2) by by apply list_elem_of_filter.
    rewrite H2 in Hin. by apply not_elem_of_nil in Hin.
  - apply last_Some_elem_of, list_elem_of_filter in H2 as [Hh2 Hin2].
    apply last_None in H1. apply Hsame in Hin2.
    assert (Hin : e2 ∈ filter (λ e, entry_hash e = h) es1) by by apply list_elem_of_filter.
    rewrite H1 in Hin. by apply not_elem_of_nil in Hin.
  - done.
Qed.

Lemma written_time env embed chunks s t1 t2 h :
  stored_in env s (written env embed chunks s t1) h
  = stored_in env s (written env embed chunks s t2) h.
Proof.
  unfold written. destruct (cache_enabled (cache s)); [|done].
  by rewrite !stored_in_foldl_upsert.
Qed.

Lemma embedChunksInBatches_identity env chunks w :
  let w' := snd (embedChunksInBatches env chunks w) in
  provider (self w') = provider (self w) ∧ providerKey (self w') = providerKey (self w) ∧
  cache (self w') = cache (self w).
Proof.
  by apply (preserves_embedChunksInBatches
              (fun x => provider (self x) = provider (self w) ∧
                        providerKey (self x) = providerKey (self w) ∧
                        cache (self x) = cache (self w))).
Qed.

(** What the cache holds after the inline path. *)
Lemma embedChunksInBatches_holds env embed chunks w h t :
  provider_answers env embed →
  stored env (self (snd (embedChunksInBatches env chunks w))) h
  = stored_in env (self w) (written env embed chunks (self w) t) h.
Proof.
  intros Hans.
  destruct (embedChunksInBatches_identity env chunks w) as (Hp & Hk & _).
  pose proof (embedChunksInBatches_written env embed chunks w Hans) as Hdb. cbn zeta in Hdb.
  unfold stored. rewrite Hp, Hk, Hdb. cbn [set_table table].
  apply (written_time env embed chunks (self w) _ t h).
Qed.

(** ** The entries that a batch path writes *)

Lemma reconcile_toCache_elem mapping entries emb tc e :
  e ∈ (reconcile mapping entries emb tc).2 ↔
  e ∈ tc ∨ ∃ cid v mp, (cid, v) ∈ entries ∧ mapping !! cid = Some mp ∧
                        e = {| entry_hash := mapped_hash mp; entry_embedding := v |}.
Proof.
  revert emb tc. induction entries as [|[cid0 v0] entries IH]; intros emb tc.
  - cbn. split; [by left|]. intros [?|(cid & v & mp & Hin & _)]; [done|].
    by apply not_elem_of_nil in Hin.
  - cbn [reconcile]. destruct (mapping !! cid0) as [mp0|] eqn:Hcid0; rewrite IH.
    + rewrite elem_of_app, list_elem_of_singleton. split.
      * intros [[?| ->]|(cid & v & mp & Hin & Hmp & ->)]; [by left| |].
        -- right. exists cid0, v0, mp0. split; [left|done].
        -- right. exists cid, v, mp. split; [by right|done].
      * intros [?|(cid & v & mp & Hin & Hmp & ->)]; [by left; left|].
        apply elem_of_cons in Hin as [[= -> ->]|Hin].
        -- left. right. congruence.
        -- right. by exists cid, v, mp.
    + split.
      * intros [?|(cid & v & mp & Hin & Hmp & ->)]; [by left|].
        right. exists cid, v, mp. split; [by right|done].
      * intros [?|(cid & v & mp & Hin & Hmp & ->)]; [by left|].
        apply elem_of_cons in Hin as [[= -> ->]|Hin]; [congruence|].
        right. by exists cid, v, mp.
Qed.

(** From a map that answers every request, a batch path writes the
    entries of the missing chunks, each at least once, and no other. *)
Lemma reconcile_answers_toCache {R} env embed (mk : string → MemoryChunk → R) view
    source entry missing entries emb e :
  faithful_requests mk view →
  NoDup (customIdOf env source entry <$> missing) →
  answers_all view embed (request_of env mk source entry <$> missing) entries →
  e ∈ (reconcile (foldl (remember env source entry) ∅ missing) entries emb []).2 ↔
  e ∈ miss_entry embed <$> missing.
Proof.
  intros [Hcid Htext] Hids [Hnodup Hans].
  assert (Hentry : ∀ m, m ∈ missing →
            (customIdOf env source entry m, embed (text (chunk m))) ∈ entries).
  { intros m Hm.
    assert (H1 : custom_id (view (request_of env mk source entry m))
                 = customIdOf env source entry m) by apply Hcid.
    assert (H2 : request_text (view (request_of env mk source entry m))
                 = text (chunk m)) by apply Htext.
    rewrite <- H1, <- H2. apply Hans. apply list_elem_of_fmap. eauto. }
  rewrite reconcile_toCache_elem. split.
  - intros [Hnil|(cid & v & mp & Hin & Hmp & ->)]; [by apply not_elem_of_nil in Hnil|].
    apply remember_lookup_inv in Hmp as [Hmp|(m & Hm & <- & ->)].
    { by rewrite lookup_empty in Hmp. }
    pose proof (NoDup_fmap_elem_inj fst entries _ _ Hnodup Hin (Hentry m Hm) eq_refl) as Heq.
    injection Heq as ->. apply list_elem_of_fmap. by exists m.
  - intros (m & -> & Hm)%list_elem_of_fmap. right.
    exists (customIdOf env source entry m), (embed (text (chunk m))),
      {| mapped_index := index m; mapped_hash := hash (chunk m) |}.
    split; [by apply Hentry|]. split; [by apply remember_lookup|done].
Qed.

Lemma miss_entry_decided env embed s chunks e e' :
  hash_decides embed chunks →
  e ∈ miss_entry embed <$> (scan_file env s chunks).2 →
  e' ∈ miss_entry embed <$> (scan_file env s chunks).2 →
  entry_hash e = entry_hash e' → entry_embedding e = entry_embedding e'.
Proof.
  intros Hdec (m & -> & Hm)%list_elem_of_fmap (m' & -> & Hm')%list_elem_of_fmap Hh.
  destruct (scan_file_miss_empty env s chunks m Hm) as [Hc _].
  destruct (scan_file_miss_empty env s chunks m' Hm') as [Hc' _].
  apply list_elem_of_lookup_2 in Hc, Hc'. by apply Hdec.
Qed.

Lemma written_entries_same env s t1 t2 es1 es2 h :
  (∀ e, e ∈ es1 ↔ e ∈ es2) →
  (∀ e e', e ∈ es1 → e' ∈ es1 → entry_hash e = entry_hash e' →
           entry_embedding e = entry_embedding e') →
  stored_in env s (written_entries env s t1 es1) h
  = stored_in env s (written_entries env s t2 es2) h.
Proof.
  intros Hsame Hdec. unfold written_entries.
  destruct (cache_enabled (cache s)); [|done]. by apply stored_in_entries.
Qed.

(** What the cache holds after a batch path: what it held before,
    overwritten with the entries of the missing chunks, in some order. *)
Lemma embedChunksWithBatchApi_entries {R} env embed name (mk : string → MemoryChunk → R)
    view runner chunks entry source w :
  faithful_requests mk view →
  provider_answers env embed →
  runner_answers view embed runner →
  custom_ids_distinct env source entry chunks →
  ∃ es,
    (∀ e, e ∈ es ↔ e ∈ miss_entry embed <$> (scan_file env (self w) chunks).2) ∧
    ∀ h t,
      stored env (self (snd (embedChunksWithBatchApi env name mk view runner chunks entry
                               source w))) h
      = stored_in env (self w) (written_entries env (self w) t es) h.
Proof.
  intros Hfaith Hans Hrunner Hids.
  assert (Hinline : ∀ w0, same_cache (self w0) (self w) →
            ∀ h t, stored env (self (snd (embedChunksInBatches env chunks w0))) h
                   = stored_in env (self w)
                       (written_entries env (self w) t
                          (miss_entry embed <$> (scan_file env (self w) chunks).2)) h).
  { intros w0 Hsame h t.
    rewrite (embedChunksInBatches_holds env embed chunks w0 h t Hans).
    rewrite (written_ext env embed chunks _ (self w) t Hsame).
    destruct Hsame as (_ & Hp & Hk & _). unfold stored_in. by rewrite Hp, Hk. }
  destruct (Nat.eqb (length (scan_file env (self w) chunks).2) 0) eqn:Hm.
  { (* nothing is missing: both paths return at once *)
    exists (miss_entry embed <$> (scan_file env (self w) chunks).2). split; [done|].
    intros h t. rewrite <- (Hinline w) by done.
    destruct chunks as [|c chunks]; [done|].
    rewrite embedChunksWithBatchApi_unfold, embedChunksInBatches_unfold by done.
    destruct (scan_file env (self w) (c :: chunks)) as [embeddings missing].
    cbn [snd] in Hm. by rewrite Hm. }
  apply length_nonzero_iff in Hm.
  pose proof (scan_file_missing env (self w) chunks) as Hmiss.
  assert (Hnodup : NoDup (customIdOf env source entry <$> (scan_file env (self w) chunks).2)).
  { eapply sublist_NoDup; [exact Hids|]. rewrite Hmiss.
    apply fmap_sublist, misses_from_sublist. }
  destruct (enabled (batch (self w))) eqn:Hon.
  - set (requests := request_of env mk source entry <$> (scan_file env (self w) chunks).2).
    assert (Hreq : NoDup ((fun r => custom_id (view r)) <$> requests)).
    { subst requests. rewrite <- list_fmap_compose.
      rewrite (list_fmap_ext _ (customIdOf env source entry)); [done|].
      intros i m _. apply (proj1 Hfaith). }
    pose proof (submission_self env name view runner requests w) as Hself.
    pose proof (submission_outcome env embed view name runner Hrunner requests w Hreq)
      as (_ & Hresult & Hobj).
    destruct (runBatchWithTimeoutRetry env name (submit view runner requests) w)
      as [[result|err] w1] eqn:Hsub; cbn [fst snd] in Hself, Hresult, Hobj.
    + (* the submission succeeded *)
      destruct (Hresult result eq_refl) as (entries & -> & Hall).
      assert (Hchunks : chunks ≠ []) by (intros ->; by apply Hm).
      rewrite embedChunksWithBatchApi_unfold by done.
      pose proof (reconcile_answers_toCache env embed mk view source entry
                    (scan_file env (self w) chunks).2 entries
                    (scan_file env (self w) chunks).1) as Helems.
      subst requests.
      destruct (scan_file env (self w) chunks) as [embeddings missing]. cbn [fst snd] in *.
      rewrite (proj2 (length_nonzero_iff missing) Hm).
      rewrite (build_requests_run env mk source entry). cbn [app].
      fold (submit view runner (request_of env mk source entry <$> missing)).
      unfold bind at 1. rewrite (runBatchWithFallback_success _ _ _ _ _ _ _ Hon Hsub).
      destruct (reconcile _ entries embeddings []) as [embeddings' toCache] eqn:Hrec.
      cbn [snd] in Helems.
      rewrite (bind_ok _ _ _ _ _ (upsertEmbeddingCache_returns env toCache _)).
      cbn [ret snd].
      set (w2 := {| self := set_failure 0 None None (self w1); events := events w1;
                    now := now w1 |}).
      assert (Hid : provider (self (snd (upsertEmbeddingCache env toCache w2)))
                    = provider (self w) ∧
                    providerKey (self (snd (upsertEmbeddingCache env toCache w2)))
                    = providerKey (self w)).
      { apply (preserves_upsertEmbeddingCache
                 (fun x => provider (self x) = provider (self w) ∧
                           providerKey (self x) = providerKey (self w))); [done|].
        subst w2. cbn. by rewrite Hself. }
      destruct Hid as [Hp Hk].
      exists toCache. split; [intros e; by apply Helems|]. intros h t.
      unfold stored. rewrite Hp, Hk, upsertEmbeddingCache_db.
      subst w2. cbn [self events now set_failure cache db provider providerKey set_table table].
      rewrite Hself. unfold written_entries.
      destruct (cache_enabled (cache (self w))); [|done].
      change (cache_row env (set_failure 0 None None (self w)))
        with (cache_row env (self w)).
      unfold stored_in. by rewrite !stored_foldl_upsert.
    + (* the submission failed: the inline path runs from the recorded state *)
      exists (miss_entry embed <$> (scan_file env (self w) chunks).2). split; [done|].
      destruct (embedChunksWithBatchApi_falls_back env name mk view runner chunks entry source
                  w err w1 Hon Hm Hsub (Hobj err eq_refl)) as (Hcall & _).
      rewrite Hcall. apply Hinline.
      pose proof (recordBatchFailure_same (failure_of name err) w1) as Hsame.
      by rewrite Hself in Hsame.
  - (* the batch API is off *)
    exists (miss_entry embed <$> (scan_file env (self w) chunks).2). split; [done|].
    intros h t. rewrite <- (Hinline w) by done.
    assert (Hchunks : chunks ≠ []) by (intros ->; by apply Hm).
    rewrite embedChunksWithBatchApi_unfold by done.
    destruct (scan_file env (self w) chunks) as [embeddings missing]. cbn [snd] in Hm.
    rewrite (proj2 (length_nonzero_iff missing) Hm).
    destruct (build_requests _ _ _ _ _ _ _) as [requests mapping].
    unfold bind at 1. rewrite (runBatchWithFallback_disabled _ _ _ _ _ Hon).
    unfold as_fallback. by destruct (embedChunksInBatches env chunks w) as [[r|e] w3].
Qed.

Lemma embedChunksForFile_entries env embed chunks entry source w :
  provider_answers env embed →
  runners_answer env embed →
  custom_ids_distinct env source entry chunks →
  ∃ es,
    (∀ e, e ∈ es ↔ e ∈ miss_entry embed <$> (scan_file env (self w) chunks).2) ∧
    ∀ h t,
      stored env (self (snd (embedChunksForFile env chunks entry source w))) h
      = stored_in env (self w) (written_entries env (self w) t es) h.
Proof.
  intros Hans [Hoa Hgm] Hids.
  rewrite embedChunksForFile_route. destruct (route (self w)) as [|client|client].
  - exists (miss_entry embed <$> (scan_file env (self w) chunks).2). split; [done|].
    intros h t. by apply embedChunksInBatches_holds.
  - by apply (embedChunksWithBatchApi_entries env embed).
  - by apply (embedChunksWithBatchApi_entries env embed).
Qed.

(** X22. The route does not show in what the cache holds.  Let the
    provider compute [embed] of each text; let the runners, given
    requests with distinct custom ids, fail with an error other than
    [null] and [undefined] or resolve to a map that holds, in whatever
    order, [embed] of the text of every request under its custom id; let
    the custom ids tell the chunks of the file apart, and let chunks with
    the same hash get the same vector.  Then [embedChunksForFile] returns
    the array that [embedChunksInBatches] returns, and leaves the cache
    holding under every hash the vector that [embedChunksInBatches] would
    have left there, whether the vectors came from a batch, from the
    fallback after a failed batch, or from the provider directly.  (The
    order of the rows and their timestamps may differ with the route.) *)
Theorem cache_is_route_independent
    (env : Env) (embed : string → vector) (chunks : list MemoryChunk)
    (entry : FileEntry) (source : MemorySource) (w : World) :
  provider_answers env embed →
  runners_answer env embed →
  custom_ids_distinct env source entry chunks →
  hash_decides embed chunks →
  fst (embedChunksForFile env chunks entry source w)
  = fst (embedChunksInBatches env chunks w) ∧
  ∀ h, stored env (self (snd (embedChunksForFile env chunks entry source w))) h
       = stored env (self (snd (embedChunksInBatches env chunks w))) h.
Proof.
  intros Hans Hrun Hids Hdec.
  destruct (embedChunksInBatches_run env embed chunks w Hans) as (wi & Hri).
  destruct (embedChunksForFile_run env embed chunks entry source w Hans Hrun Hids)
    as (wf & Hrf).
  split; [by rewrite Hri, Hrf|]. intros h.
  destruct (embedChunksForFile_entries env embed chunks entry source w Hans Hrun Hids)
    as (es & Hes & Hheld).
  rewrite (Hheld h 0), (embedChunksInBatches_holds env embed chunks w h 0 Hans).
  apply (written_entries_same env (self w) 0 0 es).
  - done.
  - intros e e' He He'. apply (miss_entry_decided env embed (self w) chunks); [done|..];
      by apply Hes.
Qed.

Lemma cache_is_route_independent_witness :
  let w := Sample.world true true 0 [Sample.row 1 "h2" "9;9;" 5] in
  let chunks := [Sample.chunk_of "alpha" "h1"; Sample.chunk_of "beta" "h2";
                 Sample.chunk_of "de" "h3"] in
  let wf := snd (embedChunksForFile Scenario.env_reversed chunks Sample.file SrcMemory w) in
  let wi := snd (embedChunksInBatches Scenario.env_reversed chunks w) in
  stored Scenario.env_reversed (self wf) "h1" = Some [5; 1] ∧
  stored Scenario.env_reversed (self wi) "h1" = Some [5; 1] ∧
  batch_submissions wf = 1%nat ∧
  table (db (self wf)) ≠ table (db (self wi)).
Proof.
  intros w chunks wf wi.
  destruct (cache_is_route_independent Scenario.env_reversed Sample.embed chunks Sample.file
              SrcMemory w) as [_ Hdb].
  - intros hist texts. reflexivity.
  - exact env_reversed_answers.
  - apply (bool_decide_unpack _). vm_compute. exact I.
  - intros c1 c2 H1 H2 Hh.
    repeat (apply elem_of_cons in H1 as [->|H1]); try (by apply not_elem_of_nil in H1);
      repeat (apply elem_of_cons in H2 as [->|H2]); try (by apply not_elem_of_nil in H2);
      try reflexivity; discriminate Hh.
  - split; [|split; [vm_compute; reflexivity|split; [reflexivity|]]].
    + refine (eq_trans (Hdb "h1") _). vm_compute. reflexivity.
    + vm_compute. discriminate.
Defined.

(** * What a successful call leaves in the cache *)

Lemma embedChunksForFile_identity env chunks entry source w :
  let w' := snd (embedChunksForFile env chunks entry source w) in
  provider (self w') = provider (self w) ∧ providerKey (self w') = providerKey (self w) ∧
  cache (self w') = cache (self w).
Proof.
  apply (frame_embedChunksForFile
           (fun x => provider (self x) = provider (self w) ∧
                     providerKey (self x) = providerKey (self w) ∧
                     cache (self x) = cache (self w))); [| | | |done].
  - by intros x e.
  - intros env0 entries. by apply preserves_upsertEmbeddingCache.
  - intros params. by apply preserves_recordBatchFailure.
  - by intros x.
Qed.

Lemma written_entries_served env embed chunks s t es c :
  cache_enabled (cache s) = true →
  (∀ e, e ∈ es ↔ e ∈ miss_entry embed <$> (scan_file env s chunks).2) →
  (∀ c, c ∈ chunks →
        embed (text c) ≠ [] ∧
        parseEmbedding env (JSON_stringify env (embed (text c))) = embed (text c)) →
  c ∈ chunks → Js.truthy (hash c) = true →
  ∃ v, stored_in env s (written_entries env s t es) (hash c) = Some v ∧ v ≠ [].
Proof.
  intros Hon Hes Hembed Hc Ht. unfold written_entries, stored_in.
  rewrite Hon, stored_foldl_upsert.
  destruct (last (filter _ es)) as [e|] eqn:Hlast.
  - apply last_Some_elem_of, list_elem_of_filter in Hlast as [_ He].
    apply Hes, list_elem_of_fmap in He as (m & -> & Hm).
    destruct (scan_file_miss_empty env s chunks m Hm) as [Hchunk _].
    apply list_elem_of_lookup_2 in Hchunk.
    destruct (Hembed (chunk m) Hchunk) as [Hne Hround].
    exists (embed (text (chunk m))). cbn. by rewrite Hround.
  - apply last_None in Hlast.
    apply list_elem_of_lookup_1 in Hc as [i Hi].
    destruct (scan_file_classify env s chunks i c Hi) as [Hclass _].
    destruct (usable_hit (lookup_hit env s c)) eqn:Hu.
    + apply usable_hit_served in Hu as [_ (v & Hv & Hne)].
      unfold cached_vector in Hv. rewrite Hon in Hv. by exists v.
    + exfalso.
      assert (Hmiss : {| index := i; chunk := c |} ∈ (scan_file env s chunks).2).
      { apply Hclass. intros Hs. apply usable_hit_served in Hs. congruence. }
      assert (Hin : miss_entry embed {| index := i; chunk := c |}
                    ∈ filter (fun e => entry_hash e = hash c) es).
      { apply list_elem_of_filter. split; [done|]. apply Hes, list_elem_of_fmap. eauto. }
      rewrite Hlast in Hin. by apply not_elem_of_nil in Hin.
Qed.

(** X23. After a call that went well, the file is in the cache.  Let the
    cache be enabled; let the provider compute [embed] of each text; let
    the runners, given requests with distinct custom ids, fail with an
    error other than [null] and [undefined] or resolve to a map that
    holds, in whatever order, [embed] of the text of every request under
    its custom id; let the custom ids tell the chunks of the file apart;
    and let [embed] of the text of each chunk be a vector that is not
    empty and that [parseEmbedding] reads back from what [JSON.stringify]
    wrote.  Then every chunk of the file that has a hash is served from
    the cache once [embedChunksForFile] has run, by whichever route; if
    all chunks have a hash, embedding the file again changes nothing and
    asks nobody.  (A runner that resolves to a plain array is outside
    these conditions: its array is handed on without being cached.) *)
Theorem embedded_file_is_cached
    (env : Env) (embed : string → vector) (chunks : list MemoryChunk)
    (entry : FileEntry) (source : MemorySource) (w : World) :
  provider_answers env embed →
  runners_answer env embed →
  custom_ids_distinct env source entry chunks →
  cache_enabled (cache (self w)) = true →
  (∀ c, c ∈ chunks →
        embed (text c) ≠ [] ∧
        parseEmbedding env (JSON_stringify env (embed (text c))) = embed (text c)) →
  let w' := snd (embedChunksForFile env chunks entry source w) in
  (∀ c, c ∈ chunks → Js.truthy (hash c) = true → served env (self w') c) ∧
  ((∀ c, c ∈ chunks → Js.truthy (hash c) = true) →
   ∀ entry' source',
     embedChunksForFile env chunks entry' source' w'
     = (Ok (from_cache env (self w') <$> chunks), w')).
Proof.
  intros Hans Hrun Hids Hon Hembed w'.
  assert (Hserved : ∀ c, c ∈ chunks → Js.truthy (hash c) = true → served env (self w') c).
  { intros c Hc Ht. split; [done|].
    destruct (embedChunksForFile_identity env chunks entry source w) as (_ & _ & Hcfg).
    fold w' in Hcfg.
    destruct (embedChunksForFile_entries env embed chunks entry source w Hans Hrun Hids)
      as (es & Hes & Hheld).
    fold w' in Hheld. unfold cached_vector. rewrite Hcfg, Hon.
    change (∃ v, stored env (self w') (hash c) = Some v ∧ v ≠ []).
    rewrite (Hheld (hash c) 0).
    by apply (written_entries_served env embed chunks). }
  split; [done|]. intros Hall entry' source'.
  assert (Hevery : ∀ c, c ∈ chunks → served env (self w') c).
  { intros c Hc. apply Hserved; [done|by apply Hall]. }
  rewrite embedChunksForFile_route. destruct (route (self w')) as [|client|client].
  - by apply embedChunksInBatches_all_served.
  - by apply embedChunksWithBatchApi_all_served.
  - by apply embedChunksWithBatchApi_all_served.
Qed.

Lemma embedded_file_is_cached_witness :
  let w := Sample.world true true 0 [] in
  let chunks := [Sample.chunk_of "alpha" "h1"; Sample.chunk_of "beta" "h2"] in
  let w' := snd (embedChunksForFile Scenario.env_reversed chunks Sample.file SrcMemory w) in
  embedChunksForFile Scenario.env_reversed chunks Sample.file SrcSessions w'
  = (Ok (from_cache Scenario.env_reversed (self w') <$> chunks), w') ∧
  from_cache Scenario.env_reversed (self w') <$> chunks = [[5; 1]; [4; 1]].
Proof.
  intros w chunks w'.
  destruct (embedded_file_is_cached Scenario.env_reversed Sample.embed chunks Sample.file
              SrcMemory w) as [_ Hagain].
  - intros hist texts. reflexivity.
  - exact env_reversed_answers.
  - apply (bool_decide_unpack _). vm_compute. exact I.
  - reflexivity.
  - intros c Hc. apply elem_of_cons in Hc as [->|Hc];
      [split; [discriminate|reflexivity]|].
    apply list_elem_of_singleton in Hc as ->. split; [discriminate|reflexivity].
  - split; [|reflexivity]. apply Hagain.
    intros c Hc. apply elem_of_cons in Hc as [->|Hc]; [reflexivity|].
    apply list_elem_of_singleton in Hc as ->. reflexivity.
Defined.

(** * Custom ids tell the chunks of a file apart *)

Lemma string_app_nil (s : string) : "" +:+ s = s.
Proof. reflexivity. Qed.

Lemma string_app_cons c (a b : string) : String c a +:+ b = String c (a +:+ b).
Proof. reflexivity. Qed.

Lemma string_app_assoc (a b c : string) : (a +:+ b) +:+ c = a +:+ (b +:+ c).
Proof.
  induction a as [|x a IH]; [done|].
  change (String x ((a +:+ b) +:+ c) = String x (a +:+ (b +:+ c))). by rewrite IH.
Qed.

Lemma pretty_N_go_no_colon x s : no_colon s → no_colon (pretty_N_go x s).
Proof.
  revert s. induction (N.lt_wf_0 x) as [x _ IH]; intros s Hs.
  assert (x = 0 ∨ 0 < x)%N as [->|Hpos] by lia.
  - by rewrite pretty_N_go_0.
  - rewrite pretty_N_go_step by done. apply IH; [by apply N.div_lt|].
    split; [|done]. unfold pretty_N_char. by repeat case_match.
Qed.

Lemma pretty_nat_no_colon (n : nat) : no_colon (pretty n).
Proof.
  unfold pretty, pretty_nat, pretty, pretty_N.
  destruct (decide _); [by split|]. by apply pretty_N_go_no_colon.
Qed.

Lemma no_colon_app_colon a b : ¬ no_colon (a +:+ ":" +:+ b).
Proof.
  induction a as [|x a IH].
  - by intros [? _].
  - intros [_ ?]. by apply IH.
Qed.

Lemma last_field_inj a b d1 d2 :
  no_colon d1 → no_colon d2 → a +:+ ":" +:+ d1 = b +:+ ":" +:+ d2 → d1 = d2.
Proof.
  intros H1 H2. revert b.
  induction a as [|x a IH]; intros [|y b]; rewrite ?string_app_nil, ?string_app_cons.
  - intros [= Hd]. exact Hd.
  - intros [= _ Hd]. change (d1 = b +:+ ":" +:+ d2) in Hd. rewrite Hd in H1.
    by apply no_colon_app_colon in H1.
  - intros [= _ Hd]. change (a +:+ ":" +:+ d1 = d2) in Hd. rewrite <- Hd in H2.
    by apply no_colon_app_colon in H2.
  - intros [= _ Hrest]. apply (IH b). exact Hrest.
Qed.

Lemma customIdOf_split env source entry m :
  customIdOf env source entry m
  = hashText env (custom_id_prefix source entry m +:+ ":" +:+ pretty (index m)).
Proof.
  unfold customIdOf, custom_id_prefix. f_equal. by rewrite !string_app_assoc.
Qed.

Lemma customIdOf_index env source entry m m' :
  (∀ a b, hashText env a = hashText env b → a = b) →
  customIdOf env source entry m = customIdOf env source entry m' → index m = index m'.
Proof.
  intros Hinj. rewrite !customIdOf_split. intros Heq%Hinj.
  apply last_field_inj in Heq; [|apply pretty_nat_no_colon..].
  by apply (inj pretty) in Heq.
Qed.

Lemma items_from_elem rest i m :
  m ∈ items_from rest i ↔ ∃ k, rest !! k = Some (chunk m) ∧ index m = (i + k)%nat.
Proof.
  revert i. induction rest as [|c rest IH]; intros i; cbn [items_from].
  - split; [by intros ?%not_elem_of_nil|by intros (k & ? & _)].
  - rewrite elem_of_cons, IH. split.
    + intros [->|(k & Hk & Hi)]; [exists 0%nat; cbn; split; [done|lia]|].
      exists (S k). split; [done|lia].
    + intros ([|k] & Hk & Hi).
      * left. destruct m as [j d]. cbn in *. injection Hk as ->. f_equal. lia.
      * right. exists k. split; [done|lia].
Qed.

Lemma items_from_NoDup rest i : NoDup (items_from rest i).
Proof.
  revert i. induction rest as [|c rest IH]; intros i; cbn [items_from]; constructor; [|done].
  intros (k & _ & Hi)%items_from_elem. cbn in Hi. lia.
Qed.

(** X24. Custom ids are as good as the hash.  If [hashText] does not map two
    texts to one digest, no two chunks of a file get the same custom id,
    even when they have the same lines, text and hash: the position of
    the chunk is the last field of the text that is hashed, and it is
    written in decimal after the last colon.  So the map from custom ids
    back to positions loses no chunk. *)
Theorem custom_ids_never_collide
    (env : Env) (source : MemorySource) (entry : FileEntry) (chunks : list MemoryChunk) :
  (∀ a b, hashText env a = hashText env b → a = b) →
  custom_ids_distinct env source entry chunks ∧
  ∀ s m,
    m ∈ (scan_file env s chunks).2 →
    (build_requests env (fun cid _ => cid) source entry (scan_file env s chunks).2 [] ∅).2
    !! customIdOf env source entry m
    = Some {| mapped_index := index m; mapped_hash := hash (chunk m) |}.
Proof.
  intros Hinj.
  assert (Hids : custom_ids_distinct env source entry chunks).
  { unfold custom_ids_distinct. apply NoDup_fmap_2_strong; [|apply items_from_NoDup].
    intros m m' Hm Hm' Hid. apply (customIdOf_index env source entry m m' Hinj) in Hid.
    apply items_from_elem in Hm as (k & Hk & Hi), Hm' as (k' & Hk' & Hi').
    assert (k = k') by lia. subst k'. rewrite Hk in Hk'. injection Hk' as Hc.
    destruct m, m'. cbn in *. congruence. }
  split; [done|]. intros s m Hm. rewrite build_requests_run. cbn [snd].
  apply remember_lookup; [|done].
  eapply sublist_NoDup; [exact Hids|]. rewrite scan_file_missing.
  apply fmap_sublist, misses_from_sublist.
Qed.

Lemma custom_ids_never_collide_witness :
  let twin := Sample.chunk_of "alpha" "h1" in
  customIdOf Sample.env SrcMemory Sample.file {| index := 0; chunk := twin |}
  ≠ customIdOf Sample.env SrcMemory Sample.file {| index := 1; chunk := twin |} ∧
  custom_ids_distinct Sample.env SrcMemory Sample.file [twin; twin].
Proof.
  intros twin.
  destruct (custom_ids_never_collide Sample.env SrcMemory Sample.file [twin; twin])
    as [Hids _].
  - intros a b Hab. exact Hab.
  - split; [vm_compute; discriminate|exact Hids].
Defined.

(** * The provider's answer is matched by position *)

Lemma fill_batch_answer missing vs cursor n i emb tc :
  (cursor + i + n <= length missing)%nat →
  fill_batch missing vs cursor n i emb tc
  = put_writes (imap (fun k => answer_write vs (i + k)) (take n (drop (cursor + i) missing)))
      (emb, tc).
Proof.
  revert i emb tc. induction n as [|n IH]; intros i emb tc Hlen; [done|].
  cbn [fill_batch].
  destruct (lookup_lt_is_Some_2 missing (cursor + i)) as [m Hm]; [lia|].
  rewrite Hm, (drop_S _ _ _ Hm). cbn [take]. rewrite imap_cons.
  cbn [put_writes foldl]. rewrite (IH (S i)) by lia.
  replace (cursor + S i)%nat with (S (cursor + i)) by lia.
  unfold put_writes. f_equal.
  - unfold put_write, answer_write. cbn. by rewrite Nat.add_0_r.
  - apply imap_ext. intros k m' _. cbn. by replace (S (i + k))%nat with (i + S k)%nat by lia.
Qed.

Lemma answer_write_indices vs l :
  (fun wr : nat * string * vector => wr.1.1) <$> imap (answer_write vs) l = index <$> l.
Proof.
  rewrite fmap_imap. rewrite <- (imap_const index). by apply imap_ext.
Qed.

Lemma embedChunksInBatches_single_bin env chunks w vs :
  (scan_file env (self w) chunks).2 ≠ [] →
  bin_tokens (chunk <$> (scan_file env (self w) chunks).2) <= EMBEDDING_BATCH_MAX_TOKENS →
  embedBatch env (events w) ((fun m => text (chunk m)) <$> (scan_file env (self w) chunks).2)
  = Ok vs →
  let missing := (scan_file env (self w) chunks).2 in
  let out := put_writes (imap (answer_write vs) missing)
               ((scan_file env (self w) chunks).1, []) in
  embedChunksInBatches env chunks w
  = (Ok out.1,
     snd (upsertEmbeddingCache env out.2
            (add_event (EvEmbedBatch ((fun m => text (chunk m)) <$> missing)) w))).
Proof.
  intros Hmiss Hfits Hvs missing out. subst missing out.
  assert (Hchunks : chunks ≠ []) by (intros ->; by apply Hmiss).
  rewrite embedChunksInBatches_unfold by done.
  destruct (scan_file env (self w) chunks) as [embeddings missing]. cbn [fst snd] in *.
  rewrite (proj2 (length_nonzero_iff missing) Hmiss).
  rewrite buildEmbeddingBatches_fits; [|by destruct missing|done].
  cbn [embed_bins]. rewrite <- list_fmap_compose.
  assert (Hcall : embedBatchWithRetry env ((fun m => text (chunk m)) <$> missing) w
                  = (Ok vs, add_event (EvEmbedBatch ((fun m => text (chunk m)) <$> missing)) w)).
  { rewrite embedBatchWithRetry_nonempty by by destruct missing.
    by apply retry_loop_ok. }
  change (text ∘ chunk) with (fun m : Missing => text (chunk m)).
  unfold bind at 1. unfold bind at 1. rewrite Hcall.
  cbn [fill_embeddings fill_toCache fill_cursor].
  rewrite (fill_batch_answer missing vs 0 (length (chunk <$> missing)) 0)
    by (rewrite length_fmap; lia).
  cbn [Nat.add]. rewrite length_fmap, firstn_all, drop_0.
  destruct (put_writes (imap (fun k => answer_write vs k) missing) (embeddings, []))
    as [embeddings' toCache] eqn:Hput.
  cbn [ret fill_toCache fill_embeddings fst snd].
  rewrite (bind_ok _ _ _ _ _ (upsertEmbeddingCache_returns env toCache _)). done.
Qed.

(** X25. Vectors are given to chunks by their position in the provider's
    answer.  When the missing chunks of a file fit one bin and the
    provider resolves with the array [vs], whatever it holds,
    [embedChunksInBatches] returns an array of the file's length in
    which the [j]-th missing chunk has [vs[j]], or the empty vector when
    the answer is too short; vectors beyond the number of missing chunks
    are ignored, chunks served by the cache keep their cached vector, and
    no error is raised for a short answer. *)
Theorem provider_answer_is_matched_by_position
    (env : Env) (chunks : list MemoryChunk) (w : World) (vs : list vector) :
  (scan_file env (self w) chunks).2 ≠ [] →
  bin_tokens (chunk <$> (scan_file env (self w) chunks).2) <= EMBEDDING_BATCH_MAX_TOKENS →
  embedBatch env (events w) ((fun m => text (chunk m)) <$> (scan_file env (self w) chunks).2)
  = Ok vs →
  ∃ out w',
    embedChunksInBatches env chunks w = (Ok out, w') ∧
    length out = length chunks ∧
    (∀ j m, (scan_file env (self w) chunks).2 !! j = Some m →
            chunks !! index m = Some (chunk m) ∧
            out !! index m = Some (default [] (vs !! j))) ∧
    (∀ i c, chunks !! i = Some c → served env (self w) c →
            out !! i = cached_vector env (self w) (hash c)).
Proof.
  intros Hmiss Hfits Hvs.
  pose proof (embedChunksInBatches_single_bin env chunks w vs Hmiss Hfits Hvs) as Hcall.
  cbn zeta in Hcall. eexists _, _. split; [exact Hcall|].
  assert (Hrange : ∀ wr, wr ∈ imap (answer_write vs) (scan_file env (self w) chunks).2 →
                         (wr.1.1 < length (scan_file env (self w) chunks).1)%nat).
  { intros wr (k & m & -> & Hm)%elem_of_lookup_imap. cbn.
    apply scan_chunks_index_lt. by eapply list_elem_of_lookup_2. }
  split; [by eapply embedChunksInBatches_length|]. split.
  - intros j m Hm.
    assert (Hin : m ∈ (scan_file env (self w) chunks).2) by by eapply list_elem_of_lookup_2.
    split; [by apply (scan_file_miss_empty env (self w) chunks m)|].
    apply (put_writes_lookup _ _ (answer_write vs j m)); [done| |].
    + rewrite answer_write_indices, scan_file_missing. apply misses_from_NoDup.
    + by apply (elem_of_lookup_imap_2 (answer_write vs)).
  - intros i c Hc Hserved.
    destruct (scan_file_classify env (self w) chunks i c Hc) as [Hclass Hhit].
    rewrite put_writes_lookup_other; [by apply Hhit|done|].
    rewrite answer_write_indices. intros (m & Hi & Hm)%list_elem_of_fmap.
    destruct (scan_file_miss_empty env (self w) chunks m Hm) as [Hchunk _].
    rewrite <- Hi, Hc in Hchunk. injection Hchunk as Hchunk.
    apply (proj1 Hclass); [|done]. destruct m as [k d]. cbn in *. by subst.
Qed.

Lemma provider_answer_is_matched_by_position_witness :
  let w := Sample.world true false 0 [Sample.row 1 "h2" "9;9;" 5] in
  let chunks := [Sample.chunk_of "alpha" "h1"; Sample.chunk_of "beta" "h2";
                 Sample.chunk_of "gamma" "h3"] in
  ∃ out w',
    embedChunksInBatches Scenario.env_short chunks w = (Ok out, w') ∧
    out !! 0%nat = Some [7; 7] ∧ out !! 1%nat = Some [9; 9] ∧ out !! 2%nat = Some [].
Proof.
  intros w chunks.
  destruct (provider_answer_is_matched_by_position Scenario.env_short chunks w [[7; 7]])
    as (out & w' & Hcall & _ & Hmiss & Hhit).
  - vm_compute. discriminate.
  - vm_compute. discriminate.
  - reflexivity.
  - exists out, w'. split; [exact Hcall|]. split; [|split].
    + by destruct (Hmiss 0%nat {| index := 0; chunk := Sample.chunk_of "alpha" "h1" |}
                     eq_refl) as [_ ?].
    + refine (eq_trans (Hhit 1%nat (Sample.chunk_of "beta" "h2") eq_refl _) _);
        [|reflexivity].
      apply usable_hit_served. reflexivity.
    + by destruct (Hmiss 1%nat {| index := 2; chunk := Sample.chunk_of "gamma" "h3" |}
                     eq_refl) as [_ ?].
Defined.
